(** * Cross-chunk speaker reconciliation: [scripts/merge_fluidaudio_chunks.py]

    A shallow embedding of the merge script and the properties of its
    overlap rule, speaker mapper and registry.

    - A Python float is an IEEE-754 binary64 number: Rocq's primitive
      [float], with its NaN and signed zeros.  JSON numbers are taken to be
      floats.
    - A [dict] with [str] keys is an association list in insertion order,
      with unique keys ([Dict]).
    - A raised exception is the [Err] branch of [result]; the functions are
      written in the error monad.
    - A [str] is a [string], read as a sequence of code points below 256.
    - NumPy: [np.dot] and [np.linalg.norm] add their products from left to
      right, [np.mean(_, axis=0)] adds the rows in order.  The mapper and the
      merge loop take the similarity as a parameter ([map_speakers_with],
      [merge_chunks_with]); the script's functions are their instances at
      [cosine_similarity].
    - [list.sort] is a parameter of the merge, taken with the library's
      contract ([list_sort]): it permutes the list, and where no key is NaN
      the result ascends and equal keys keep their order.  What it does with
      NaN keys is left open.  [insertion_sort] and [left_insertion_sort]
      are two sorts that meet the contract; the examples run on them.
    - The chunk files are given as the documents [json.load] returns.

    The last sections embed [scripts/align_speakers.py]: [parse_srt] on the
    text [f.read()] returns, [find_speaker_at_time] and [align_transcript]
    on lists of segments whose fields are floats and strings. *)

From Stdlib Require Import Bool Arith ZArith Lia List Ascii String.
From Stdlib Require Import Floats Uint63 Permutation Sorted.
From Stdlib Require Import DecimalString DecimalZ DecimalFacts.
Import ListNotations.

Local Open Scope list_scope.

(** ** Exceptions and the error monad *)

Inductive exn : Type :=
| ValueError
| KeyError
| IndexError.

Inductive result (A : Type) : Type :=
| Ok (a : A)
| Err (e : exn).

Arguments Ok {A} a.
Arguments Err {A} e.

Definition bind {A B} (r : result A) (k : A -> result B) : result B :=
  match r with
  | Ok a => k a
  | Err e => Err e
  end.

Declare Scope py_scope.
Delimit Scope py_scope with py.
Notation "x <- c1 ;; c2" := (bind c1 (fun x => c2))
  (at level 61, c1 at next level, right associativity) : py_scope.
Notation "' pat <- c1 ;; c2" := (bind c1 (fun x => match x with pat => c2 end))
  (at level 61, pat pattern, c1 at next level, right associativity) : py_scope.
Local Open Scope py_scope.

Definition is_ok {A} (r : result A) : bool :=
  match r with Ok _ => true | Err _ => false end.

(** [mapM f l]: evaluate [f] on the elements from left to right, stopping at
    the first exception. *)
Fixpoint mapM {A B} (f : A -> result B) (l : list A) : result (list B) :=
  match l with
  | [] => Ok []
  | x :: t => y <- f x ;; ys <- mapM f t ;; Ok (y :: ys)
  end.

(** ** Python dictionaries with string keys *)

Module Dict.

Definition t (V : Type) : Type := list (string * V).

Definition empty {V} : t V := [].

Definition keys {V} (d : t V) : list string := map fst d.

Fixpoint get {V} (k : string) (d : t V) : option V :=
  match d with
  | [] => None
  | (k', v) :: r => if String.eqb k k' then Some v else get k r
  end.

Definition mem {V} (k : string) (d : t V) : bool :=
  match get k d with Some _ => true | None => false end.

(** [d[k] = v]: an existing key keeps its position, a new key goes last. *)
Fixpoint set {V} (k : string) (v : V) (d : t V) : t V :=
  match d with
  | [] => [(k, v)]
  | (k', v') :: r =>
      if String.eqb k k' then (k', v) :: r else (k', v') :: set k v r
  end.

(** [d[k]], raising [KeyError] on a missing key. *)
Definition lookup {V} (k : string) (d : t V) : result V :=
  match get k d with
  | Some v => Ok v
  | None => Err KeyError
  end.

End Dict.

(** ** Floats *)

Definition is_nan (x : float) : bool := negb (PrimFloat.eqb x x).

(** Python's [a > b] on floats. *)
Definition gtb (a b : float) : bool := PrimFloat.ltb b a.

(** Python's two-argument [max(a, b)]: [b] only when [b > a]. *)
Definition py_max (a b : float) : float := if gtb b a then b else a.

Definition float_of_nat (n : nat) : float :=
  PrimFloat.of_uint63 (Uint63.of_Z (Z.of_nat n)).

(** ** Data model *)

Definition embedding : Type := list float.

Record segment : Type := mkSegment {
  startTimeSeconds : float;
  endTimeSeconds : float;
  speakerId : string;
  qualityScore : float;
  seg_embedding : embedding
}.

(** The JSON document of one chunk, as [json.load] returns it. *)
Record chunk : Type := mkChunk {
  segments : list segment;
  durationSeconds : float
}.

(** ** [cosine_similarity] *)

(** [np.dot] on two one-dimensional arrays: [ValueError] when the lengths
    differ, otherwise the sum of the products. *)
Fixpoint dot_acc (acc : float) (a b : embedding) : result float :=
  match a, b with
  | [], [] => Ok acc
  | x :: a', y :: b' => dot_acc (acc + x * y)%float a' b'
  | _, _ => Err ValueError
  end.

Definition np_dot (a b : embedding) : result float :=
  if Nat.eqb (List.length a) (List.length b) then dot_acc 0%float a b else Err ValueError.

(** [np.linalg.norm] of a one-dimensional array: [sqrt(dot(x, x))]. *)
Definition np_norm (a : embedding) : float :=
  match dot_acc 0%float a a with
  | Ok s => PrimFloat.sqrt s
  | Err _ => PrimFloat.nan
  end.

Definition cosine_similarity (a b : embedding) : result float :=
  d <- np_dot a b ;;
  Ok (d / (np_norm a * np_norm b))%float.

(** ** [get_speaker_centroids] *)

(** The first loop: [speaker_embeddings[sid].append(seg['embedding'])], a new
    speaker being entered with an empty list first. *)
Definition add_embedding (d : Dict.t (list embedding)) (seg : segment)
  : Dict.t (list embedding) :=
  match Dict.get (speakerId seg) d with
  | Some es => Dict.set (speakerId seg) (es ++ [seg_embedding seg]) d
  | None => Dict.set (speakerId seg) [seg_embedding seg] d
  end.

Definition collect_embeddings (segs : list segment) : Dict.t (list embedding) :=
  fold_left add_embedding segs Dict.empty.

(** Element-wise sum of two rows of equal length. *)
Fixpoint vec_add (a b : embedding) : embedding :=
  match a, b with
  | x :: a', y :: b' => (x + y)%float :: vec_add a' b'
  | _, _ => []
  end.

(** [np.mean(embeddings, axis=0)] on a non-empty list of rows: the rows must
    form a rectangular array ([ValueError] otherwise); the rows are added up
    in order and the sum is divided by their number. *)
Definition np_mean (rows : list embedding) : result embedding :=
  match rows with
  | [] => Err ValueError
  | r0 :: rest =>
      if forallb (fun r => Nat.eqb (List.length r) (List.length r0)) rest
      then Ok (map (fun s => (s / float_of_nat (List.length rows))%float)
                   (fold_left vec_add rest r0))
      else Err ValueError
  end.

Definition get_speaker_centroids (segs : list segment)
  : result (Dict.t embedding) :=
  mapM (fun '(sid, embeddings) => c <- np_mean embeddings ;; Ok (sid, c))
       (collect_embeddings segs).

(** ** [int(s)] and [str(n)] on speaker identifiers *)

Definition is_space (c : ascii) : bool :=
  let n := nat_of_ascii c in
  ((9 <=? n) && (n <=? 13)) || (n =? 32) || (n =? 133) || (n =? 160).

Definition digit_value (c : ascii) : option Z :=
  let n := nat_of_ascii c in
  if (48 <=? n) && (n <=? 57) then Some (Z.of_nat n - 48)%Z else None.

Fixpoint skip_spaces (s : string) : string :=
  match s with
  | String c r => if is_space c then skip_spaces r else s
  | EmptyString => s
  end.

Fixpoint all_spaces (s : string) : bool :=
  match s with
  | String c r => is_space c && all_spaces r
  | EmptyString => true
  end.

(** The digits after the first one; a single underscore may stand between two
    digits.  Returns the value read and what is left of the string. *)
Fixpoint scan_digits (acc : Z) (s : string) : Z * string :=
  match s with
  | String c r =>
      match digit_value c with
      | Some d => scan_digits (10 * acc + d)%Z r
      | None =>
          if Ascii.eqb c "_"%char then
            match r with
            | String c' r' =>
                match digit_value c' with
                | Some d => scan_digits (10 * acc + d)%Z r'
                | None => (acc, s)
                end
            | EmptyString => (acc, s)
            end
          else (acc, s)
      end
  | EmptyString => (acc, s)
  end.

(** [int(s)] for a [str] in base 10: surrounding whitespace, an optional
    sign, then digits; anything else is a [ValueError]. *)
Definition py_int (s : string) : result Z :=
  let s1 := skip_spaces s in
  let '(neg, s2) :=
    match s1 with
    | String c r =>
        if Ascii.eqb c "+"%char then (false, r)
        else if Ascii.eqb c "-"%char then (true, r)
        else (false, s1)
    | EmptyString => (false, s1)
    end in
  match s2 with
  | String c r =>
      match digit_value c with
      | Some d =>
          let '(v, rest) := scan_digits d r in
          if all_spaces rest then Ok (if neg then (- v)%Z else v)
          else Err ValueError
      | None => Err ValueError
      end
  | EmptyString => Err ValueError
  end.

(** [str(n)] for an [int]. *)
Definition py_str (n : Z) : string := NilZero.string_of_int (Z.to_int n).

(** ** [map_speakers] *)

(** Python truthiness of a [str]: only the empty string is false. *)
Definition truthy (s : string) : bool := negb (String.eqb s ""%string).

(** [max] of a non-empty sequence of integers. *)
Definition max_ints (ids : list Z) : Z :=
  match ids with
  | [] => 0%Z
  | x :: r => fold_left Z.max r x
  end.

(** [max(int(sid) for sid in existing_centroids.keys()) + 1
     if existing_centroids else 1] *)
Definition initial_next_id (existing_centroids : Dict.t embedding) : result Z :=
  match existing_centroids with
  | [] => Ok 1%Z
  | _ :: _ =>
      ids <- mapM py_int (Dict.keys existing_centroids) ;;
      Ok (max_ints ids + 1)%Z
  end.

(** The default [threshold=0.85]: the binary64 number nearest to 0.85. *)
Definition default_threshold : float := 0x1.b333333333333p-1%float.

Section Mapper.

(** The similarity the mapper calls; the script's is [cosine_similarity]. *)
Variable similarity : embedding -> embedding -> result float.

(** The inner loop over [existing_centroids.items()]. *)
Fixpoint best_match_loop (new_centroid : embedding)
    (existing : list (string * embedding))
    (best_match : option string) (best_sim : float)
  : result (option string * float) :=
  match existing with
  | [] => Ok (best_match, best_sim)
  | (existing_sid, existing_centroid) :: r =>
      sim <- similarity new_centroid existing_centroid ;;
      if gtb sim best_sim
      then best_match_loop new_centroid r (Some existing_sid) sim
      else best_match_loop new_centroid r best_match best_sim
  end.

(** [if best_match:] is false for [None] and for the empty string. *)
Definition matched (best_match : option string) : option string :=
  match best_match with
  | Some g => if truthy g then Some g else None
  | None => None
  end.

(** The outer loop over [new_centroids.items()]. *)
Fixpoint map_loop (new : list (string * embedding))
    (existing_centroids : Dict.t embedding) (threshold : float)
    (mapping : Dict.t string) (next_id : Z) : result (Dict.t string) :=
  match new with
  | [] => Ok mapping
  | (new_sid, new_centroid) :: r =>
      '(best_match, _) <-
        best_match_loop new_centroid existing_centroids None threshold ;;
      match matched best_match with
      | Some g =>
          map_loop r existing_centroids threshold
                   (Dict.set new_sid g mapping) next_id
      | None =>
          map_loop r existing_centroids threshold
                   (Dict.set new_sid (py_str next_id) mapping)
                   (next_id + 1)%Z
      end
  end.

Definition map_speakers_with (new_centroids existing_centroids : Dict.t embedding)
    (threshold : float) : result (Dict.t string) :=
  next_id <- initial_next_id existing_centroids ;;
  map_loop new_centroids existing_centroids threshold Dict.empty next_id.

End Mapper.

Definition map_speakers : Dict.t embedding -> Dict.t embedding -> float
                          -> result (Dict.t string) :=
  map_speakers_with cosine_similarity.

(** ** [merge_chunks] *)

(** The loop variables that live across chunks. *)
Record state : Type := mkState {
  all_segments : list segment;
  global_centroids : Dict.t embedding;
  total_duration : float
}.

Definition initial_state : state := mkState [] Dict.empty 0%float.

(** The merged document. *)
Record merged : Type := mkMerged {
  audioFile : string;
  config_merged : bool;
  config_chunks : nat;
  merged_durationSeconds : float;
  merged_segments : list segment;
  speakerCount : nat;
  timestamp : float
}.

(** [for new_sid, global_sid in speaker_map.items(): ...]: a global ID not yet
    in the registry is entered with the centroid of its local speaker. *)
Fixpoint update_global_centroids (items : list (string * string))
    (chunk_centroids global : Dict.t embedding) : result (Dict.t embedding) :=
  match items with
  | [] => Ok global
  | (new_sid, global_sid) :: r =>
      if Dict.mem global_sid global
      then update_global_centroids r chunk_centroids global
      else
        c <- Dict.lookup new_sid chunk_centroids ;;
        update_global_centroids r chunk_centroids (Dict.set global_sid c global)
  end.

(** [chunk_offsets[i - 1]] for [i > 0]. *)
Definition previous_offset (chunk_offsets : list float) (i : nat) : result float :=
  match nth_error chunk_offsets (i - 1) with
  | Some o => Ok o
  | None => Err IndexError
  end.

(** [i > 0 and start < chunk_offsets[i - 1] + chunk_size] *)
Definition in_previous_chunk (i : nat) (chunk_offsets : list float)
    (chunk_size start : float) : result bool :=
  if Nat.ltb 0 i then
    prev <- previous_offset chunk_offsets i ;;
    Ok (PrimFloat.ltb start (prev + chunk_size)%float)
  else Ok false.

(** The loop over the segments of chunk [i]; returns what it appends to
    [all_segments]. *)
Fixpoint process_segments (i : nat) (offset : float) (chunk_offsets : list float)
    (chunk_size : float) (speaker_map : Dict.t string) (segs : list segment)
  : result (list segment) :=
  match segs with
  | [] => Ok []
  | seg :: r =>
      let start := (startTimeSeconds seg + offset)%float in
      let end_ := (endTimeSeconds seg + offset)%float in
      skip <- in_previous_chunk i chunk_offsets chunk_size start ;;
      if (skip : bool) then
        process_segments i offset chunk_offsets chunk_size speaker_map r
      else
        sid <- Dict.lookup (speakerId seg) speaker_map ;;
        rest <- process_segments i offset chunk_offsets chunk_size speaker_map r ;;
        Ok (mkSegment start end_ sid (qualityScore seg) (seg_embedding seg) :: rest)
  end.

(** ** [list.sort] *)

(** Ascending start times. *)
Definition start_leb (a b : segment) : Prop :=
  PrimFloat.leb (startTimeSeconds a) (startTimeSeconds b) = true.

(** The segments that start at [t]. *)
Definition starting_at (t : float) (l : list segment) : list segment :=
  filter (fun s => PrimFloat.eqb (startTimeSeconds s) t) l.

(** No start time is NaN: [<] orders the keys totally. *)
Definition no_nan_starts (l : list segment) : Prop :=
  Forall (fun s => is_nan (startTimeSeconds s) = false) l.

(** [all_segments.sort(key=lambda x: x['startTimeSeconds'])], by its
    contract.  The sort only moves the elements of the list.  It compares
    keys with [<] and is stable: where no key is NaN the result ascends and
    the segments with equal keys keep their order.  With a NaN among the
    keys [<] is no order, and the result depends on how the interpreter's
    sort finds its runs and merges them; the contract says nothing about
    it beyond the permutation. *)
Record list_sort : Type := mkListSort {
  sort_segments : list segment -> list segment;
  sort_permutes : forall l, Permutation l (sort_segments l);
  sort_ascends :
    forall l, no_nan_starts l -> StronglySorted start_leb (sort_segments l);
  sort_keeps_ties :
    forall l t, no_nan_starts l ->
                starting_at t (sort_segments l) = starting_at t l
}.

(** The stable insertion sort from the right: every segment goes before the
    first segment of the sorted rest that does not start earlier. *)
Fixpoint insert_by_start (x : segment) (l : list segment) : list segment :=
  match l with
  | [] => [x]
  | y :: r =>
      if PrimFloat.ltb (startTimeSeconds y) (startTimeSeconds x)
      then y :: insert_by_start x r
      else x :: y :: r
  end.

Fixpoint sort_by_start (l : list segment) : list segment :=
  match l with
  | [] => []
  | x :: r => insert_by_start x (sort_by_start r)
  end.

(** The stable insertion sort from the left: every segment goes behind the
    segments, sorted so far, that do not start later. *)
Fixpoint insert_behind (x : segment) (l : list segment) : list segment :=
  match l with
  | [] => [x]
  | y :: r =>
      if PrimFloat.ltb (startTimeSeconds x) (startTimeSeconds y)
      then x :: y :: r
      else y :: insert_behind x r
  end.

Definition sort_from_left (l : list segment) : list segment :=
  fold_left (fun sorted x => insert_behind x sorted) l [].

Section Merge.

Variable similarity : embedding -> embedding -> result float.
Variable chunk_offsets : list float.
Variable chunk_size : float.

(** The speaker map of chunk [i] and the registry after it. *)
Definition resolve_speakers (i : nat) (chunk_centroids global : Dict.t embedding)
  : result (Dict.t string * Dict.t embedding) :=
  if Nat.eqb i 0 then
    Ok (map (fun sid => (sid, sid)) (Dict.keys chunk_centroids), chunk_centroids)
  else
    speaker_map <-
      map_speakers_with similarity chunk_centroids global default_threshold ;;
    global' <- update_global_centroids speaker_map chunk_centroids global ;;
    Ok (speaker_map, global').

(** One iteration of the loop over the chunks. *)
Definition process_chunk (i : nat) (data : chunk) (offset : float) (st : state)
  : result state :=
  match segments data with
  | [] => Ok st
  | _ :: _ =>
      chunk_centroids <- get_speaker_centroids (segments data) ;;
      '(speaker_map, global) <-
        resolve_speakers i chunk_centroids (global_centroids st) ;;
      new_segs <-
        process_segments i offset chunk_offsets chunk_size speaker_map
                         (segments data) ;;
      Ok (mkState (all_segments st ++ new_segs) global
                  (py_max (total_duration st) (durationSeconds data + offset)%float))
  end.

(** [for i, (chunk_file, offset) in enumerate(zip(chunk_files, chunk_offsets))] *)
Fixpoint merge_loop (i : nat) (files : list chunk) (offsets : list float)
    (st : state) : result state :=
  match files, offsets with
  | data :: files', offset :: offsets' =>
      st' <- process_chunk i data offset st ;;
      merge_loop (S i) files' offsets' st'
  | _, _ => Ok st
  end.

End Merge.

(** [chunk_files] holds the parsed documents; [mtime] is the modification time
    of the first file, read for the [timestamp] field; [sort] is [list.sort]. *)
Definition merge_chunks_with (sort : list_sort)
    (similarity : embedding -> embedding -> result float)
    (chunk_files : list chunk) (chunk_offsets : list float)
    (chunk_size overlap mtime : float) : result merged :=
  st <- merge_loop similarity chunk_offsets chunk_size 0 chunk_files chunk_offsets
                   initial_state ;;
  Ok (mkMerged "merged"%string true (List.length chunk_files)
               (total_duration st)
               (sort_segments sort (all_segments st))
               (List.length (global_centroids st))
               (match chunk_files with [] => 0%float | _ :: _ => mtime end)).

Definition merge_chunks (sort : list_sort)
  : list chunk -> list float -> float -> float -> float -> result merged :=
  merge_chunks_with sort cosine_similarity.

(** * Notions used in the statements *)

(** ** Ranks of binary64 numbers *)

Module FloatRank.

Import SpecFloat.

(** A rank whose lexicographic order is the order of the non-NaN numbers. *)
Definition rank (f : spec_float) : Z * Z * Z :=
  match f with
  | S754_nan => (0, 0, 0)
  | S754_zero _ => (0, 0, 0)
  | S754_infinity true => (-2, 0, 0)
  | S754_infinity false => (2, 0, 0)
  | S754_finite true m e => (-1, - e, - Zpos m)
  | S754_finite false m e => (1, e, Zpos m)
  end%Z.

Definition lt3 (a b : Z * Z * Z) : Prop :=
  let '(a1, a2, a3) := a in
  let '(b1, b2, b3) := b in
  (a1 < b1 \/ (a1 = b1 /\ (a2 < b2 \/ (a2 = b2 /\ a3 < b3))))%Z.

Definition eq3 (a b : Z * Z * Z) : Prop :=
  let '(a1, a2, a3) := a in
  let '(b1, b2, b3) := b in
  (a1 = b1 /\ a2 = b2 /\ a3 = b3)%Z.

Definition nan_sf (f : spec_float) : bool :=
  match f with S754_nan => true | _ => false end.

Definition frank (a : float) : Z * Z * Z := rank (Prim2SF a).

End FloatRank.

(** ** Zero vectors *)

Module ZeroNorm.

Import SpecFloat.

(** Positive or negative zero. *)
Definition is_zero (x : float) : bool := PrimFloat.eqb x 0.

(** Zero or NaN: what sums of products with a zero vector evaluate to. *)
Definition zn (x : float) : Prop :=
  match Prim2SF x with
  | S754_zero _ | S754_nan => True
  | _ => False
  end.

End ZeroNorm.

(** ** The rules in the words of the specification *)

(** The rule as the specification words it: a segment of chunk [i] is dropped
    when [i > 0] and its adjusted start is below [offset_(i-1) + chunkSize]. *)
Definition spec_dropped (i : nat) (chunk_offsets : list float)
    (chunk_size adjusted_start : float) : bool :=
  match i with
  | O => false
  | S j =>
      match nth_error chunk_offsets j with
      | Some prev => PrimFloat.ltb adjusted_start (prev + chunk_size)%float
      | None => false
      end
  end.

(** An emitted segment is its source shifted by the offset and relabelled. *)
Definition emitted_from (offset : float) (speaker_map : Dict.t string)
    (seg out : segment) : Prop :=
  startTimeSeconds out = (startTimeSeconds seg + offset)%float /\
  endTimeSeconds out = (endTimeSeconds seg + offset)%float /\
  Dict.get (speakerId seg) speaker_map = Some (speakerId out) /\
  qualityScore out = qualityScore seg /\
  seg_embedding out = seg_embedding seg.

(** An output segment [out] stems from segment [seg] of the chunk with
    offset [offset]: the times are shifted, the rest but the label is kept. *)
Definition stems_from (offset : float) (seg out : segment) : Prop :=
  startTimeSeconds out = (startTimeSeconds seg + offset)%float /\
  endTimeSeconds out = (endTimeSeconds seg + offset)%float /\
  qualityScore out = qualityScore seg /\
  seg_embedding out = seg_embedding seg.

(** [out] is the copy of a source segment, given with its chunk's offset. *)
Definition shifted_copy (src : float * segment) (out : segment) : Prop :=
  stems_from (fst src) (snd src) out.

(** The segments that the rule keeps, chunk by chunk as the loop pairs the
    files with the offsets, each with the offset of its chunk; [i] is the
    index of the first file. *)
Fixpoint survivors (chunk_offsets : list float) (chunk_size : float) (i : nat)
    (files : list chunk) (offsets : list float) : list (float * segment) :=
  match files, offsets with
  | data :: files', offset :: offsets' =>
      map (pair offset)
          (filter (fun seg => negb (spec_dropped i chunk_offsets chunk_size
                                      (startTimeSeconds seg + offset)%float))
                  (segments data))
      ++ survivors chunk_offsets chunk_size (S i) files' offsets'
  | _, _ => []
  end.

(** What two runs are compared on: segments, speakerCount, durationSeconds. *)
Definition observable (r : result merged)
  : result (list segment * nat * float) :=
  match r with
  | Ok m => Ok (merged_segments m, speakerCount m, merged_durationSeconds m)
  | Err e => Err e
  end.

(** Registry entry [k], with ID [g], is a candidate for the local centroid
    [c]: its similarity [s] to [c] is strictly above the bar. *)
Definition candidate (similarity : embedding -> embedding -> result float)
    (existing : Dict.t embedding) (bar : float) (c : embedding)
    (k : nat) (g : string) (s : float) : Prop :=
  exists gc, nth_error existing k = Some (g, gc) /\
             similarity c gc = Ok s /\ gtb s bar = true.

(** The candidate the specification selects: no candidate is more similar,
    and every candidate earlier in registry order is strictly less similar. *)
Definition best_candidate (similarity : embedding -> embedding -> result float)
    (existing : Dict.t embedding) (bar : float) (c : embedding)
    (k : nat) (g : string) (s : float) : Prop :=
  candidate similarity existing bar c k g s /\
  forall j gj sj, candidate similarity existing bar c j gj sj ->
                  PrimFloat.leb sj s = true /\
                  (j < k -> PrimFloat.ltb sj s = true).

(** Some registry entry clears the threshold. *)
Definition has_candidate (similarity : embedding -> embedding -> result float)
    (existing : Dict.t embedding) (bar : float) (c : embedding) : bool :=
  existsb (fun e => match similarity c (snd e) with
                    | Ok s => gtb s bar
                    | Err _ => false
                    end) existing.

(** What one iteration of the outer loop decides for a local centroid:
    [Some g] to reuse [g], [None] to mint. *)
Definition choose (similarity : embedding -> embedding -> result float)
    (existing : Dict.t embedding) (threshold : float) (c : embedding)
  : result (option string) :=
  '(best_match, _) <- best_match_loop similarity c existing None threshold ;;
  Ok (matched best_match).

(** The IDs handed out for a list of decisions, minting from [next_id] on. *)
Fixpoint assign_ids (next_id : Z) (choices : list (option string)) : list string :=
  match choices with
  | [] => []
  | Some g :: r => g :: assign_ids next_id r
  | None :: r => py_str next_id :: assign_ids (next_id + 1) r
  end.

Definition count_none (choices : list (option string)) : nat :=
  List.length (filter (fun o => match o with None => true | Some _ => false end)
                      choices).

(** How many of the first [p] local speakers have no candidate. *)
Definition minted_before (similarity : embedding -> embedding -> result float)
    (existing : Dict.t embedding) (threshold : float)
    (new : Dict.t embedding) (p : nat) : nat :=
  List.length (filter (fun e => negb (has_candidate similarity existing threshold (snd e)))
                      (firstn p new)).

(** The registry entries a chunk adds: one per local speaker without a
    match, under consecutive identifiers from [n] on. *)
Fixpoint minted_entries (n : Z) (new : Dict.t embedding)
    (choices : list (option string)) : Dict.t embedding :=
  match new, choices with
  | (_, c) :: r, None :: r' => (py_str n, c) :: minted_entries (n + 1) r r'
  | _ :: r, Some _ :: r' => minted_entries n r r'
  | _, _ => []
  end.

(** A segment moved to the global timeline under its own speaker ID. *)
Definition shift_segment (offset : float) (seg : segment) : segment :=
  mkSegment (startTimeSeconds seg + offset)%float
            (endTimeSeconds seg + offset)%float
            (speakerId seg) (qualityScore seg) (seg_embedding seg).

(** Unique registry IDs, and every accumulated segment labelled by one. *)
Definition registry_covers (st : state) : Prop :=
  NoDup (Dict.keys (global_centroids st)) /\
  forall seg, In seg (all_segments st) ->
              In (speakerId seg) (Dict.keys (global_centroids st)).

(** The value of a digit sequence read from the left, starting from [acc]. *)
Fixpoint value_acc (acc : Z) (d : Decimal.uint) : Z :=
  match d with
  | Decimal.Nil => acc
  | Decimal.D0 l => value_acc (10 * acc + 0) l
  | Decimal.D1 l => value_acc (10 * acc + 1) l
  | Decimal.D2 l => value_acc (10 * acc + 2) l
  | Decimal.D3 l => value_acc (10 * acc + 3) l
  | Decimal.D4 l => value_acc (10 * acc + 4) l
  | Decimal.D5 l => value_acc (10 * acc + 5) l
  | Decimal.D6 l => value_acc (10 * acc + 6) l
  | Decimal.D7 l => value_acc (10 * acc + 7) l
  | Decimal.D8 l => value_acc (10 * acc + 8) l
  | Decimal.D9 l => value_acc (10 * acc + 9) l
  end%Z.

(** ** Example inputs *)

Definition scenario_map : Dict.t string := [("1"%string, "1"%string)].

(** Chunk 1 of a two-chunk run with [chunk_size = 10]: local starts 9, 0 and
    -2, i.e. adjusted starts 19, 10 (the boundary) and 8. *)
Definition scenario_segments : list segment :=
  [ mkSegment 9 9.5 "1" 1 [1%float];
    mkSegment 0 1 "1" 1 [1%float];
    mkSegment (-2) (-1) "1" 1 [1%float] ].

(** Speakers "1" and "3" of the registry have the same centroid, and the
    local speaker "9" points the same way: both tie at similarity 1. *)
Definition tie_registry : Dict.t embedding :=
  [ ("1"%string, [1%float; 0%float]);
    ("2"%string, [0%float; 1%float]);
    ("3"%string, [1%float; 0%float]) ].

Definition tie_chunk : Dict.t embedding := [ ("9"%string, [2%float; 0%float]) ].

Definition one_segment (sid : string) : segment :=
  mkSegment 0 1 sid 1 [1%float].

(** One chunk whose segments start at 5, 2 and 5 again. *)
Definition unsorted_chunk : chunk :=
  mkChunk [ mkSegment 5 6 "1" 1 [1%float; 0%float];
            mkSegment 2 3 "2" 1 [0%float; 1%float];
            mkSegment 5 7 "2" 1 [0%float; 1%float] ] 10.

(** A run of two chunks at offsets 0 and 10: of the second chunk's
    segments, one lies in the first chunk's window. *)
Definition overlap_run : list chunk :=
  [ mkChunk [one_segment "1"] 10; mkChunk scenario_segments 10 ].

(** A chunk with a start time that is not a number. *)
Definition nan_chunk : chunk :=
  mkChunk [ mkSegment PrimFloat.nan 1 "1" 1 [1%float];
            mkSegment 1 2 "1" 1 [1%float] ] 10.

(** Starts 2, NaN and 1: the two insertion sorts part ways. *)
Definition nan_timeline : list segment :=
  [ mkSegment 2 3 "a" 1 []; mkSegment PrimFloat.nan 3 "b" 1 [];
    mkSegment 1 3 "c" 1 [] ].

(** Chunk 0 with local speakers "7" and "3", in this order. *)
Definition chunk_7_3 : chunk :=
  mkChunk [ mkSegment 0 1 "7" 1 [1%float; 0%float];
            mkSegment 1 2 "3" 1 [0%float; 1%float] ] 10.

(** A later chunk with one voice like "3" and one unlike both. *)
Definition chunk_match_and_new : chunk :=
  mkChunk [ mkSegment 0 1 "1" 1 [0%float; 2%float];
            mkSegment 1 2 "2" 1 [1%float; 1%float] ] 10.

(** ** Notions for the centroids *)

(** The distinct elements of a list, in the order of their first occurrence. *)
Fixpoint first_seen (l : list string) : list string :=
  match l with
  | [] => []
  | x :: r => x :: filter (fun y => negb (String.eqb y x)) (first_seen r)
  end.

(** The embeddings of the segments of one speaker, in segment order. *)
Definition embeddings_of (sid : string) (segs : list segment) : list embedding :=
  map seg_embedding (filter (fun s => String.eqb (speakerId s) sid) segs).

(** * [scripts/align_speakers.py] *)

(** An entry of the speaker timeline, as [parse_fluidaudio_json] builds it. *)
Record speaker_seg : Type := mkSpeakerSeg {
  speaker : string;
  sp_start : float;
  sp_end : float
}.

(** An entry of the transcript, as [parse_srt] builds it. *)
Record srt_seg : Type := mkSrtSeg {
  srt_start : float;
  srt_end : float;
  srt_text : string
}.

(** ** [find_speaker_at_time] *)

(** [seg['start'] <= time <= seg['end']] *)
Definition covers (seg : speaker_seg) (time : float) : bool :=
  PrimFloat.leb (sp_start seg) time && PrimFloat.leb time (sp_end seg).

(** The first loop: the speaker of the first segment that covers [time]. *)
Fixpoint first_covering (speaker_segments : list speaker_seg) (time : float)
  : option string :=
  match speaker_segments with
  | [] => None
  | seg :: r =>
      if covers seg time then Some (speaker seg) else first_covering r time
  end.

(** [abs((seg['start'] + seg['end']) / 2 - time)] *)
Definition mid_distance (seg : speaker_seg) (time : float) : float :=
  PrimFloat.abs ((sp_start seg + sp_end seg) / 2 - time)%float.

(** The second loop, from [min_dist] and [nearest_speaker] on. *)
Fixpoint nearest_loop (speaker_segments : list speaker_seg) (time : float)
    (min_dist : float) (nearest_speaker : string) : string :=
  match speaker_segments with
  | [] => nearest_speaker
  | seg :: r =>
      let dist := mid_distance seg time in
      if PrimFloat.ltb dist min_dist
      then nearest_loop r time dist (speaker seg)
      else nearest_loop r time min_dist nearest_speaker
  end.

Definition find_speaker_at_time (speaker_segments : list speaker_seg)
    (time : float) : string :=
  match first_covering speaker_segments time with
  | Some s => s
  | None => nearest_loop speaker_segments time PrimFloat.infinity "Unknown"
  end.

(** ** [align_transcript] *)

(** [sep.join(l)] *)
Fixpoint py_join (sep : string) (l : list string) : string :=
  match l with
  | [] => EmptyString
  | [x] => x
  | x :: r => (x ++ sep ++ py_join sep r)%string
  end.

(** ["**Speaker {current_speaker}:** {' '.join(current_text)}"] *)
Definition speaker_line (current_speaker : string) (current_text : list string)
  : string :=
  ("**Speaker " ++ current_speaker ++ ":** " ++ py_join " " current_text)%string.

(** [current_text and current_speaker] as a condition. *)
Definition flushable (current_text : list string)
    (current_speaker : option string) : bool :=
  match current_text, current_speaker with
  | _ :: _, Some s => truthy s
  | _, _ => false
  end.

(** [speaker != current_speaker], the latter being [None] at first. *)
Definition speaker_changes (speaker : string) (current_speaker : option string)
  : bool :=
  match current_speaker with
  | None => true
  | Some s => negb (String.eqb speaker s)
  end.

(** The loop over the transcript; returns [lines], [current_speaker] and
    [current_text] as it leaves them. *)
Fixpoint align_loop (srt_segments : list srt_seg)
    (speaker_segments : list speaker_seg) (lines : list string)
    (current_speaker : option string) (current_text : list string)
  : list string * option string * list string :=
  match srt_segments with
  | [] => (lines, current_speaker, current_text)
  | seg :: r =>
      let mid_time := ((srt_start seg + srt_end seg) / 2)%float in
      let speaker := find_speaker_at_time speaker_segments mid_time in
      if speaker_changes speaker current_speaker then
        let lines' :=
          match current_speaker with
          | Some s =>
              if flushable current_text current_speaker
              then lines ++ [speaker_line s current_text; EmptyString]
              else lines
          | None => lines
          end in
        align_loop r speaker_segments lines' (Some speaker) [srt_text seg]
      else
        align_loop r speaker_segments lines current_speaker
                   (current_text ++ [srt_text seg])
  end.

Definition newline : string := String (ascii_of_nat 10) EmptyString.

Definition align_transcript (srt_segments : list srt_seg)
    (speaker_segments : list speaker_seg) : string :=
  match srt_segments with
  | [] => EmptyString
  | _ :: _ =>
      let '(lines, current_speaker, current_text) :=
        align_loop srt_segments speaker_segments [] None [] in
      let lines' :=
        match current_speaker with
        | Some s =>
            if flushable current_text current_speaker
            then lines ++ [speaker_line s current_text]
            else lines
        | None => lines
        end in
      py_join newline lines'
  end.

(** ** [parse_srt] *)

(** [str.isspace] and the class [\s] on code points below 256. *)
Definition is_py_space (c : ascii) : bool :=
  let n := nat_of_ascii c in
  ((9 <=? n) && (n <=? 13)) || ((28 <=? n) && (n <=? 31)) || (n =? 32)
  || (n =? 133) || (n =? 160).

Definition is_newline (c : ascii) : bool := Ascii.eqb c (ascii_of_nat 10).

Fixpoint lstrip (s : string) : string :=
  match s with
  | String c r => if is_py_space c then lstrip r else s
  | EmptyString => s
  end.

Fixpoint rstrip (s : string) : string :=
  match s with
  | EmptyString => EmptyString
  | String c r =>
      match rstrip r with
      | EmptyString => if is_py_space c then EmptyString else String c EmptyString
      | r' => String c r'
      end
  end.

(** [s.strip()] *)
Definition py_strip (s : string) : string := rstrip (lstrip s).

(** Puts a character in front of the first piece. *)
Definition cons_head (c : ascii) (pieces : list string) : list string :=
  match pieces with
  | x :: xs => String c x :: xs
  | [] => [String c EmptyString]
  end.

(** [s.split('\n')] *)
Fixpoint split_lines (s : string) : list string :=
  match s with
  | EmptyString => [EmptyString]
  | String c r =>
      if is_newline c then EmptyString :: split_lines r
      else cons_head c (split_lines r)
  end.

(** [re.split(r'\n\n+', s)]: the pieces between the runs of two or more line
    feeds; [in_separator] holds while such a run is being skipped. *)
Fixpoint split_blank (in_separator : bool) (s : string) : list string :=
  match s with
  | EmptyString => [EmptyString]
  | String c r =>
      if is_newline c then
        if in_separator then split_blank true r
        else
          match r with
          | String c' r' =>
              if is_newline c' then EmptyString :: split_blank true r'
              else cons_head c (split_blank false r)
          | EmptyString => cons_head c (split_blank false r)
          end
      else cons_head c (split_blank false r)
  end.

(** [\d{n}]: exactly [n] decimal digits; the group and what follows it. *)
Fixpoint take_digits (n : nat) (s : string) : option (string * string) :=
  match n with
  | O => Some (EmptyString, s)
  | S n' =>
      match s with
      | String c r =>
          match digit_value c with
          | Some _ =>
              match take_digits n' r with
              | Some (g, rest) => Some (String c g, rest)
              | None => None
              end
          | None => None
          end
      | EmptyString => None
      end
  end.

(** One literal character. *)
Definition expect (c : ascii) (s : string) : option string :=
  match s with
  | String c' r => if Ascii.eqb c' c then Some r else None
  | EmptyString => None
  end.

(** [[,.]] *)
Definition expect_separator (s : string) : option string :=
  match s with
  | String c r =>
      if Ascii.eqb c "," || Ascii.eqb c "." then Some r else None
  | EmptyString => None
  end.

(** [(\d{2}):(\d{2}):(\d{2})[,.](\d{3})]: the four groups and the rest. *)
Definition match_clock (s : string) : option (list string * string) :=
  match take_digits 2 s with
  | Some (h, s1) =>
      match expect ":" s1 with
      | Some s2 =>
          match take_digits 2 s2 with
          | Some (m, s3) =>
              match expect ":" s3 with
              | Some s4 =>
                  match take_digits 2 s4 with
                  | Some (sec, s5) =>
                      match expect_separator s5 with
                      | Some s6 =>
                          match take_digits 3 s6 with
                          | Some (ms, s7) => Some ([h; m; sec; ms], s7)
                          | None => None
                          end
                      | None => None
                      end
                  | None => None
                  end
              | None => None
              end
          | None => None
          end
      | None => None
      end
  | None => None
  end.

(** [-->] *)
Definition expect_arrow (s : string) : option string :=
  match expect "-" s with
  | Some s1 =>
      match expect "-" s1 with
      | Some s2 => expect ">" s2
      | None => None
      end
  | None => None
  end.

(** [re.match] of the timestamp pattern at the start of a line: the eight
    groups, or [None]. *)
Definition match_timestamp (line : string) : option (list string) :=
  match match_clock line with
  | Some (g1, s1) =>
      match expect_arrow (lstrip s1) with
      | Some s2 =>
          match match_clock (lstrip s2) with
          | Some (g2, _) => Some (g1 ++ g2)
          | None => None
          end
      | None => None
      end
  | None => None
  end.

(** The float of a Python [int] (exact below 2^53). *)
Definition float_of_int (z : Z) : float :=
  match z with
  | Zneg p => (- PrimFloat.of_uint63 (Uint63.of_Z (Zpos p)))%float
  | _ => PrimFloat.of_uint63 (Uint63.of_Z z)
  end.

(** [h * 3600 + m * 60 + s + ms / 1000] *)
Definition clock_seconds (h m s ms : Z) : float :=
  (float_of_int (h * 3600 + m * 60 + s) + float_of_int ms / 1000)%float.

(** The body of the loop for one entry: [None] where it [continue]s. *)
Definition parse_entry (entry : string) : result (option srt_seg) :=
  let lines := split_lines (py_strip entry) in
  if Nat.ltb (List.length lines) 3 then Ok None
  else
    match match_timestamp (nth 1 lines EmptyString) with
    | None => Ok None
    | Some groups =>
        ints <- mapM py_int groups ;;
        match ints with
        | [h1; m1; s1; ms1; h2; m2; s2; ms2] =>
            Ok (Some (mkSrtSeg (clock_seconds h1 m1 s1 ms1)
                               (clock_seconds h2 m2 s2 ms2)
                               (py_join " " (skipn 2 lines))))
        | _ => Err ValueError
        end
    end.

Fixpoint parse_entries (entries : list string) : result (list srt_seg) :=
  match entries with
  | [] => Ok []
  | entry :: r =>
      o <- parse_entry entry ;;
      rest <- parse_entries r ;;
      Ok (match o with Some seg => seg :: rest | None => rest end)
  end.

(** [content] is what [f.read()] returns. *)
Definition parse_srt (content : string) : result (list srt_seg) :=
  parse_entries (split_blank false (py_strip content)).

(** A digit as a character, and zero-padded numbers of two and three digits. *)
Definition digit_char (d : nat) : ascii := ascii_of_nat (48 + d).

Definition two_digits (n : nat) : string :=
  String (digit_char (n / 10)) (String (digit_char (n mod 10)) EmptyString).

Definition three_digits (n : nat) : string :=
  String (digit_char (n / 100)) (two_digits (n mod 100)).

(** [HH:MM:SS] then the separator [sep] then [mmm]. *)
Definition clock_text (h m s ms : nat) (sep : ascii) : string :=
  (two_digits h ++ ":" ++ two_digits m ++ ":" ++ two_digits s
   ++ String sep (three_digits ms))%string.

Fixpoint all_py_spaces (s : string) : bool :=
  match s with
  | String c r => is_py_space c && all_py_spaces r
  | EmptyString => true
  end.

Fixpoint has_newline (s : string) : bool :=
  match s with
  | String c r => is_newline c || has_newline r
  | EmptyString => false
  end.

(** ** Notions for the alignment *)

(** Segment [k] is a candidate below the bar [bar]: its midpoint lies at a
    distance [d < bar] from [time]. *)
Definition near_candidate (speaker_segments : list speaker_seg) (time bar : float)
    (k : nat) (seg : speaker_seg) (d : float) : Prop :=
  nth_error speaker_segments k = Some seg /\
  d = mid_distance seg time /\
  PrimFloat.ltb d bar = true.

(** The first candidate of least distance. *)
Definition nearest_candidate (speaker_segments : list speaker_seg)
    (time bar : float) (k : nat) (seg : speaker_seg) (d : float) : Prop :=
  near_candidate speaker_segments time bar k seg d /\
  forall j seg' d', near_candidate speaker_segments time bar j seg' d' ->
                    PrimFloat.leb d d' = true /\
                    (j < k -> PrimFloat.ltb d d' = true).

(** The speaker and the text of every transcript entry. *)
Definition labelled (srt_segments : list srt_seg)
    (speaker_segments : list speaker_seg) : list (string * string) :=
  map (fun seg =>
         (find_speaker_at_time speaker_segments
                               ((srt_start seg + srt_end seg) / 2)%float,
          srt_text seg)) srt_segments.

(** The maximal runs of entries with one speaker, each with its texts. *)
Fixpoint runs (l : list (string * string)) : list (string * list string) :=
  match l with
  | [] => []
  | (s, t) :: r =>
      match runs r with
      | (s', ts) :: rs =>
          if String.eqb s s' then (s, t :: ts) :: rs
          else (s, [t]) :: (s', ts) :: rs
      | [] => [(s, [t])]
      end
  end.

(** The lines for a list of runs: one paragraph per run with a non-empty
    speaker name, an empty line after each but the last run's. *)
Fixpoint paragraphs (rs : list (string * list string)) : list string :=
  match rs with
  | [] => []
  | [(s, ts)] => if truthy s then [speaker_line s ts] else []
  | (s, ts) :: rest =>
      (if truthy s then [speaker_line s ts; EmptyString] else [])
      ++ paragraphs rest
  end.

(** Putting a run in front of a list of runs. *)
Definition merge_run (run : string * list string)
    (rs : list (string * list string)) : list (string * list string) :=
  match rs with
  | (s', ts') :: rest =>
      if String.eqb (fst run) s' then (fst run, snd run ++ ts') :: rest
      else run :: rs
  | [] => [run]
  end.

(** ** Inputs and notions of the further properties *)

(** Two local speakers with the same centroid, unlike the registry's. *)
Definition twin_chunk : Dict.t embedding :=
  [ ("a"%string, [0%float; 1%float]); ("b"%string, [0%float; 1%float]) ].

(** Speaker "A" holds 0..10 and speaker "B" 4..6.5: at time 5.5 both cover,
    and "B"'s midpoint is the nearer one. *)
Definition overlapping_timeline : list speaker_seg :=
  [ mkSpeakerSeg "A" 0 10; mkSpeakerSeg "B" 4 6.5 ].

(** Two segments whose midpoints, 1 and 9, are equally far from time 5. *)
Definition gap_timeline : list speaker_seg :=
  [ mkSpeakerSeg "A" 0 2; mkSpeakerSeg "B" 8 10 ].

(** What [align_transcript] joins: [lines] after the final flush. *)
Definition flushed (st : list string * option string * list string) : list string :=
  let '(lines, current_speaker, current_text) := st in
  match current_speaker with
  | Some s =>
      if flushable current_text current_speaker
      then lines ++ [speaker_line s current_text]
      else lines
  | None => lines
  end.

(** A timeline of two speakers and a transcript of three entries. *)
Definition two_speaker_timeline : list speaker_seg :=
  [ mkSpeakerSeg "1" 0 10; mkSpeakerSeg "2" 10 20 ].

Definition three_entries : list srt_seg :=
  [ mkSrtSeg 0 2 "Hello"; mkSrtSeg 2 4 "there."; mkSrtSeg 12 14 "Hi." ].

(** An SRT text: two entries around a block that is none. *)
Definition srt_sample : string :=
  ("1" ++ newline ++ "00:00:01,500 --> 00:00:04.000" ++ newline
   ++ "Hello" ++ newline ++ "there." ++ newline ++ newline ++ newline
   ++ "not an entry" ++ newline ++ newline
   ++ "2" ++ newline ++ "00:01:00,000-->01:00:00,250 X" ++ newline ++ "Hi."
   ++ newline)%string.

(** The timestamp line: two clock readings around an arrow. *)
Definition timestamp_line (h1 m1 s1 ms1 : nat) (sep1 : ascii) (ws1 ws2 : string)
    (h2 m2 s2 ms2 : nat) (sep2 : ascii) (rest : string) : string :=
  (clock_text h1 m1 s1 ms1 sep1 ++ ws1 ++ "-->" ++ ws2
   ++ clock_text h2 m2 s2 ms2 sep2 ++ rest)%string.

(** One entry with a text of two lines. *)
Definition sample_entry : string :=
  ("7" ++ newline ++ "01:02:03.250  --> 01:02:05,000 align:start" ++ newline
   ++ "So," ++ newline ++ "hello.")%string.

(** * Properties *)

(** ** Order on binary64 numbers *)

Module FloatOrder.

Import SpecFloat FloatRank.

Lemma SFcompare_rank x y :
  nan_sf x = false -> nan_sf y = false ->
  exists c, SFcompare x y = Some c /\
    match c with
    | Lt => lt3 (rank x) (rank y)
    | Eq => eq3 (rank x) (rank y)
    | Gt => lt3 (rank y) (rank x)
    end.
Proof.
  destruct x as [sx|sx| |sx mx ex], y as [sy|sy| |sy my ey];
    simpl; try discriminate; intros _ _;
    try (destruct sx); try (destruct sy);
    try (eexists; split; [reflexivity|simpl; lia]).
  - destruct (Z.compare_spec ex ey); [|eexists; split; [reflexivity|simpl; lia]..].
    change (Pos.compare_cont Eq mx my) with (Pos.compare mx my).
    destruct (Pos.compare_spec mx my);
      eexists; (split; [reflexivity|simpl; lia]).
  - destruct (Z.compare_spec ex ey); [|eexists; split; [reflexivity|simpl; lia]..].
    change (Pos.compare_cont Eq mx my) with (Pos.compare mx my).
    destruct (Pos.compare_spec mx my);
      eexists; (split; [reflexivity|simpl; lia]).
Qed.

Lemma SFcompare_nan x y :
  nan_sf x = true \/ nan_sf y = true -> SFcompare x y = None.
Proof.
  destruct x, y; simpl; intros [H|H]; try discriminate; reflexivity.
Qed.

Lemma is_nan_spec a : is_nan a = nan_sf (Prim2SF a).
Proof.
  unfold is_nan. rewrite FloatAxioms.eqb_spec. unfold SFeqb.
  destruct (nan_sf (Prim2SF a)) eqn:E.
  - rewrite SFcompare_nan by auto. reflexivity.
  - destruct (SFcompare_rank _ _ E E) as (c & -> & Hc).
    destruct c; try reflexivity; exfalso;
      destruct (rank (Prim2SF a)) as [[? ?] ?]; simpl in Hc; lia.
Qed.

Lemma ltb_iff a b :
  PrimFloat.ltb a b = true <->
  is_nan a = false /\ is_nan b = false /\ lt3 (frank a) (frank b).
Proof.
  rewrite FloatAxioms.ltb_spec, !is_nan_spec. unfold SFltb, frank.
  destruct (nan_sf (Prim2SF a)) eqn:Ea.
  { rewrite SFcompare_nan by auto. split; [discriminate|intros [? _]; discriminate]. }
  destruct (nan_sf (Prim2SF b)) eqn:Eb.
  { rewrite SFcompare_nan by auto. split; [discriminate|intros (_ & ? & _); discriminate]. }
  destruct (SFcompare_rank _ _ Ea Eb) as (c & -> & Hc).
  destruct (rank (Prim2SF a)) as [[? ?] ?], (rank (Prim2SF b)) as [[? ?] ?].
  destruct c; simpl in *; split; intros; try discriminate; try tauto; try lia;
    exfalso; lia.
Qed.

Lemma leb_iff a b :
  PrimFloat.leb a b = true <->
  is_nan a = false /\ is_nan b = false /\
  (lt3 (frank a) (frank b) \/ eq3 (frank a) (frank b)).
Proof.
  rewrite FloatAxioms.leb_spec, !is_nan_spec. unfold SFleb, frank.
  destruct (nan_sf (Prim2SF a)) eqn:Ea.
  { rewrite SFcompare_nan by auto. split; [discriminate|intros [? _]; discriminate]. }
  destruct (nan_sf (Prim2SF b)) eqn:Eb.
  { rewrite SFcompare_nan by auto. split; [discriminate|intros (_ & ? & _); discriminate]. }
  destruct (SFcompare_rank _ _ Ea Eb) as (c & -> & Hc).
  destruct (rank (Prim2SF a)) as [[? ?] ?], (rank (Prim2SF b)) as [[? ?] ?].
  destruct c; simpl in *; split; intros; try discriminate; try tauto; try lia;
    exfalso; lia.
Qed.

Lemma eqb_iff a b :
  PrimFloat.eqb a b = true <->
  is_nan a = false /\ is_nan b = false /\ eq3 (frank a) (frank b).
Proof.
  rewrite FloatAxioms.eqb_spec, !is_nan_spec. unfold SFeqb, frank.
  destruct (nan_sf (Prim2SF a)) eqn:Ea.
  { rewrite SFcompare_nan by auto. split; [discriminate|intros [? _]; discriminate]. }
  destruct (nan_sf (Prim2SF b)) eqn:Eb.
  { rewrite SFcompare_nan by auto. split; [discriminate|intros (_ & ? & _); discriminate]. }
  destruct (SFcompare_rank _ _ Ea Eb) as (c & -> & Hc).
  destruct (rank (Prim2SF a)) as [[? ?] ?], (rank (Prim2SF b)) as [[? ?] ?].
  destruct c; simpl in *; split; intros; try discriminate; try tauto; try lia;
    exfalso; lia.
Qed.

(** Turns float comparisons in the context and the goal into linear
    arithmetic on ranks. *)
Ltac float_order :=
  repeat match goal with
  | H : PrimFloat.ltb _ _ = true |- _ => apply ltb_iff in H
  | H : PrimFloat.leb _ _ = true |- _ => apply leb_iff in H
  | H : PrimFloat.eqb _ _ = true |- _ => apply eqb_iff in H
  | H : PrimFloat.ltb ?a ?b = false |- _ =>
      let K := fresh in
      assert (K : ~ (is_nan a = false /\ is_nan b = false /\ lt3 (frank a) (frank b)))
        by (rewrite <- ltb_iff, H; discriminate);
      clear H
  | H : PrimFloat.leb ?a ?b = false |- _ =>
      let K := fresh in
      assert (K : ~ (is_nan a = false /\ is_nan b = false /\
                     (lt3 (frank a) (frank b) \/ eq3 (frank a) (frank b))))
        by (rewrite <- leb_iff, H; discriminate);
      clear H
  | |- PrimFloat.ltb _ _ = true => apply ltb_iff
  | |- PrimFloat.leb _ _ = true => apply leb_iff
  | |- PrimFloat.eqb _ _ = true => apply eqb_iff
  | |- PrimFloat.ltb ?a ?b = false =>
      destruct (PrimFloat.ltb a b) eqn:?; [exfalso|reflexivity]
  | |- PrimFloat.leb ?a ?b = false =>
      destruct (PrimFloat.leb a b) eqn:?; [exfalso|reflexivity]
  end;
  unfold lt3, eq3 in *;
  repeat match goal with
  | |- context [frank ?a] =>
      let x := fresh "r" in let y := fresh "r" in let z := fresh "r" in
      destruct (frank a) as [[x y] z]
  | H : context [frank ?a] |- _ =>
      let x := fresh "r" in let y := fresh "r" in let z := fresh "r" in
      destruct (frank a) as [[x y] z]
  end;
  repeat match goal with
  | |- context [is_nan ?a] => destruct (is_nan a)
  | H : context [is_nan ?a] |- _ => destruct (is_nan a)
  end;
  try tauto; try (intuition (try discriminate; try lia)).

Lemma ltb_trans a b c :
  PrimFloat.ltb a b = true -> PrimFloat.ltb b c = true -> PrimFloat.ltb a c = true.
Proof. intros. float_order. Qed.

Lemma ltb_asym a b : PrimFloat.ltb a b = true -> PrimFloat.ltb b a = false.
Proof. intros. float_order. Qed.

Lemma ltb_leb a b : PrimFloat.ltb a b = true -> PrimFloat.leb a b = true.
Proof. intros. float_order. Qed.

Lemma ltb_not_nan a b :
  PrimFloat.ltb a b = true -> is_nan a = false /\ is_nan b = false.
Proof. intros. float_order. Qed.

Lemma not_ltb_leb a b :
  is_nan a = false -> is_nan b = false ->
  PrimFloat.ltb a b = false -> PrimFloat.leb b a = true.
Proof. intros Ha Hb H. float_order. Qed.

Lemma leb_ltb_trans a b c :
  PrimFloat.leb a b = true -> PrimFloat.ltb b c = true -> PrimFloat.ltb a c = true.
Proof. intros. float_order. Qed.

Lemma ltb_leb_trans a b c :
  PrimFloat.ltb a b = true -> PrimFloat.leb b c = true -> PrimFloat.ltb a c = true.
Proof. intros. float_order. Qed.

Lemma leb_trans a b c :
  PrimFloat.leb a b = true -> PrimFloat.leb b c = true -> PrimFloat.leb a c = true.
Proof. intros. float_order. Qed.

Lemma leb_refl a : is_nan a = false -> PrimFloat.leb a a = true.
Proof. intros. float_order. Qed.

Lemma eqb_not_ltb a b : PrimFloat.eqb a b = true -> PrimFloat.ltb a b = false.
Proof. intros. float_order. Qed.

End FloatOrder.

(** ** Sorting by start time *)

Lemma eqb_refl_not_nan a : is_nan a = false -> PrimFloat.eqb a a = true.
Proof. unfold is_nan. now destruct (PrimFloat.eqb a a). Qed.

Lemma leb_antisym a b :
  PrimFloat.leb a b = true -> PrimFloat.leb b a = true -> PrimFloat.eqb a b = true.
Proof. intros. FloatOrder.float_order. Qed.

Lemma eqb_congr a b t :
  PrimFloat.eqb a b = true -> PrimFloat.eqb a t = PrimFloat.eqb b t.
Proof.
  intros H.
  destruct (PrimFloat.eqb a t) eqn:Ea, (PrimFloat.eqb b t) eqn:Eb; try reflexivity.
  - assert (K : PrimFloat.eqb b t = true) by FloatOrder.float_order. congruence.
  - assert (K : PrimFloat.eqb a t = true) by FloatOrder.float_order. congruence.
Qed.

Lemma insert_by_start_perm x l : Permutation (x :: l) (insert_by_start x l).
Proof.
  induction l as [|y r IH]; simpl; [reflexivity|].
  destruct (PrimFloat.ltb (startTimeSeconds y) (startTimeSeconds x)).
  - rewrite perm_swap. now constructor.
  - reflexivity.
Qed.

Lemma sort_by_start_perm l : Permutation l (sort_by_start l).
Proof.
  induction l as [|x r IH]; simpl; [constructor|].
  rewrite <- insert_by_start_perm. now constructor.
Qed.

Lemma insert_by_start_sorted x l :
  is_nan (startTimeSeconds x) = false ->
  no_nan_starts l ->
  StronglySorted start_leb l -> StronglySorted start_leb (insert_by_start x l).
Proof.
  intros Hx Hl Hs. induction Hs as [|y r Hs IH Hy]; simpl.
  - repeat constructor.
  - inversion Hl as [|? ? Hny Hr]; subst.
    destruct (PrimFloat.ltb (startTimeSeconds y) (startTimeSeconds x)) eqn:E.
    + constructor; [auto|].
      apply (Permutation_Forall (insert_by_start_perm x r)).
      constructor; [|assumption].
      unfold start_leb. now apply FloatOrder.ltb_leb.
    + assert (Hxy : start_leb x y).
      { unfold start_leb. now apply FloatOrder.not_ltb_leb. }
      constructor; [constructor; assumption|].
      constructor; [assumption|].
      eapply Forall_impl; [|exact Hy].
      intros z Hz. unfold start_leb in *. eapply FloatOrder.leb_trans; eassumption.
Qed.

Lemma sort_by_start_sorted l :
  no_nan_starts l -> StronglySorted start_leb (sort_by_start l).
Proof.
  induction 1 as [|x r Hx Hr IH]; simpl; [constructor|].
  apply insert_by_start_sorted; [assumption| |assumption].
  apply (Permutation_Forall (sort_by_start_perm r)). assumption.
Qed.

Lemma insert_by_start_stable t x l :
  starting_at t (insert_by_start x l) = starting_at t (x :: l).
Proof.
  unfold starting_at. induction l as [|y r IH]; [reflexivity|].
  simpl in *.
  destruct (PrimFloat.ltb (startTimeSeconds y) (startTimeSeconds x)) eqn:E;
    [|reflexivity].
  simpl. rewrite IH.
  destruct (PrimFloat.eqb (startTimeSeconds x) t) eqn:Ex;
    destruct (PrimFloat.eqb (startTimeSeconds y) t) eqn:Ey; try reflexivity.
  exfalso. FloatOrder.float_order.
Qed.

Lemma sort_by_start_stable t l :
  starting_at t (sort_by_start l) = starting_at t l.
Proof.
  induction l as [|x r IH]; [reflexivity|]. simpl sort_by_start.
  rewrite insert_by_start_stable. unfold starting_at in *. simpl.
  now rewrite IH.
Qed.

(** The insertion sort from the right meets the contract of [list.sort]. *)
Definition insertion_sort : list_sort :=
  mkListSort sort_by_start sort_by_start_perm sort_by_start_sorted
             (fun l t _ => sort_by_start_stable t l).

Lemma insert_behind_perm x l : Permutation (x :: l) (insert_behind x l).
Proof.
  induction l as [|y r IH]; simpl; [reflexivity|].
  destruct (PrimFloat.ltb (startTimeSeconds x) (startTimeSeconds y)).
  - reflexivity.
  - rewrite perm_swap. now constructor.
Qed.

Lemma fold_insert_behind_perm l : forall sorted,
  Permutation (sorted ++ l)
              (fold_left (fun sorted x => insert_behind x sorted) l sorted).
Proof.
  induction l as [|x r IH]; intros sorted; simpl.
  - now rewrite List.app_nil_r.
  - rewrite <- IH. rewrite <- insert_behind_perm.
    now rewrite <- Permutation_middle.
Qed.

Lemma sort_from_left_perm l : Permutation l (sort_from_left l).
Proof. exact (fold_insert_behind_perm l []). Qed.

Lemma insert_behind_sorted x l :
  is_nan (startTimeSeconds x) = false ->
  no_nan_starts l ->
  StronglySorted start_leb l -> StronglySorted start_leb (insert_behind x l).
Proof.
  intros Hx Hl Hs. induction Hs as [|y r Hs IH Hy]; simpl.
  - repeat constructor.
  - inversion Hl as [|? ? Hny Hr]; subst.
    destruct (PrimFloat.ltb (startTimeSeconds x) (startTimeSeconds y)) eqn:E.
    + assert (Hxy : start_leb x y).
      { unfold start_leb. now apply FloatOrder.ltb_leb. }
      constructor; [constructor; assumption|].
      constructor; [assumption|].
      eapply Forall_impl; [|exact Hy].
      intros z Hz. unfold start_leb in *. eapply FloatOrder.leb_trans; eassumption.
    + constructor; [auto|].
      apply (Permutation_Forall (insert_behind_perm x r)).
      constructor; [|assumption].
      unfold start_leb. now apply FloatOrder.not_ltb_leb.
Qed.

(** A segment that starts before all of [l] may as well stand behind them,
    as far as the segments of one start time go. *)
Lemma starting_at_front t x l :
  Forall (fun z => PrimFloat.ltb (startTimeSeconds x) (startTimeSeconds z) = true) l ->
  starting_at t (x :: l) = starting_at t (l ++ [x]).
Proof.
  intros H. unfold starting_at. rewrite filter_app. simpl.
  destruct (PrimFloat.eqb (startTimeSeconds x) t) eqn:Ex;
    [|now rewrite List.app_nil_r].
  replace (filter (fun s => PrimFloat.eqb (startTimeSeconds s) t) l) with (@nil segment);
    [reflexivity|].
  symmetry. induction H as [|z r Hz Hr IH]; [reflexivity|]. simpl.
  destruct (PrimFloat.eqb (startTimeSeconds z) t) eqn:Ez; [|exact IH].
  exfalso. FloatOrder.float_order.
Qed.

Lemma insert_behind_stable t x l :
  StronglySorted start_leb l ->
  starting_at t (insert_behind x l) = starting_at t (l ++ [x]).
Proof.
  intros Hs. induction Hs as [|y r Hs IH Hy]; [reflexivity|]. simpl insert_behind.
  destruct (PrimFloat.ltb (startTimeSeconds x) (startTimeSeconds y)) eqn:E.
  - apply starting_at_front. constructor; [assumption|].
    eapply Forall_impl; [|exact Hy].
    intros z Hz. unfold start_leb in Hz. eapply FloatOrder.ltb_leb_trans; eassumption.
  - unfold starting_at in *. simpl. now rewrite IH.
Qed.

Lemma fold_insert_behind_stable l : forall sorted,
  no_nan_starts sorted -> no_nan_starts l -> StronglySorted start_leb sorted ->
  StronglySorted start_leb (fold_left (fun sorted x => insert_behind x sorted) l sorted)
  /\ forall t,
       starting_at t (fold_left (fun sorted x => insert_behind x sorted) l sorted)
       = starting_at t (sorted ++ l).
Proof.
  induction l as [|x r IH]; intros sorted Hn Hl Hs; simpl.
  - split; [assumption|]. intros t. now rewrite List.app_nil_r.
  - inversion Hl as [|? ? Hx Hr]; subst.
    destruct (IH (insert_behind x sorted)) as [S1 S2].
    + apply (Permutation_Forall (insert_behind_perm x sorted)). now constructor.
    + assumption.
    + now apply insert_behind_sorted.
    + split; [assumption|]. intros t. rewrite S2.
      unfold starting_at. rewrite !filter_app.
      fold (starting_at t (insert_behind x sorted)).
      rewrite insert_behind_stable by assumption.
      unfold starting_at. rewrite filter_app. simpl.
      destruct (PrimFloat.eqb (startTimeSeconds x) t);
        now rewrite <- List.app_assoc.
Qed.

Lemma sort_from_left_sorted l :
  no_nan_starts l -> StronglySorted start_leb (sort_from_left l).
Proof.
  intros H. apply (fold_insert_behind_stable l []); [constructor|assumption|constructor].
Qed.

Lemma sort_from_left_stable l t :
  no_nan_starts l -> starting_at t (sort_from_left l) = starting_at t l.
Proof.
  intros H.
  apply (fold_insert_behind_stable l []); [constructor|assumption|constructor].
Qed.

(** The insertion sort from the left meets the contract as well. *)
Definition left_insertion_sort : list_sort :=
  mkListSort sort_from_left sort_from_left_perm sort_from_left_sorted
             sort_from_left_stable.

Lemma sort_segments_In (sort : list_sort) l seg :
  In seg (sort_segments sort l) <-> In seg l.
Proof.
  split; apply Permutation_in; [symmetry|]; apply sort_permutes.
Qed.

Lemma sort_segments_no_nan (sort : list_sort) l :
  no_nan_starts l -> no_nan_starts (sort_segments sort l).
Proof. apply Permutation_Forall, sort_permutes. Qed.

(** Two ascending lists in which the segments of every start time come in
    the same order are one list: the contract leaves a sort no choice. *)
Lemma stable_order_unique l1 : forall l2,
  no_nan_starts l1 -> no_nan_starts l2 ->
  StronglySorted start_leb l1 -> StronglySorted start_leb l2 ->
  (forall t, starting_at t l1 = starting_at t l2) ->
  l1 = l2.
Proof.
  induction l1 as [|x r1 IH]; intros [|y r2] N1 N2 S1 S2 H.
  - reflexivity.
  - exfalso. inversion N2 as [|? ? Hy _]; subst.
    specialize (H (startTimeSeconds y)). unfold starting_at in H. simpl in H.
    rewrite (eqb_refl_not_nan _ Hy) in H. discriminate.
  - exfalso. inversion N1 as [|? ? Hx _]; subst.
    specialize (H (startTimeSeconds x)). unfold starting_at in H. simpl in H.
    rewrite (eqb_refl_not_nan _ Hx) in H. discriminate.
  - inversion N1 as [|? ? Hx N1']; subst. inversion N2 as [|? ? Hy N2']; subst.
    inversion S1 as [|? ? S1' F1]; subst. inversion S2 as [|? ? S2' F2]; subst.
    assert (Lyx : PrimFloat.leb (startTimeSeconds y) (startTimeSeconds x) = true).
    { assert (Hin : In x (starting_at (startTimeSeconds x) (y :: r2))).
      { rewrite <- H. unfold starting_at. simpl.
        rewrite (eqb_refl_not_nan _ Hx). now left. }
      apply filter_In in Hin. destruct Hin as [[->|Hin] _].
      - now apply FloatOrder.leb_refl.
      - rewrite Forall_forall in F2. exact (F2 x Hin). }
    assert (Lxy : PrimFloat.leb (startTimeSeconds x) (startTimeSeconds y) = true).
    { assert (Hin : In y (starting_at (startTimeSeconds y) (x :: r1))).
      { rewrite H. unfold starting_at. simpl.
        rewrite (eqb_refl_not_nan _ Hy). now left. }
      apply filter_In in Hin. destruct Hin as [[->|Hin] _].
      - now apply FloatOrder.leb_refl.
      - rewrite Forall_forall in F1. exact (F1 y Hin). }
    pose proof (leb_antisym _ _ Lxy Lyx) as Exy.
    assert (Hxy : x = y).
    { specialize (H (startTimeSeconds x)). unfold starting_at in H. simpl in H.
      rewrite <- (eqb_congr _ _ _ Exy), (eqb_refl_not_nan _ Hx) in H.
      now injection H. }
    subst y. f_equal. apply IH; try assumption.
    intros t. specialize (H t). unfold starting_at in *. simpl in H.
    destruct (PrimFloat.eqb (startTimeSeconds x) t); [now injection H|exact H].
Qed.

(** On start times without NaN every sort that meets the contract returns
    the list that the insertion sort returns. *)
Lemma sort_segments_unique (sort : list_sort) l :
  no_nan_starts l -> sort_segments sort l = sort_by_start l.
Proof.
  intros H. apply stable_order_unique.
  - now apply sort_segments_no_nan.
  - apply (Permutation_Forall (sort_by_start_perm l)). exact H.
  - now apply sort_ascends.
  - now apply sort_by_start_sorted.
  - intros t. rewrite sort_keeps_ties by assumption.
    now rewrite sort_by_start_stable.
Qed.

(** ** The error monad *)

Lemma bind_ok {A B} (r : result A) (k : A -> result B) (b : B) :
  bind r k = Ok b -> exists a, r = Ok a /\ k a = Ok b.
Proof. destruct r; simpl; intros H; [eauto|discriminate]. Qed.

Lemma bind_err {A B} (r : result A) (k : A -> result B) e :
  r = Err e -> bind r k = Err e.
Proof. intros ->. reflexivity. Qed.

Ltac inv_bind H :=
  let a := fresh "a" in
  let Ha := fresh "Ha" in
  apply bind_ok in H; destruct H as (a & Ha & H).

(** ** C8: empty chunks *)

(** C8.  A chunk with no segments is skipped: whatever its index, offset and
    duration, and whatever the similarity function, processing it returns the
    loop state unchanged (same registry, same accumulated segments, same
    total duration), so the loop continues as if the chunk had only advanced
    the index. *)
Theorem empty_chunk_is_skipped :
  forall similarity chunk_offsets chunk_size i duration offset st,
    process_chunk similarity chunk_offsets chunk_size i
                  (mkChunk [] duration) offset st = Ok st
    /\ forall files offsets,
        merge_loop similarity chunk_offsets chunk_size i
                   (mkChunk [] duration :: files) (offset :: offsets) st
        = merge_loop similarity chunk_offsets chunk_size (S i) files offsets st.
Proof.
  intros. split; [reflexivity|]. intros. reflexivity.
Qed.

(** ** C1: overlap deduplication *)

Lemma in_previous_chunk_spec i chunk_offsets chunk_size start :
  i < List.length chunk_offsets ->
  in_previous_chunk i chunk_offsets chunk_size start
  = Ok (spec_dropped i chunk_offsets chunk_size start).
Proof.
  intros Hi. unfold in_previous_chunk, previous_offset, spec_dropped.
  destruct i as [|j]; [reflexivity|].
  simpl. rewrite Nat.sub_0_r.
  destruct (nth_error chunk_offsets j) eqn:E; [reflexivity|].
  apply nth_error_None in E. lia.
Qed.

Lemma process_segments_spec i offset chunk_offsets chunk_size speaker_map segs :
  i < List.length chunk_offsets ->
  (forall seg, In seg segs -> Dict.mem (speakerId seg) speaker_map = true) ->
  exists out,
    process_segments i offset chunk_offsets chunk_size speaker_map segs = Ok out /\
    Forall2 (emitted_from offset speaker_map)
      (filter (fun seg => negb (spec_dropped i chunk_offsets chunk_size
                                  (startTimeSeconds seg + offset)%float)) segs)
      out.
Proof.
  intros Hi. induction segs as [|seg r IH]; intros Hm.
  - exists []. split; [reflexivity|constructor].
  - destruct IH as (out & Hout & HF); [intros; apply Hm; now right|].
    simpl process_segments. rewrite in_previous_chunk_spec by assumption.
    simpl bind. simpl filter.
    destruct (spec_dropped i chunk_offsets chunk_size _) eqn:E; simpl negb; cbv iota.
    + exists out. split; assumption.
    + specialize (Hm seg (or_introl eq_refl)). unfold Dict.mem in Hm.
      unfold Dict.lookup.
      destruct (Dict.get (speakerId seg) speaker_map) as [g|] eqn:G; [|discriminate].
      simpl bind. rewrite Hout. simpl.
      eexists. split; [reflexivity|]. constructor; [|assumption].
      unfold emitted_from; simpl. auto.
Qed.

Lemma spec_dropped_iff i chunk_offsets chunk_size start :
  spec_dropped i chunk_offsets chunk_size start = true <->
  0 < i /\ exists prev, nth_error chunk_offsets (i - 1) = Some prev /\
             PrimFloat.ltb start (prev + chunk_size)%float = true.
Proof.
  unfold spec_dropped. destruct i as [|j]; simpl.
  - split; [discriminate|intros [H _]; lia].
  - rewrite Nat.sub_0_r.
    destruct (nth_error chunk_offsets j) as [prev|].
    + split.
      * intros H. split; [lia|]. eauto.
      * intros (_ & p & Hp & Hlt). now injection Hp as <-.
    + split; [discriminate|]. intros (_ & p & Hp & _). discriminate.
Qed.

Lemma spec_dropped_boundary i chunk_offsets chunk_size start prev :
  nth_error chunk_offsets (i - 1) = Some prev ->
  PrimFloat.eqb start (prev + chunk_size)%float = true ->
  spec_dropped i chunk_offsets chunk_size start = false.
Proof.
  intros Hprev Heq. unfold spec_dropped. destruct i as [|j]; [reflexivity|].
  simpl in Hprev. rewrite Nat.sub_0_r in Hprev. rewrite Hprev.
  now apply FloatOrder.eqb_not_ltb.
Qed.

(** The segment loop of chunk [i] emits the segments that the rule keeps, in
    order. *)
Lemma process_segments_kept i offset chunk_offsets chunk_size speaker_map segs :
  i < List.length chunk_offsets ->
  forall out,
    process_segments i offset chunk_offsets chunk_size speaker_map segs = Ok out ->
    Forall2 shifted_copy
      (map (pair offset)
           (filter (fun seg => negb (spec_dropped i chunk_offsets chunk_size
                                       (startTimeSeconds seg + offset)%float)) segs))
      out.
Proof.
  intros Hi. induction segs as [|seg r IH]; intros out H.
  - injection H as <-. constructor.
  - simpl process_segments in H. rewrite in_previous_chunk_spec in H by assumption.
    cbn [bind] in H. cbn [filter].
    destruct (spec_dropped i chunk_offsets chunk_size _) eqn:E; cbn [negb].
    + now apply IH.
    + apply bind_ok in H. destruct H as (sid & Hsid & H).
      apply bind_ok in H. destruct H as (rest & Hrest & H). injection H as <-.
      cbn [map]. constructor; [|now apply IH].
      unfold shifted_copy, stems_from. cbn. auto.
Qed.

Lemma process_chunk_kept similarity chunk_offsets chunk_size i data offset st st' :
  i < List.length chunk_offsets ->
  process_chunk similarity chunk_offsets chunk_size i data offset st = Ok st' ->
  exists out,
    all_segments st' = all_segments st ++ out /\
    Forall2 shifted_copy
      (map (pair offset)
           (filter (fun seg => negb (spec_dropped i chunk_offsets chunk_size
                                       (startTimeSeconds seg + offset)%float))
                   (segments data)))
      out.
Proof.
  intros Hi. unfold process_chunk. destruct (segments data) as [|s0 segs] eqn:Es.
  - intros H. injection H as <-. exists []. rewrite List.app_nil_r.
    split; [reflexivity|constructor].
  - intros H. apply bind_ok in H. destruct H as (cs & Hcs & H).
    apply bind_ok in H. destruct H as ([m g] & Hres & H).
    apply bind_ok in H. destruct H as (out & Hout & H).
    injection H as <-. exists out. split; [reflexivity|].
    eapply process_segments_kept; eassumption.
Qed.

(** The loop over the chunks passes its own index to the rule: what it
    accumulates are the survivors of the chunks, in the order of the chunks. *)
Lemma merge_loop_kept similarity chunk_offsets chunk_size files :
  forall offsets i st st',
    skipn i chunk_offsets = offsets ->
    merge_loop similarity chunk_offsets chunk_size i files offsets st = Ok st' ->
    exists added,
      all_segments st' = all_segments st ++ added /\
      Forall2 shifted_copy
              (survivors chunk_offsets chunk_size i files offsets) added.
Proof.
  induction files as [|data files IH]; intros offsets i st st' Hs H.
  - injection H as <-. exists []. rewrite List.app_nil_r.
    split; [reflexivity|constructor].
  - destruct offsets as [|offset offsets].
    { simpl in H. injection H as <-. exists []. rewrite List.app_nil_r.
      split; [reflexivity|constructor]. }
    assert (Hi : i < List.length chunk_offsets).
    { destruct (Nat.lt_ge_cases i (List.length chunk_offsets)) as [|Hge]; [assumption|].
      rewrite skipn_all2 in Hs by assumption. discriminate. }
    simpl in H. apply bind_ok in H. destruct H as (st1 & H1 & H).
    destruct (process_chunk_kept _ _ _ _ _ _ _ _ Hi H1) as (out & E1 & F1).
    destruct (IH offsets (S i) st1 st') as (added & E2 & F2); [|exact H|].
    { change (S i) with (1 + i). rewrite <- skipn_skipn, Hs. reflexivity. }
    exists (out ++ added). split; [now rewrite E2, E1, List.app_assoc|].
    cbn [survivors]. now apply Forall2_app.
Qed.

(** C1.  Whenever the merge returns a document, its segments are, up to the
    order that the final sort gives them, the copies (shifted by the chunk's
    offset) of exactly those segments that the rule of the specification
    keeps, chunk by chunk with the chunk's own index [i]: a segment of chunk
    [i] is dropped iff [i > 0] and its adjusted start is strictly below
    [chunk_offsets[i-1] + chunk_size].  A segment whose adjusted start equals
    that boundary is kept, and the [overlap] argument does not change the
    merged document. *)
Theorem overlap_dedup_rule :
  forall sort similarity chunk_files chunk_offsets chunk_size overlap mtime m,
    merge_chunks_with sort similarity chunk_files chunk_offsets chunk_size
                      overlap mtime = Ok m ->
    (exists accumulated,
       Permutation accumulated (merged_segments m) /\
       Forall2 shifted_copy
               (survivors chunk_offsets chunk_size 0 chunk_files chunk_offsets)
               accumulated)
    /\ (forall i start,
         spec_dropped i chunk_offsets chunk_size start = true <->
         0 < i /\ exists prev, nth_error chunk_offsets (i - 1) = Some prev /\
                    PrimFloat.ltb start (prev + chunk_size)%float = true)
    /\ (forall i start prev,
         nth_error chunk_offsets (i - 1) = Some prev ->
         PrimFloat.eqb start (prev + chunk_size)%float = true ->
         spec_dropped i chunk_offsets chunk_size start = false)
    /\ (forall overlap',
         merge_chunks_with sort similarity chunk_files chunk_offsets chunk_size
                           overlap' mtime = Ok m).
Proof.
  intros sort similarity files offs csz overlap mtime m H.
  split; [|split; [|split]].
  - unfold merge_chunks_with in H. apply bind_ok in H. destruct H as (st & Hst & H).
    injection H as <-. cbn [merged_segments].
    destruct (merge_loop_kept _ _ _ _ _ _ _ _ eq_refl Hst) as (added & E & F).
    simpl in E. subst added. exists (all_segments st).
    split; [apply sort_permutes|exact F].
  - intros i start. apply spec_dropped_iff.
  - intros i start prev. apply spec_dropped_boundary.
  - intros overlap'. exact H.
Qed.

Lemma overlap_dedup_rule_witness :
  exists m,
    merge_chunks_with insertion_sort cosine_similarity overlap_run
                      [0%float; 10%float] 10 30 0 = Ok m /\
    map startTimeSeconds (merged_segments m) = [0%float; 10%float; 19%float] /\
    map snd (survivors [0%float; 10%float] 10 0 overlap_run [0%float; 10%float])
    = [ one_segment "1"; mkSegment 9 9.5 "1" 1 [1%float];
        mkSegment 0 1 "1" 1 [1%float] ] /\
    exists accumulated,
      Permutation accumulated (merged_segments m) /\
      Forall2 shifted_copy
              (survivors [0%float; 10%float] 10 0 overlap_run [0%float; 10%float])
              accumulated.
Proof.
  eexists. split; [reflexivity|]. split; [reflexivity|]. split; [reflexivity|].
  exact (proj1 (overlap_dedup_rule insertion_sort cosine_similarity overlap_run
                  [0%float; 10%float] 10 30 0 _ eq_refl)).
Defined.

Example scenario_adjusted_starts :
  process_segments 1 10 [0%float; 10%float] 10 scenario_map scenario_segments
  = Ok [ mkSegment 19 19.5 "1" 1 [1%float]; mkSegment 10 11 "1" 1 [1%float] ].
Proof. reflexivity. Qed.

(** ** Where the accumulated segments come from *)

Lemma process_segments_stems i offset chunk_offsets chunk_size m segs : forall out,
  process_segments i offset chunk_offsets chunk_size m segs = Ok out ->
  List.length out <= List.length segs /\
  forall o, In o out -> exists seg, In seg segs /\ stems_from offset seg o.
Proof.
  induction segs as [|seg r IH]; intros out H; simpl in H.
  - injection H as <-. split; [apply le_n|intros ? []].
  - inv_bind H. destruct a.
    + destruct (IH _ H) as [Hl Hs]. split; [simpl; lia|].
      intros o Ho. destruct (Hs o Ho) as (s & Hin & Hst).
      exists s. split; [now right|assumption].
    + apply bind_ok in H. destruct H as (sid & Hsid & H).
      apply bind_ok in H. destruct H as (rest & Hrest & H). injection H as <-.
      destruct (IH _ Hrest) as [Hl Hs]. split; [simpl; lia|].
      intros o [<-|Ho].
      * exists seg. split; [now left|]. repeat split.
      * destruct (Hs o Ho) as (s & Hin & Hst).
        exists s. split; [now right|assumption].
Qed.

Lemma process_chunk_stems similarity chunk_offsets chunk_size i data offset st st' :
  process_chunk similarity chunk_offsets chunk_size i data offset st = Ok st' ->
  exists out,
    all_segments st' = all_segments st ++ out /\
    List.length out <= List.length (segments data) /\
    forall o, In o out ->
              exists seg, In seg (segments data) /\ stems_from offset seg o.
Proof.
  unfold process_chunk. destruct (segments data) as [|s0 segs] eqn:Es.
  - intros H. injection H as <-. exists []. rewrite List.app_nil_r.
    split; [reflexivity|]. split; [apply le_n|intros ? []].
  - intros H. apply bind_ok in H. destruct H as (cs & Hcs & H).
    apply bind_ok in H. destruct H as ([m g] & Hres & H).
    apply bind_ok in H. destruct H as (out & Hout & H).
    injection H as <-. exists out. split; [reflexivity|].
    eapply process_segments_stems; eassumption.
Qed.

Lemma merge_loop_stems similarity chunk_offsets chunk_size files :
  forall offsets i st st',
    merge_loop similarity chunk_offsets chunk_size i files offsets st = Ok st' ->
    exists added,
      all_segments st' = all_segments st ++ added /\
      List.length added
      <= List.length (flat_map segments (firstn (List.length offsets) files)) /\
      forall o, In o added ->
        exists j data offset seg,
          nth_error files j = Some data /\ nth_error offsets j = Some offset /\
          In seg (segments data) /\ stems_from offset seg o.
Proof.
  induction files as [|data files IH]; intros offsets i st st' H.
  - injection H as <-. exists []. rewrite List.app_nil_r.
    split; [reflexivity|]. split; [apply Nat.le_0_l|intros ? []].
  - destruct offsets as [|offset offsets].
    { simpl in H. injection H as <-. exists []. rewrite List.app_nil_r.
      split; [reflexivity|]. split; [apply Nat.le_0_l|intros ? []]. }
    simpl in H. inv_bind H. rename a into st1.
    destruct (process_chunk_stems _ _ _ _ _ _ _ _ Ha) as (out & E1 & L1 & S1).
    destruct (IH _ _ _ _ H) as (added & E2 & L2 & S2).
    exists (out ++ added). split; [now rewrite E2, E1, List.app_assoc|].
    split.
    + cbn [List.length firstn flat_map]. rewrite !length_app. lia.
    + intros o Ho. apply in_app_or in Ho. destruct Ho as [Ho|Ho].
      * destruct (S1 o Ho) as (seg & Hin & Hst).
        exists 0, data, offset, seg.
        split; [reflexivity|]. split; [reflexivity|]. split; assumption.
      * destruct (S2 o Ho) as (j & d & off & seg & Hj & Hoff & Hin & Hst).
        exists (S j), d, off, seg.
        split; [exact Hj|]. split; [exact Hoff|]. split; assumption.
Qed.

Lemma merge_loop_no_nan similarity files offsets chunk_size st :
  merge_loop similarity offsets chunk_size 0 files offsets initial_state = Ok st ->
  (forall j data offset seg,
     nth_error files j = Some data -> nth_error offsets j = Some offset ->
     In seg (segments data) ->
     is_nan (startTimeSeconds seg + offset)%float = false) ->
  no_nan_starts (all_segments st).
Proof.
  intros H Hn.
  destruct (merge_loop_stems _ _ _ _ _ _ _ _ H) as (added & E & _ & S).
  simpl in E. subst added. apply Forall_forall. intros o Ho.
  destruct (S o Ho) as (j & data & offset & seg & Hj & Hoff & Hin & Hst & _).
  rewrite Hst. eapply Hn; eassumption.
Qed.

(** ** C9: determinism *)

(** C9.  The merged output is fixed by the chunk documents, the offsets and
    the chunk size.  Two runs with the same [list.sort] produce the same
    segment sequence (speaker labels included), the same speakerCount and
    the same durationSeconds, or fail with the same exception, also when the
    first file's modification time, which only feeds the [timestamp] field,
    differs between them.  When no adjusted start time is NaN the same holds
    of two runs whose [list.sort] are any two sorts that meet the library's
    contract: the order of the output, ties included, is then settled by the
    input and leaves the sort no choice. *)
Theorem merge_is_deterministic :
  forall sort sort' chunk_files chunk_offsets chunk_size overlap mtime mtime',
    observable (merge_chunks sort chunk_files chunk_offsets chunk_size overlap mtime)
    = observable (merge_chunks sort chunk_files chunk_offsets chunk_size overlap mtime')
    /\ ((forall j data offset seg,
           nth_error chunk_files j = Some data ->
           nth_error chunk_offsets j = Some offset ->
           In seg (segments data) ->
           is_nan (startTimeSeconds seg + offset)%float = false) ->
        observable (merge_chunks sort chunk_files chunk_offsets chunk_size
                                 overlap mtime)
        = observable (merge_chunks sort' chunk_files chunk_offsets chunk_size
                                   overlap mtime')).
Proof.
  intros sort sort' files offs csz overlap mtime mtime'.
  unfold merge_chunks, merge_chunks_with.
  destruct (merge_loop cosine_similarity offs csz 0 files offs initial_state)
    as [st|e] eqn:H; cbn [bind observable merged_segments speakerCount
                          merged_durationSeconds].
  - split; [reflexivity|]. intros Hn.
    pose proof (merge_loop_no_nan _ _ _ _ _ H Hn) as N.
    now rewrite (sort_segments_unique sort _ N), (sort_segments_unique sort' _ N).
  - split; reflexivity.
Qed.

Lemma merge_is_deterministic_witness :
  map speakerId (sort_segments insertion_sort nan_timeline)
  = ["a"%string; "b"%string; "c"%string] /\
  map speakerId (sort_segments left_insertion_sort nan_timeline)
  = ["c"%string; "a"%string; "b"%string] /\
  observable (merge_chunks insertion_sort [chunk_7_3; unsorted_chunk]
                           [0%float; 10%float] 10 30 0)
  = observable (merge_chunks left_insertion_sort [chunk_7_3; unsorted_chunk]
                             [0%float; 10%float] 10 30 1).
Proof.
  split; [reflexivity|]. split; [reflexivity|].
  apply (proj2 (merge_is_deterministic insertion_sort left_insertion_sort
                  [chunk_7_3; unsorted_chunk] [0%float; 10%float] 10 30 0 1)).
  intros [|[|j]] data offset seg Hd Ho Hin; simpl in Hd, Ho;
    [injection Hd as <-; injection Ho as <-| injection Hd as <-; injection Ho as <-
    |destruct j; discriminate];
    simpl in Hin; repeat (destruct Hin as [<-|Hin]; [reflexivity|]); destruct Hin.
Defined.

(** ** C4: cosine similarity *)

Module ZeroNormFacts.

Import SpecFloat ZeroNorm.

Lemma is_zero_zn x : is_zero x = true -> zn x.
Proof.
  unfold is_zero, zn. rewrite FloatAxioms.eqb_spec.
  change (Prim2SF 0) with (S754_zero false).
  destruct (Prim2SF x) as [s|s| |s m e]; simpl; auto;
    destruct s; discriminate.
Qed.

Lemma zn_zero : zn 0.
Proof. exact I. Qed.

Lemma zn_mul_l x y : zn x -> zn (x * y)%float.
Proof.
  unfold zn. rewrite FloatAxioms.mul_spec. unfold SF64mul, SFmul.
  destruct (Prim2SF x), (Prim2SF y); simpl; tauto.
Qed.

Lemma zn_mul_r x y : zn y -> zn (x * y)%float.
Proof.
  unfold zn. rewrite FloatAxioms.mul_spec. unfold SF64mul, SFmul.
  destruct (Prim2SF x), (Prim2SF y); simpl; tauto.
Qed.

Lemma zn_add x y : zn x -> zn y -> zn (x + y)%float.
Proof.
  unfold zn. rewrite FloatAxioms.add_spec. unfold SF64add, SFadd.
  destruct (Prim2SF x) as [[|]|?| |? ? ?], (Prim2SF y) as [[|]|?| |? ? ?];
    simpl; tauto.
Qed.

Lemma zn_sqrt x : zn x -> zn (PrimFloat.sqrt x).
Proof.
  unfold zn. rewrite FloatAxioms.sqrt_spec. unfold SF64sqrt, SFsqrt.
  destruct (Prim2SF x) as [?|[|]| |[|] ? ?]; simpl; tauto.
Qed.

Lemma zn_div_nan x y : zn x -> zn y -> is_nan (x / y)%float = true.
Proof.
  unfold zn. rewrite FloatOrder.is_nan_spec, FloatAxioms.div_spec. unfold SF64div, SFdiv.
  destruct (Prim2SF x), (Prim2SF y); simpl; tauto.
Qed.

End ZeroNormFacts.

Lemma dot_acc_total acc a b :
  List.length a = List.length b -> exists d, dot_acc acc a b = Ok d.
Proof.
  revert acc b. induction a as [|x a IH]; intros acc [|y b] H; simpl in *;
    try discriminate; eauto.
Qed.

Lemma dot_acc_mismatch acc a b :
  List.length a <> List.length b -> dot_acc acc a b = Err ValueError.
Proof.
  revert acc b. induction a as [|x a IH]; intros acc [|y b] H; simpl in *;
    try reflexivity; [congruence|]. apply IH. congruence.
Qed.

Lemma dot_acc_zero acc a b d :
  ZeroNorm.zn acc ->
  forallb ZeroNorm.is_zero a = true \/ forallb ZeroNorm.is_zero b = true ->
  dot_acc acc a b = Ok d -> ZeroNorm.zn d.
Proof.
  revert acc b. induction a as [|x a IH]; intros acc [|y b] Hacc Hz H;
    simpl in *; try discriminate.
  - now injection H as <-.
  - apply (IH (acc + x * y)%float b); [| |exact H].
    + apply ZeroNormFacts.zn_add; [exact Hacc|].
      destruct Hz as [Ha|Hb]; rewrite andb_true_iff in *.
      * apply ZeroNormFacts.zn_mul_l, ZeroNormFacts.is_zero_zn, Ha.
      * apply ZeroNormFacts.zn_mul_r, ZeroNormFacts.is_zero_zn, Hb.
    + destruct Hz as [Ha|Hb]; [left|right];
        rewrite andb_true_iff in *; tauto.
Qed.

Lemma np_norm_zero a : forallb ZeroNorm.is_zero a = true -> ZeroNorm.zn (np_norm a).
Proof.
  intros Ha. unfold np_norm.
  destruct (dot_acc_total 0 a a eq_refl) as [s Hs]. rewrite Hs.
  apply ZeroNormFacts.zn_sqrt.
  apply (dot_acc_zero 0 a a s ZeroNormFacts.zn_zero (or_introl Ha) Hs).
Qed.

(** C4 (amended).  [cosine_similarity] raises [ValueError] exactly when the
    two vectors differ in dimension.  On vectors of equal dimension it never
    raises: it returns the quotient of the dot product by the product of the
    norms as binary64 arithmetic evaluates it, and when either vector
    consists of zeros only (zero norm) that value is NaN. *)
Theorem cosine_similarity_errors :
  forall a b,
    (List.length a <> List.length b -> cosine_similarity a b = Err ValueError) /\
    (List.length a = List.length b ->
       exists d, np_dot a b = Ok d /\
                 cosine_similarity a b = Ok (d / (np_norm a * np_norm b))%float) /\
    (List.length a = List.length b ->
       forallb ZeroNorm.is_zero a = true \/ forallb ZeroNorm.is_zero b = true ->
       exists r, cosine_similarity a b = Ok r /\ is_nan r = true).
Proof.
  intros a b. unfold cosine_similarity, np_dot. repeat split.
  - intros H. apply Nat.eqb_neq in H. now rewrite H.
  - intros H. destruct (dot_acc_total 0 a b H) as [d Hd].
    rewrite H, Nat.eqb_refl, Hd. eauto.
  - intros H Hz. destruct (dot_acc_total 0 a b H) as [d Hd].
    rewrite H, Nat.eqb_refl, Hd. simpl. eexists. split; [reflexivity|].
    apply ZeroNormFacts.zn_div_nan.
    + exact (dot_acc_zero 0 a b d ZeroNormFacts.zn_zero Hz Hd).
    + destruct Hz as [Ha|Hb].
      * apply ZeroNormFacts.zn_mul_l, np_norm_zero, Ha.
      * apply ZeroNormFacts.zn_mul_r, np_norm_zero, Hb.
Qed.

Lemma cosine_similarity_errors_witness :
  List.length [0%float; (-0)%float] = List.length [3%float; 4%float] /\
  (forallb ZeroNorm.is_zero [0%float; (-0)%float] = true \/
   forallb ZeroNorm.is_zero [3%float; 4%float] = true) /\
  exists r, cosine_similarity [0%float; (-0)%float] [3%float; 4%float] = Ok r /\
            is_nan r = true.
Proof.
  split; [reflexivity|]. split; [left; reflexivity|].
  exact (proj2 (proj2 (cosine_similarity_errors [0%float; (-0)%float]
                                                [3%float; 4%float]))
               eq_refl (or_introl eq_refl)).
Defined.

(** C4 as stated fails: on a zero vector the function returns NaN, it does
    not raise. *)
Lemma cosine_similarity_zero_norm_counterexample :
  np_norm [0%float] = 0%float /\
  cosine_similarity [0%float] [1%float] = Ok PrimFloat.nan /\
  is_ok (cosine_similarity [0%float] [1%float]) = true.
Proof. repeat split. Qed.

Example cosine_similarity_orthogonal :
  cosine_similarity [1%float; 0%float] [0%float; 1%float] = Ok 0%float.
Proof. reflexivity. Qed.

Example cosine_similarity_same :
  cosine_similarity [3%float; 4%float] [3%float; 4%float] = Ok 1%float.
Proof. reflexivity. Qed.

Example cosine_similarity_mismatch :
  cosine_similarity [1%float] [1%float; 2%float] = Err ValueError.
Proof. reflexivity. Qed.

(** ** Dictionaries *)

Module DictFacts.

Import Dict.

Lemma get_In {V} k (d : t V) v : get k d = Some v -> In (k, v) d.
Proof.
  induction d as [|[k' v'] r IH]; simpl; [discriminate|].
  destruct (String.eqb_spec k k') as [->|N].
  - intros H. injection H as ->. now left.
  - intros H. right. auto.
Qed.

Lemma mem_keys {V} k (d : t V) : mem k d = true <-> In k (keys d).
Proof.
  unfold mem. induction d as [|[k' v'] r IH]; simpl.
  - split; [discriminate|tauto].
  - destruct (String.eqb_spec k k') as [->|N].
    + split; auto.
    + rewrite IH. split; [auto|]. intros [E|H]; [congruence|assumption].
Qed.

Lemma not_mem_keys {V} k (d : t V) : mem k d = false <-> ~ In k (keys d).
Proof.
  rewrite <- mem_keys. destruct (mem k d); split; congruence.
Qed.

Lemma In_get {V} k v (d : t V) :
  NoDup (keys d) -> In (k, v) d -> get k d = Some v.
Proof.
  induction d as [|[k' v'] r IH]; simpl; [tauto|].
  intros ND [E|H].
  - injection E as -> ->. now rewrite String.eqb_refl.
  - inversion ND as [|? ? Hn ND']; subst.
    destruct (String.eqb_spec k k') as [->|N]; [|auto].
    exfalso. apply Hn. change k' with (fst (k', v)). now apply in_map.
Qed.

Lemma set_new {V} k (v : V) d : mem k d = false -> set k v d = d ++ [(k, v)].
Proof.
  unfold mem. induction d as [|[k' v'] r IH]; simpl; [reflexivity|].
  destruct (String.eqb k k'); [discriminate|]. intros H. now rewrite IH.
Qed.

Lemma keys_set_old {V} k (v : V) d : mem k d = true -> keys (set k v d) = keys d.
Proof.
  unfold mem. induction d as [|[k' v'] r IH]; simpl; [discriminate|].
  destruct (String.eqb k k'); [reflexivity|]. intros H. simpl. now rewrite IH.
Qed.

Lemma keys_app {V} (d d' : t V) : keys (d ++ d') = keys d ++ keys d'.
Proof. apply map_app. Qed.

Lemma get_app {V} k (d d' : t V) :
  get k (d ++ d') = match get k d with Some v => Some v | None => get k d' end.
Proof.
  induction d as [|[k' v'] r IH]; simpl; [reflexivity|].
  destruct (String.eqb k k'); auto.
Qed.

Lemma get_set_same {V} k (v : V) d : get k (set k v d) = Some v.
Proof.
  induction d as [|[k' v'] r IH]; simpl.
  - now rewrite String.eqb_refl.
  - destruct (String.eqb k k') eqn:E; simpl; rewrite E; auto.
Qed.

Lemma get_set_other {V} k k' (v : V) d : k <> k' -> get k' (set k v d) = get k' d.
Proof.
  intros N. induction d as [|[k1 v1] r IH]; simpl.
  - destruct (String.eqb_spec k' k); [congruence|reflexivity].
  - destruct (String.eqb_spec k k1) as [->|N1]; simpl.
    + destruct (String.eqb_spec k' k1); [congruence|reflexivity].
    + now rewrite IH.
Qed.

Lemma get_keys_none {V} k (d : t V) : ~ In k (keys d) -> get k d = None.
Proof.
  intros H. apply not_mem_keys in H. unfold mem in H.
  destruct (get k d); [discriminate|reflexivity].
Qed.

End DictFacts.

(** ** Decimal identifiers *)

Module IntStr.

Lemma of_uint_acc_value d : forall acc,
  Zpos (Pos.of_uint_acc d acc) = value_acc (Zpos acc) d.
Proof.
  induction d; intros acc; cbn [Pos.of_uint_acc value_acc]; try reflexivity;
    rewrite IHd; f_equal; rewrite ?Pos2Z.inj_add, Pos2Z.inj_mul; lia.
Qed.

Lemma of_uint_value d : Z.of_uint d = value_acc 0 d.
Proof.
  unfold Z.of_uint. induction d; simpl; try reflexivity; try assumption;
    rewrite of_uint_acc_value; reflexivity.
Qed.

Lemma scan_digits_uint d : forall acc,
  scan_digits acc (NilEmpty.string_of_uint d) = (value_acc acc d, EmptyString).
Proof.
  induction d; intros acc; simpl; try reflexivity; apply IHd.
Qed.

Lemma py_int_uint d :
  d <> Decimal.Nil ->
  py_int (NilEmpty.string_of_uint d) = Ok (Z.of_uint d) /\
  py_int (String "-" (NilEmpty.string_of_uint d)) = Ok (- Z.of_uint d)%Z.
Proof.
  intros Hd. rewrite of_uint_value.
  destruct d; try congruence; unfold py_int; simpl;
    rewrite scan_digits_uint; simpl; split; reflexivity.
Qed.

(** [int(str(n)) == n]. *)
Lemma of_uint_to_uint p : Z.of_uint (Pos.to_uint p) = Zpos p.
Proof. unfold Z.of_uint. now rewrite DecimalPos.Unsigned.of_to. Qed.

Lemma string_of_to_uint p :
  NilZero.string_of_uint (Pos.to_uint p) = NilEmpty.string_of_uint (Pos.to_uint p).
Proof.
  pose proof (DecimalPos.Unsigned.to_uint_nonnil p) as H.
  destruct (Pos.to_uint p); [congruence|reflexivity..].
Qed.

Lemma py_int_py_str n : py_int (py_str n) = Ok n.
Proof.
  unfold py_str.
  destruct n as [|p|p]; cbn [Z.to_int NilZero.string_of_int].
  - reflexivity.
  - rewrite string_of_to_uint, <- (of_uint_to_uint p) at 1.
    apply py_int_uint, DecimalPos.Unsigned.to_uint_nonnil.
  - rewrite string_of_to_uint.
    change (Zneg p) with (- Zpos p)%Z. rewrite <- (of_uint_to_uint p).
    apply (py_int_uint (Pos.to_uint p)), DecimalPos.Unsigned.to_uint_nonnil.
Qed.

Lemma py_str_inj n m : py_str n = py_str m -> n = m.
Proof.
  intros H. apply (f_equal py_int) in H. rewrite !py_int_py_str in H. congruence.
Qed.

Lemma py_int_ok_nonempty s : is_ok (py_int s) = true -> s <> EmptyString.
Proof. intros H ->. discriminate. Qed.

Example py_int_plain : py_int "12" = Ok 12%Z.
Proof. reflexivity. Qed.

Example py_int_padded : py_int " +1_000 " = Ok 1000%Z.
Proof. reflexivity. Qed.

Example py_int_negative : py_int "-03" = Ok (-3)%Z.
Proof. reflexivity. Qed.

Example py_int_name : py_int "Speaker 1" = Err ValueError.
Proof. reflexivity. Qed.

Example py_int_empty : py_int EmptyString = Err ValueError.
Proof. reflexivity. Qed.

Example py_int_double_underscore : py_int "1__0" = Err ValueError.
Proof. reflexivity. Qed.

Example py_str_examples :
  py_str 0 = "0"%string /\ py_str 42 = "42"%string /\ py_str (-7) = "-7"%string.
Proof. repeat split. Qed.

End IntStr.

(** ** Centroids *)

Lemma mapM_ok {A B} (f : A -> result B) l out :
  mapM f l = Ok out -> Forall2 (fun x y => f x = Ok y) l out.
Proof.
  revert out. induction l as [|x l IH]; simpl; intros out H.
  - injection H as <-. constructor.
  - inv_bind H. inv_bind H. injection H as <-. constructor; auto.
Qed.

Lemma mapM_total {A B} (f : A -> result B) l :
  Forall (fun x => is_ok (f x) = true) l -> exists out, mapM f l = Ok out.
Proof.
  induction 1 as [|x l Hx _ [out IH]]; simpl; [eauto|].
  destruct (f x); [|discriminate]. simpl. rewrite IH. simpl. eauto.
Qed.

Lemma mapM_err {A B} (f : A -> result B) l x e :
  In x l -> (forall y e', f y = Err e' -> e' = e) -> f x = Err e ->
  mapM f l = Err e.
Proof.
  intros Hin Hall Hx. induction l as [|y l IH]; simpl; [destruct Hin|].
  destruct (f y) eqn:E; simpl.
  - destruct Hin as [->|Hin]; [congruence|]. now rewrite IH.
  - f_equal. eauto.
Qed.

Lemma keys_add_embedding d seg :
  Dict.keys (add_embedding d seg)
  = if Dict.mem (speakerId seg) d then Dict.keys d
    else Dict.keys d ++ [speakerId seg].
Proof.
  unfold add_embedding, Dict.mem.
  destruct (Dict.get (speakerId seg) d) eqn:E.
  - apply DictFacts.keys_set_old. unfold Dict.mem. now rewrite E.
  - rewrite DictFacts.set_new by (unfold Dict.mem; now rewrite E).
    rewrite DictFacts.keys_app. reflexivity.
Qed.

Lemma collect_keys segs : forall d,
  NoDup (Dict.keys d) ->
  NoDup (Dict.keys (fold_left add_embedding segs d)) /\
  forall k, In k (Dict.keys (fold_left add_embedding segs d)) <->
            In k (Dict.keys d) \/ exists seg, In seg segs /\ speakerId seg = k.
Proof.
  induction segs as [|seg r IH]; intros d ND; simpl.
  - split; [assumption|]. intros k. split; [auto|].
    intros [H|(s & [] & _)]; assumption.
  - assert (ND' : NoDup (Dict.keys (add_embedding d seg))).
    { rewrite keys_add_embedding.
      destruct (Dict.mem (speakerId seg) d) eqn:E; [assumption|].
      apply DictFacts.not_mem_keys in E.
      apply NoDup_app; [assumption|repeat constructor; simpl; tauto|].
      intros x Hx [<-|[]]. contradiction. }
    destruct (IH _ ND') as [H1 H2]. split; [assumption|].
    intros k. rewrite H2, keys_add_embedding.
    destruct (Dict.mem (speakerId seg) d) eqn:E.
    + apply DictFacts.mem_keys in E. split.
      * intros [H|(s & Hs & <-)]; eauto.
      * intros [H|(s & [<-|Hs] & <-)]; eauto.
    + rewrite in_app_iff. simpl. split.
      * intros [[H|[<-|[]]]|(s & Hs & <-)]; eauto.
      * intros [H|(s & [<-|Hs] & <-)]; eauto.
Qed.

Lemma centroid_keys segs cs :
  get_speaker_centroids segs = Ok cs ->
  Dict.keys cs = Dict.keys (collect_embeddings segs).
Proof.
  unfold get_speaker_centroids. intros H. apply mapM_ok in H.
  induction H as [|[k es] [k' c] l l' Hx _ IH]; simpl; [reflexivity|].
  f_equal; [|assumption]. inv_bind Hx. now injection Hx as <- _.
Qed.

Lemma centroids_nodup segs cs :
  get_speaker_centroids segs = Ok cs -> NoDup (Dict.keys cs).
Proof.
  intros H. rewrite (centroid_keys _ _ H).
  apply (collect_keys segs Dict.empty). constructor.
Qed.

Lemma centroids_cover segs cs :
  get_speaker_centroids segs = Ok cs ->
  forall k, In k (Dict.keys cs) <-> exists seg, In seg segs /\ speakerId seg = k.
Proof.
  intros H k. rewrite (centroid_keys _ _ H).
  destruct (collect_keys segs Dict.empty (NoDup_nil _)) as [_ H2].
  unfold collect_embeddings. rewrite H2. simpl. tauto.
Qed.

(** ** The mapper *)

Section MapperFacts.

Variable similarity : embedding -> embedding -> result float.

Lemma candidate_cons bar c e ex j g s :
  candidate similarity (e :: ex) bar c (S j) g s
  <-> candidate similarity ex bar c j g s.
Proof. unfold candidate. simpl. tauto. Qed.

Lemma has_candidate_iff ex bar c :
  has_candidate similarity ex bar c = true
  <-> exists k g s, candidate similarity ex bar c k g s.
Proof.
  unfold has_candidate. rewrite existsb_exists. split.
  - intros ([g gc] & Hin & H). simpl in H.
    destruct (similarity c gc) as [s|] eqn:E; [|discriminate].
    apply In_nth_error in Hin. destruct Hin as [k Hk].
    exists k, g, s, gc. auto.
  - intros (k & g & s & gc & Hk & Hs & Hgt).
    exists (g, gc). split; [eapply nth_error_In; eauto|].
    simpl. now rewrite Hs.
Qed.

(** The inner loop started with best match [bm] at similarity [bs]: either
    nothing beats [bs], or the result is the first best candidate above it. *)
Lemma best_match_loop_spec c ex : forall bm bs bm' bs',
  best_match_loop similarity c ex bm bs = Ok (bm', bs') ->
  (bm' = bm /\ bs' = bs /\ forall k g s, ~ candidate similarity ex bs c k g s)
  \/ (exists k g, bm' = Some g /\ best_candidate similarity ex bs c k g bs').
Proof.
  induction ex as [|[g0 c0] r IH]; intros bm bs bm' bs' H; simpl in H.
  - injection H as <- <-. left. repeat split.
    intros k g s (gc & Hk & _). destruct k; discriminate.
  - inv_bind H. rename a into s0.
    destruct (gtb s0 bs) eqn:E0; apply IH in H.
    + right. destruct H as [(-> & -> & Hno)|(k & g & -> & (Hc & Hbest))].
      * exists 0, g0. split; [reflexivity|]. split.
        { exists c0. auto. }
        intros j gj sj Hj. split; [|lia].
        destruct j as [|j].
        -- destruct Hj as (gc & Hk & Hs & Hgt). injection Hk as <- <-.
           assert (sj = s0) by congruence. subst sj.
           unfold gtb in *. FloatOrder.float_order.
        -- apply candidate_cons in Hj.
           destruct Hj as (gc & Hk & Hs & Hgt).
           destruct (gtb sj s0) eqn:E1.
           { exfalso. apply (Hno j gj sj). exists gc. auto. }
           unfold gtb in *. FloatOrder.float_order.
      * exists (S k), g. split; [reflexivity|].
        destruct Hc as (gc & Hk & Hs & Hgt). split.
        { exists gc. repeat split; [assumption..|].
          unfold gtb in *. FloatOrder.float_order. }
        intros j gj sj Hj. destruct j as [|j].
        -- destruct Hj as (gc' & Hk' & Hs' & Hgt'). injection Hk' as <- <-.
           assert (sj = s0) by congruence. subst sj.
           unfold gtb in *. split; [|intros _]; FloatOrder.float_order.
        -- apply candidate_cons in Hj.
           destruct Hj as (gc' & Hk' & Hs' & Hgt').
           destruct (gtb sj s0) eqn:E1.
           { destruct (Hbest j gj sj) as [H1 H2]; [exists gc'; auto|].
             split; [assumption|]. intros Hlt. apply H2. lia. }
           unfold gtb in *. split; [|intros _]; FloatOrder.float_order.
    + destruct H as [(-> & -> & Hno)|(k & g & -> & (Hc & Hbest))].
      * left. repeat split. intros [|k] g s Hk.
        -- destruct Hk as (gc & Hk & Hs & Hgt). injection Hk as <- <-.
           congruence.
        -- apply candidate_cons in Hk. now apply Hno in Hk.
      * right. exists (S k), g. split; [reflexivity|]. split.
        { now apply candidate_cons. }
        intros [|j] gj sj Hj.
        -- destruct Hj as (gc & Hk & Hs & Hgt). injection Hk as <- <-.
           congruence.
        -- apply candidate_cons in Hj. destruct (Hbest j gj sj Hj) as [H1 H2].
           split; [assumption|]. intros Hlt. apply H2. lia.
Qed.

Lemma best_candidate_unique ex bar c k g s k' g' s' :
  best_candidate similarity ex bar c k g s ->
  best_candidate similarity ex bar c k' g' s' ->
  k = k' /\ g = g' /\ s = s'.
Proof.
  intros [Hc Hb] [Hc' Hb'].
  destruct (Hb _ _ _ Hc') as [L1 L2], (Hb' _ _ _ Hc) as [L1' L2'].
  assert (k = k').
  { destruct (Nat.lt_trichotomy k k') as [Hlt|[->|Hlt]]; [|reflexivity|];
      exfalso; [specialize (L2' Hlt)|specialize (L2 Hlt)];
      FloatOrder.float_order. }
  subst k'. destruct Hc as (gc & Hk & Hs & _), Hc' as (gc' & Hk' & Hs' & _).
  rewrite Hk in Hk'. injection Hk' as -> ->. split; [reflexivity|].
  split; congruence.
Qed.

Lemma best_match_loop_total c ex : forall bm bs,
  Forall (fun e => is_ok (similarity c (snd e)) = true) ex ->
  exists r, best_match_loop similarity c ex bm bs = Ok r.
Proof.
  induction ex as [|[g0 c0] r IH]; intros bm bs H; simpl; [eauto|].
  inversion H as [|? ? H0 Hr]; subst. simpl in H0.
  destruct (similarity c c0); [|discriminate]. simpl.
  destruct (gtb a bs); apply IH; assumption.
Qed.

Lemma best_match_loop_ok c ex : forall bm bs r,
  best_match_loop similarity c ex bm bs = Ok r ->
  Forall (fun e => is_ok (similarity c (snd e)) = true) ex.
Proof.
  induction ex as [|[g0 c0] r IH]; intros bm bs res H; simpl in H; [constructor|].
  inv_bind H. constructor; [simpl; now rewrite Ha|].
  destruct (gtb a bs); eapply IH; eassumption.
Qed.

Lemma map_loop_unfold ex thr l c r mapping next_id :
  map_loop similarity ((l, c) :: r) ex thr mapping next_id
  = (o <- choose similarity ex thr c ;;
     match o with
     | Some g => map_loop similarity r ex thr (Dict.set l g mapping) next_id
     | None => map_loop similarity r ex thr (Dict.set l (py_str next_id) mapping)
                        (next_id + 1)%Z
     end).
Proof.
  unfold choose. simpl.
  destruct (best_match_loop similarity c ex None thr) as [[bm bs]|]; reflexivity.
Qed.

Lemma map_loop_spec ex thr new : forall mapping next_id res,
  map_loop similarity new ex thr mapping next_id = Ok res ->
  exists choices,
    mapM (choose similarity ex thr) (map snd new) = Ok choices /\
    res = fold_left (fun m kv => Dict.set (fst kv) (snd kv) m)
                    (combine (Dict.keys new) (assign_ids next_id choices)) mapping.
Proof.
  induction new as [|[l c] r IH]; intros mapping next_id res H.
  - injection H as <-. exists []. split; reflexivity.
  - rewrite map_loop_unfold in H. inv_bind H. rename a into o.
    destruct o as [g|]; apply IH in H; destruct H as (choices & Hc & ->);
      [exists (Some g :: choices)|exists (None :: choices)];
      (split; [simpl; rewrite Ha, Hc; reflexivity|reflexivity]).
Qed.

Lemma map_loop_total ex thr new : forall mapping next_id,
  Forall (fun e => is_ok (choose similarity ex thr (snd e)) = true) new ->
  exists res, map_loop similarity new ex thr mapping next_id = Ok res.
Proof.
  induction new as [|[l c] r IH]; intros mapping next_id H; [simpl; eauto|].
  inversion H as [|? ? H0 Hr]; subst. simpl in H0.
  rewrite map_loop_unfold.
  destruct (choose similarity ex thr c) as [[g|]|]; [| |discriminate];
    simpl; apply IH; assumption.
Qed.

Lemma choose_spec ex thr c o :
  choose similarity ex thr c = Ok o ->
  (forall g, In g (Dict.keys ex) -> g <> EmptyString) ->
  match o with
  | Some g => exists k s, best_candidate similarity ex thr c k g s
  | None => has_candidate similarity ex thr c = false
  end.
Proof.
  unfold choose. intros H Hne. inv_bind H. destruct a as [bm bs].
  injection H as <-.
  apply best_match_loop_spec in Ha.
  destruct Ha as [(-> & -> & Hno)|(k & g & -> & Hbest)]; simpl.
  - destruct (has_candidate similarity ex thr c) eqn:E; [|reflexivity].
    apply has_candidate_iff in E. destruct E as (k & g & s & Hk).
    now apply Hno in Hk.
  - assert (Hg : g <> EmptyString).
    { apply Hne. destruct Hbest as [(gc & Hk & _) _].
      apply nth_error_In in Hk. change g with (fst (g, gc)). now apply in_map. }
    unfold truthy. destruct (String.eqb_spec g EmptyString); [contradiction|].
    simpl. eauto.
Qed.

Lemma choose_has_candidate ex thr c o :
  choose similarity ex thr c = Ok o ->
  (forall g, In g (Dict.keys ex) -> g <> EmptyString) ->
  has_candidate similarity ex thr c
  = match o with Some _ => true | None => false end.
Proof.
  intros H Hne. pose proof (choose_spec _ _ _ _ H Hne) as Hs.
  destruct o as [g|]; [|assumption].
  destruct Hs as (k & s & [Hc _]). apply has_candidate_iff. eauto.
Qed.

Lemma choose_total ex thr c :
  Forall (fun e => is_ok (similarity c (snd e)) = true) ex ->
  is_ok (choose similarity ex thr c) = true.
Proof.
  intros H. unfold choose.
  destruct (best_match_loop_total c ex None thr H) as [[bm bs] ->]. reflexivity.
Qed.

End MapperFacts.

Lemma fold_set_fresh {V} (l : list (string * V)) : forall d,
  NoDup (Dict.keys d ++ map fst l) ->
  fold_left (fun m kv => Dict.set (fst kv) (snd kv) m) l d = d ++ l.
Proof.
  induction l as [|[k v] r IH]; intros d ND; simpl.
  - now rewrite List.app_nil_r.
  - assert (Hk : Dict.mem k d = false).
    { apply DictFacts.not_mem_keys. apply NoDup_remove_2 in ND.
      intros Hin. apply ND. apply in_or_app. now left. }
    rewrite DictFacts.set_new by assumption.
    rewrite IH.
    + now rewrite <- List.app_assoc.
    + rewrite DictFacts.keys_app. simpl. rewrite <- List.app_assoc. exact ND.
Qed.

Lemma keys_combine {V} ks (vs : list V) :
  List.length ks = List.length vs -> Dict.keys (combine ks vs) = ks.
Proof.
  revert vs. induction ks as [|k ks IH]; intros [|v vs] H; simpl in *;
    try discriminate; [reflexivity|]. f_equal. apply IH. lia.
Qed.

Lemma get_combine {V} ks : forall (vs : list V) p k v,
  NoDup ks -> nth_error ks p = Some k -> nth_error vs p = Some v ->
  Dict.get k (combine ks vs) = Some v.
Proof.
  induction ks as [|k0 ks IH]; intros vs p k v ND Hk Hv.
  - destruct p; discriminate.
  - destruct vs as [|v0 vs]; [destruct p; discriminate|].
    inversion ND as [|? ? Hn ND']; subst. simpl.
    destruct p as [|p]; simpl in *.
    + injection Hk as ->. injection Hv as ->. now rewrite String.eqb_refl.
    + destruct (String.eqb_spec k k0) as [->|N].
      * exfalso. apply Hn. eapply nth_error_In; eauto.
      * eapply IH; eauto.
Qed.

Lemma assign_ids_length choices : forall n,
  List.length (assign_ids n choices) = List.length choices.
Proof.
  induction choices as [|[g|] r IH]; intros n; simpl; auto.
Qed.

Lemma nth_error_assign_ids choices : forall n p o,
  nth_error choices p = Some o ->
  nth_error (assign_ids n choices) p
  = Some match o with
         | Some g => g
         | None => py_str (n + Z.of_nat (count_none (firstn p choices)))
         end.
Proof.
  unfold count_none.
  induction choices as [|o0 r IH]; intros n p o H; [destruct p; discriminate|].
  destruct p as [|p]; simpl in H.
  - injection H as ->. destruct o; simpl; [reflexivity|].
    now rewrite Z.add_0_r.
  - destruct o0 as [g|]; simpl; rewrite (IH _ _ _ H); [reflexivity|].
    destruct o; [reflexivity|]. do 2 f_equal. lia.
Qed.

(** ** The next free identifier *)

Lemma fold_max_ge r : forall x z,
  (z = x \/ In z r) -> (z <= fold_left Z.max r x)%Z.
Proof.
  induction r as [|y r IH]; intros x z H; simpl.
  - destruct H as [->|[]]. lia.
  - destruct H as [->|[->|H]].
    + etransitivity; [|apply IH; left; reflexivity]. lia.
    + etransitivity; [|apply IH; left; reflexivity]. lia.
    + apply IH. now right.
Qed.

Lemma max_ints_ge ids z : In z ids -> (z <= max_ints ids)%Z.
Proof.
  destruct ids as [|x r]; [intros []|]. intros [->|H]; apply fold_max_ge; auto.
Qed.

Lemma initial_next_id_empty : initial_next_id Dict.empty = Ok 1%Z.
Proof. reflexivity. Qed.

Lemma initial_next_id_above ex n :
  initial_next_id ex = Ok n ->
  forall g, In g (Dict.keys ex) -> exists z, py_int g = Ok z /\ (z < n)%Z.
Proof.
  unfold initial_next_id. destruct ex as [|e r]; [intros _ g []|].
  intros H. inv_bind H. injection H as <-. rename a into ids.
  apply mapM_ok in Ha. intros g Hg.
  revert Hg. generalize (max_ints_ge ids).
  generalize (max_ints ids). intros m Hm. clear -Ha Hm.
  induction Ha as [|k z ks zs Hk _ IH]; [intros []|].
  intros [<-|Hg].
  - exists z. split; [assumption|]. specialize (Hm z (or_introl eq_refl)). lia.
  - apply IH; [|assumption]. intros z' Hz'. apply Hm. now right.
Qed.

Lemma initial_next_id_total ex :
  Forall (fun g => is_ok (py_int g) = true) (Dict.keys ex) ->
  exists n, initial_next_id ex = Ok n.
Proof.
  intros H. unfold initial_next_id. destruct ex as [|e r]; [eauto|].
  destruct (mapM_total py_int _ H) as [ids ->]. simpl. eauto.
Qed.

Lemma py_int_error s e : py_int s = Err e -> e = ValueError.
Proof.
  unfold py_int.
  destruct (match skip_spaces s with
            | String c r =>
                if Ascii.eqb c "+" then (false, r)
                else if Ascii.eqb c "-" then (true, r) else (false, skip_spaces s)
            | EmptyString => (false, skip_spaces s)
            end) as [neg s2].
  destruct s2 as [|c r]; [congruence|].
  destruct (digit_value c); [|congruence].
  destruct (scan_digits z r) as [v rest].
  destruct (all_spaces rest); congruence.
Qed.

(** A registry with an ID that [int] rejects makes the computation of the
    next ID raise. *)
Lemma initial_next_id_error ex g :
  In g (Dict.keys ex) -> py_int g = Err ValueError ->
  initial_next_id ex = Err ValueError.
Proof.
  intros Hin Hg. unfold initial_next_id.
  destruct ex as [|e r]; [destruct Hin|].
  rewrite (mapM_err py_int _ g ValueError Hin py_int_error Hg). reflexivity.
Qed.

Lemma minted_id_fresh ex n m :
  initial_next_id ex = Ok n -> (n <= m)%Z -> ~ In (py_str m) (Dict.keys ex).
Proof.
  intros Hn Hle Hin.
  destruct (initial_next_id_above _ _ Hn _ Hin) as (z & Hz & Hlt).
  rewrite IntStr.py_int_py_str in Hz. injection Hz as <-. lia.
Qed.

Lemma Forall2_nth_left {A B} (R : A -> B -> Prop) l l' :
  Forall2 R l l' ->
  forall p x, nth_error l p = Some x ->
              exists y, nth_error l' p = Some y /\ R x y.
Proof.
  induction 1 as [|x0 y0 l l' H0 _ IH]; intros [|p] x Hp; try discriminate;
    simpl in *.
  - injection Hp as <-. eauto.
  - eauto.
Qed.

(** ** What [map_speakers] returns *)

Section MapSpeakersFacts.

Variable similarity : embedding -> embedding -> result float.
Variable existing : Dict.t embedding.
Variable threshold : float.

Lemma mapM_map_snd {A B C} (f : B -> result C) (l : list (A * B)) out :
  mapM f (map snd l) = Ok out -> Forall2 (fun e o => f (snd e) = Ok o) l out.
Proof.
  intros H. apply mapM_ok in H. remember (map snd l) as l' eqn:E.
  revert l E. induction H as [|x y xs ys Hx _ IH]; intros [|e l] E;
    try discriminate; constructor.
  - injection E as -> _. assumption.
  - apply IH. now injection E.
Qed.

Lemma map_speakers_with_spec new m :
  NoDup (Dict.keys new) ->
  map_speakers_with similarity new existing threshold = Ok m ->
  exists n choices,
    initial_next_id existing = Ok n /\
    Forall2 (fun e o => choose similarity existing threshold (snd e) = Ok o)
            new choices /\
    m = combine (Dict.keys new) (assign_ids n choices).
Proof.
  intros ND H. unfold map_speakers_with in H. inv_bind H. rename a into n.
  apply map_loop_spec in H. destruct H as (choices & Hc & ->).
  exists n, choices. split; [assumption|].
  apply mapM_map_snd in Hc. split; [assumption|].
  rewrite fold_set_fresh; [reflexivity|]. simpl.
  rewrite <- (keys_combine (Dict.keys new) (assign_ids n choices)) in ND.
  - exact ND.
  - rewrite assign_ids_length. unfold Dict.keys. rewrite length_map.
    eapply Forall2_length; eassumption.
Qed.

Lemma count_none_minted new choices :
  (forall g, In g (Dict.keys existing) -> g <> EmptyString) ->
  Forall2 (fun e o => choose similarity existing threshold (snd e) = Ok o)
          new choices ->
  forall p, count_none (firstn p choices)
            = minted_before similarity existing threshold new p.
Proof.
  intros Hne H. unfold count_none, minted_before.
  induction H as [|e o l l' He _ IH]; intros [|p]; simpl; try reflexivity.
  rewrite (choose_has_candidate _ _ _ _ _ He Hne).
  destruct o; simpl; now rewrite IH.
Qed.

Lemma existing_ids_nonempty n :
  initial_next_id existing = Ok n ->
  forall g, In g (Dict.keys existing) -> g <> EmptyString.
Proof.
  intros Hn g Hg. destruct (initial_next_id_above _ _ Hn _ Hg) as (z & Hz & _).
  apply IntStr.py_int_ok_nonempty. now rewrite Hz.
Qed.

(** The entry of the returned mapping for the local speaker at position [p]. *)
Lemma map_speakers_with_entry new m p l c :
  NoDup (Dict.keys new) ->
  map_speakers_with similarity new existing threshold = Ok m ->
  nth_error new p = Some (l, c) ->
  exists n, initial_next_id existing = Ok n /\
    if has_candidate similarity existing threshold c
    then exists k g s, best_candidate similarity existing threshold c k g s /\
                       Dict.get l m = Some g
    else Dict.get l m
         = Some (py_str (n + Z.of_nat (minted_before similarity existing
                                                      threshold new p))).
Proof.
  intros ND H Hp.
  destruct (map_speakers_with_spec _ _ ND H) as (n & choices & Hn & HF & ->).
  exists n. split; [assumption|].
  pose proof (existing_ids_nonempty _ Hn) as Hne.
  destruct (Forall2_nth_left _ _ _ HF _ _ Hp) as (o & Ho & Hch). simpl in Hch.
  assert (Hget : Dict.get l (combine (Dict.keys new) (assign_ids n choices))
                 = Some match o with
                        | Some g => g
                        | None => py_str (n + Z.of_nat (count_none (firstn p choices)))
                        end).
  { eapply get_combine; [exact ND| |apply nth_error_assign_ids; exact Ho].
    unfold Dict.keys. rewrite nth_error_map, Hp. reflexivity. }
  rewrite (choose_has_candidate _ _ _ _ _ Hch Hne).
  pose proof (choose_spec _ _ _ _ _ Hch Hne) as Hs.
  destruct o as [g|].
  - destruct Hs as (k & s & Hb). eauto.
  - rewrite Hget. now rewrite (count_none_minted _ _ Hne HF).
Qed.

Lemma map_speakers_with_total new :
  Forall (fun g => is_ok (py_int g) = true) (Dict.keys existing) ->
  (forall e g, In e new -> In g existing ->
               is_ok (similarity (snd e) (snd g)) = true) ->
  exists m, map_speakers_with similarity new existing threshold = Ok m.
Proof.
  intros Hk Hs. unfold map_speakers_with.
  destruct (initial_next_id_total _ Hk) as [n ->]. simpl.
  apply map_loop_total. apply Forall_forall. intros e He.
  apply choose_total. apply Forall_forall. intros g Hg. now apply Hs.
Qed.

End MapSpeakersFacts.

(** ** Registration of new speakers *)

Lemma minted_entries_keys new : forall n choices,
  Dict.keys (minted_entries n new choices)
  = map (fun j => py_str (n + Z.of_nat j))
        (seq 0 (List.length (minted_entries n new choices))).
Proof.
  induction new as [|[l c] r IH]; intros n [|[g|] r']; simpl; try reflexivity.
  - apply IH.
  - f_equal; [now rewrite Z.add_0_r|].
    rewrite IH, <- seq_shift, map_map. apply map_ext.
    intros j. f_equal. lia.
Qed.

Lemma minted_entries_get new : forall n choices p l c,
  nth_error new p = Some (l, c) ->
  nth_error choices p = Some None ->
  Dict.get (py_str (n + Z.of_nat (count_none (firstn p choices))))
           (minted_entries n new choices) = Some c.
Proof.
  unfold count_none.
  induction new as [|[l0 c0] r IH]; intros n choices p l c Hp Hc;
    [destruct p; discriminate|].
  destruct choices as [|o r']; [destruct p; discriminate|].
  destruct p as [|p]; simpl in Hp, Hc.
  - injection Hp as -> ->. injection Hc as ->. simpl.
    now rewrite Z.add_0_r, String.eqb_refl.
  - destruct o as [g|]; simpl.
    + eapply IH; eassumption.
    + match goal with |- context [String.eqb ?a ?b] =>
        destruct (String.eqb_spec a b) as [E|_] end.
      * apply IntStr.py_str_inj in E. lia.
      * specialize (IH (n + 1)%Z r' p l c Hp Hc).
        rewrite <- IH. f_equal. f_equal. lia.
Qed.

Lemma update_global_centroids_spec cs : forall new choices n global,
  (forall l c, In (l, c) new -> Dict.get l cs = Some c) ->
  Forall2 (fun _ _ => True) new choices ->
  (forall g, In (Some g) choices -> In g (Dict.keys global)) ->
  (forall m, (n <= m)%Z -> ~ In (py_str m) (Dict.keys global)) ->
  update_global_centroids (combine (Dict.keys new) (assign_ids n choices)) cs global
  = Ok (global ++ minted_entries n new choices).
Proof.
  induction new as [|[l c] r IH]; intros choices n global Hcs HF Hold Hfresh;
    inversion HF as [|? o ? r' _ HF']; subst; simpl.
  - now rewrite List.app_nil_r.
  - destruct o as [g|]; simpl.
    + assert (Hg : Dict.mem g global = true).
      { apply DictFacts.mem_keys, Hold. now left. }
      rewrite Hg. apply IH; auto.
      * intros; apply Hcs; now right.
      * intros; apply Hold; now right.
    + assert (Hg : Dict.mem (py_str n) global = false).
      { apply DictFacts.not_mem_keys, Hfresh. lia. }
      rewrite Hg. unfold Dict.lookup. rewrite (Hcs l c (or_introl eq_refl)).
      simpl. rewrite DictFacts.set_new by assumption.
      rewrite IH; auto.
      * now rewrite <- List.app_assoc.
      * intros; apply Hcs; now right.
      * intros g' Hg'. rewrite DictFacts.keys_app, in_app_iff. left.
        apply Hold. now right.
      * intros m Hm. rewrite DictFacts.keys_app, in_app_iff. simpl.
        intros [H|[H|[]]].
        -- apply (Hfresh m); [lia|assumption].
        -- apply IntStr.py_str_inj in H. lia.
Qed.

Section ResolveFacts.

Variable similarity : embedding -> embedding -> result float.

(** For a chunk after the first: the speaker map is [map_speakers]'s, and
    the registry grows by the entries minted for the chunk, nothing else. *)
Lemma resolve_speakers_spec i cs global m global' :
  i <> 0 -> NoDup (Dict.keys cs) ->
  resolve_speakers similarity i cs global = Ok (m, global') ->
  exists n choices,
    initial_next_id global = Ok n /\
    Forall2 (fun e o => choose similarity global default_threshold (snd e) = Ok o)
            cs choices /\
    m = combine (Dict.keys cs) (assign_ids n choices) /\
    global' = global ++ minted_entries n cs choices.
Proof.
  intros Hi ND H. unfold resolve_speakers in H.
  destruct (Nat.eqb_spec i 0) as [|_]; [contradiction|].
  inv_bind H. rename a into m0, Ha into Hm. inv_bind H. injection H as <- <-.
  destruct (map_speakers_with_spec _ _ _ _ _ ND Hm) as (n & choices & Hn & HF & ->).
  exists n, choices. repeat split; try assumption.
  pose proof (existing_ids_nonempty _ _ Hn) as Hne.
  rewrite update_global_centroids_spec in Ha.
  - now injection Ha.
  - intros l c Hin. now apply DictFacts.In_get.
  - eapply Forall2_impl; [|exact HF]. auto.
  - intros g Hg. apply In_nth_error in Hg. destruct Hg as [p Hp].
    assert (exists e, nth_error cs p = Some e /\
                      choose similarity global default_threshold (snd e) = Ok (Some g))
      as (e & _ & He).
    { clear -HF Hp. revert p Hp.
      induction HF as [|e o l l' He _ IH]; intros [|p] Hp; try discriminate;
        simpl in *.
      - injection Hp as ->. eauto.
      - eauto. }
    pose proof (choose_spec _ _ _ _ _ He Hne) as (k & s & [(gc & Hk & _) _]).
    apply nth_error_In in Hk. change g with (fst (g, gc)). now apply in_map.
  - intros k Hk. eapply minted_id_fresh; eassumption.
Qed.

End ResolveFacts.

Lemma fold_max_in r : forall x,
  fold_left Z.max r x = x \/ In (fold_left Z.max r x) r.
Proof.
  induction r as [|y r IH]; intros x; simpl; [now left|].
  destruct (IH (Z.max x y)) as [E|H]; [|now right; right].
  rewrite E. destruct (Z.max_spec x y) as [[_ ->]|[_ ->]]; auto.
Qed.

Lemma initial_next_id_attained ex n :
  ex <> [] -> initial_next_id ex = Ok n ->
  exists g, In g (Dict.keys ex) /\ py_int g = Ok (n - 1)%Z.
Proof.
  unfold initial_next_id. destruct ex as [|e r]; [congruence|]. intros _ H.
  inv_bind H. injection H as <-. rename a into ids. apply mapM_ok in Ha.
  assert (Hin : In (max_ints ids) ids).
  { inversion Ha as [|? z ? zs _ _]; subst. simpl.
    destruct (fold_max_in zs z) as [->|H]; [now left|now right]. }
  replace (max_ints ids + 1 - 1)%Z with (max_ints ids) by lia.
  revert Hin. generalize (max_ints ids). intros m Hm. clear -Ha Hm.
  induction Ha as [|k z ks zs Hk _ IH]; [destruct Hm|].
  destruct Hm as [->|Hm].
  - exists k. split; [now left|assumption].
  - destruct (IH Hm) as (g & Hg & Hz). exists g. split; [now right|assumption].
Qed.

(** Entries of the registry survive every chunk after the first, with the
    centroid they were entered with. *)
Lemma process_chunk_preserves similarity chunk_offsets chunk_size
      i data offset st st' :
  i <> 0 ->
  process_chunk similarity chunk_offsets chunk_size i data offset st = Ok st' ->
  exists added, global_centroids st' = global_centroids st ++ added.
Proof.
  intros Hi H. unfold process_chunk in H.
  destruct (segments data) as [|s0 segs] eqn:Es.
  - injection H as <-. exists []. now rewrite List.app_nil_r.
  - inv_bind H. rename a into cs, Ha into Hcs. inv_bind H.
    destruct a as [m global']. inv_bind H. injection H as <-. simpl.
    destruct (resolve_speakers_spec _ _ _ _ _ _ Hi (centroids_nodup _ _ Hcs) Ha)
      as (n & choices & _ & _ & _ & ->).
    eauto.
Qed.

(** ** C2: reuse of the most similar global speaker *)

(** C2.  When [map_speakers] returns a mapping, every local speaker [l]
    with centroid [c] for which some registry centroid has cosine similarity
    strictly above the threshold is mapped to the best candidate: the
    registry entry whose similarity to [c] is above the threshold, at least
    that of every other candidate, and strictly above that of every
    candidate earlier in registry order (so that among equally similar
    entries the first one wins).  That entry is unique. *)
Theorem map_speakers_best_match :
  forall new existing threshold mapping l c,
    NoDup (Dict.keys new) ->
    map_speakers new existing threshold = Ok mapping ->
    In (l, c) new ->
    has_candidate cosine_similarity existing threshold c = true ->
    exists k g s,
      best_candidate cosine_similarity existing threshold c k g s /\
      Dict.get l mapping = Some g /\
      forall k' g' s',
        best_candidate cosine_similarity existing threshold c k' g' s' ->
        k' = k /\ g' = g /\ s' = s.
Proof.
  intros new existing threshold mapping l c ND H Hin Hc.
  apply In_nth_error in Hin. destruct Hin as [p Hp].
  destruct (map_speakers_with_entry _ _ _ _ _ _ _ _ ND H Hp) as (n & _ & He).
  rewrite Hc in He. destruct He as (k & g & s & Hb & Hg).
  exists k, g, s. split; [assumption|]. split; [assumption|].
  intros k' g' s' Hb'.
  destruct (best_candidate_unique _ _ _ _ _ _ _ _ _ _ Hb' Hb) as (? & ? & ?).
  auto.
Qed.

Lemma map_speakers_best_match_witness :
  exists k g s,
    best_candidate cosine_similarity tie_registry default_threshold
                   [2%float; 0%float] k g s /\
    Dict.get "9"%string [("9"%string, "1"%string)] = Some g /\
    forall k' g' s',
      best_candidate cosine_similarity tie_registry default_threshold
                     [2%float; 0%float] k' g' s' ->
      k' = k /\ g' = g /\ s' = s.
Proof.
  apply (map_speakers_best_match tie_chunk tie_registry default_threshold
                                 [("9"%string, "1"%string)] "9"%string
                                 [2%float; 0%float]).
  - repeat constructor. simpl. tauto.
  - reflexivity.
  - left. reflexivity.
  - reflexivity.
Defined.

Example tie_goes_to_first :
  map_speakers tie_chunk tie_registry default_threshold
  = Ok [("9"%string, "1"%string)].
Proof. reflexivity. Qed.

(** [map_speakers] returns a mapping when every registry ID is a decimal
    integer and all centroids have one dimension. *)
Lemma map_speakers_total new existing threshold d :
  Forall (fun g => is_ok (py_int g) = true) (Dict.keys existing) ->
  Forall (fun e => List.length (snd e) = d) new ->
  Forall (fun e => List.length (snd e) = d) existing ->
  exists mapping, map_speakers new existing threshold = Ok mapping.
Proof.
  intros Hk Hn He. apply map_speakers_with_total; [assumption|].
  intros e g Hin Hg. rewrite Forall_forall in Hn, He.
  assert (Hlen : List.length (snd e) = List.length (snd g)).
  { transitivity d; [exact (Hn e Hin)|symmetry; exact (He g Hg)]. }
  destruct (dot_acc_total 0 _ _ Hlen) as [x Hx].
  unfold cosine_similarity, np_dot.
  rewrite (proj2 (Nat.eqb_eq _ _) Hlen), Hx. reflexivity.
Qed.

(** ** C3: minting and registering a new global speaker *)

(** C3.  In a chunk after the first, a local speaker [l] (at position [p],
    with centroid [c]) that no registry centroid matches above the threshold
    gets a minted ID.  Minting starts at [next_id], which is 1 for an empty
    registry and otherwise one more than the largest numeric ID in the
    registry, and advances by one per speaker minted in the chunk: [l] gets
    [next_id] plus the number of speakers minted before it in this chunk,
    i.e. one more than the largest ID in use at that moment.  That ID was
    not in the registry, and after the chunk the registry holds it with
    [l]'s centroid [c].  Entries of the registry are never changed: every
    chunk after the first leaves each existing ID with the centroid it was
    entered with. *)
Theorem new_speaker_is_minted_and_registered :
  forall i chunk_centroids global speaker_map global' p l c,
    i <> 0 ->
    NoDup (Dict.keys chunk_centroids) ->
    resolve_speakers cosine_similarity i chunk_centroids global
      = Ok (speaker_map, global') ->
    nth_error chunk_centroids p = Some (l, c) ->
    has_candidate cosine_similarity global default_threshold c = false ->
    exists next_id id,
      initial_next_id global = Ok next_id /\
      (global = [] -> next_id = 1%Z) /\
      (global <> [] ->
         exists g, In g (Dict.keys global) /\ py_int g = Ok (next_id - 1)%Z) /\
      (forall g, In g (Dict.keys global) ->
         exists z, py_int g = Ok z /\ (z < next_id)%Z) /\
      id = py_str (next_id +
                   Z.of_nat (minted_before cosine_similarity global
                                           default_threshold chunk_centroids p)) /\
      Dict.get l speaker_map = Some id /\
      Dict.get id global = None /\
      Dict.get id global' = Some c /\
      (forall g gc, Dict.get g global = Some gc -> Dict.get g global' = Some gc) /\
      (forall similarity chunk_offsets chunk_size j data offset st st' g gc,
         j <> 0 ->
         process_chunk similarity chunk_offsets chunk_size j data offset st = Ok st' ->
         Dict.get g (global_centroids st) = Some gc ->
         Dict.get g (global_centroids st') = Some gc).
Proof.
  intros i cs global m global' p l c Hi ND H Hp Hc.
  destruct (resolve_speakers_spec _ _ _ _ _ _ Hi ND H)
    as (n & choices & Hn & HF & -> & ->).
  pose proof (existing_ids_nonempty _ _ Hn) as Hne.
  destruct (Forall2_nth_left _ _ _ HF _ _ Hp) as (o & Ho & Hch). simpl in Hch.
  pose proof (choose_has_candidate _ _ _ _ _ Hch Hne) as Ho'.
  rewrite Hc in Ho'. destruct o as [g|]; [discriminate|]. clear Ho'.
  pose proof (count_none_minted _ _ _ _ _ Hne HF p) as Hcount.
  exists n, (py_str (n + Z.of_nat (count_none (firstn p choices)))).
  assert (Hfresh : Dict.get (py_str (n + Z.of_nat (count_none (firstn p choices))))
                            global = None).
  { apply DictFacts.get_keys_none. eapply minted_id_fresh; [eassumption|lia]. }
  split; [assumption|]. split.
  { intros ->. simpl in Hn. congruence. }
  split; [intros Hg; now apply initial_next_id_attained|].
  split; [now apply initial_next_id_above|].
  split; [now rewrite Hcount|]. split.
  { eapply get_combine; [exact ND| |].
    - unfold Dict.keys. rewrite nth_error_map, Hp. reflexivity.
    - rewrite (nth_error_assign_ids _ _ _ _ Ho). reflexivity. }
  split; [assumption|]. split.
  { rewrite DictFacts.get_app, Hfresh. eapply minted_entries_get; eassumption. }
  split.
  { intros g gc Hg. now rewrite DictFacts.get_app, Hg. }
  intros similarity offs csz j data offset st st' g gc Hj Hstep Hg.
  destruct (process_chunk_preserves _ _ _ _ _ _ _ _ Hj Hstep) as [added ->].
  now rewrite DictFacts.get_app, Hg.
Qed.

(** The registry holds speaker "1"; the chunk's only speaker is orthogonal
    to it (similarity 0) and becomes speaker "2". *)
Lemma new_speaker_is_minted_and_registered_witness :
  exists next_id id,
    initial_next_id [("1"%string, [1%float; 0%float])] = Ok next_id /\
    id = py_str (next_id + 0) /\
    Dict.get "1"%string [("1"%string, "2"%string)] = Some id /\
    Dict.get id [("1"%string, [1%float; 0%float]); ("2"%string, [0%float; 1%float])]
      = Some [0%float; 1%float].
Proof.
  destruct (new_speaker_is_minted_and_registered
              1 [("1"%string, [0%float; 1%float])]
              [("1"%string, [1%float; 0%float])]
              [("1"%string, "2"%string)]
              [("1"%string, [1%float; 0%float]); ("2"%string, [0%float; 1%float])]
              0 "1"%string [0%float; 1%float])
    as (next_id & id & H1 & _ & _ & _ & H2 & H3 & _ & H4 & _).
  - discriminate.
  - repeat constructor. simpl. tauto.
  - reflexivity.
  - reflexivity.
  - reflexivity.
  - exists next_id, id. repeat split; assumption.
Defined.

(** ** C5: the first chunk *)

Lemma get_identity ks k :
  In k ks -> Dict.get k (map (fun sid => (sid, sid)) ks) = Some k.
Proof.
  induction ks as [|k0 ks IH]; [intros []|]. simpl.
  destruct (String.eqb_spec k k0) as [->|N]; [reflexivity|].
  intros [E|H]; [congruence|auto].
Qed.

Lemma process_segments_identity offset chunk_offsets chunk_size ks segs :
  (forall seg, In seg segs -> In (speakerId seg) ks) ->
  process_segments 0 offset chunk_offsets chunk_size
                   (map (fun sid => (sid, sid)) ks) segs
  = Ok (map (shift_segment offset) segs).
Proof.
  induction segs as [|seg r IH]; intros H; [reflexivity|].
  simpl. unfold Dict.lookup.
  rewrite (get_identity ks _ (H seg (or_introl eq_refl))). simpl.
  rewrite IH by (intros; apply H; now right). reflexivity.
Qed.

Lemma chunk_zero_step similarity chunk_offsets chunk_size data offset st cs :
  segments data <> [] ->
  get_speaker_centroids (segments data) = Ok cs ->
  exists st',
    process_chunk similarity chunk_offsets chunk_size 0 data offset st = Ok st' /\
    global_centroids st' = cs.
Proof.
  intros Hne Hcs. unfold process_chunk.
  destruct (segments data) as [|s0 segs] eqn:Es; [congruence|].
  rewrite Hcs. unfold resolve_speakers. cbn [bind Nat.eqb].
  rewrite process_segments_identity.
  - eexists. split; reflexivity.
  - intros seg Hseg. apply (centroids_cover _ _ Hcs). eauto.
Qed.

(** C5 (amended).  For the chunk at index 0, when it has segments and its
    centroids are computed: every local speaker ID is mapped to itself, the
    registry becomes the chunk's centroids, every segment is emitted under
    its own speaker ID, and no similarity is computed (the step does not
    depend on the similarity function). *)
Theorem first_chunk_identity :
  forall similarity chunk_offsets chunk_size data offset st cs,
    segments data <> [] ->
    get_speaker_centroids (segments data) = Ok cs ->
    resolve_speakers similarity 0 cs (global_centroids st)
      = Ok (map (fun sid => (sid, sid)) (Dict.keys cs), cs) /\
    (forall l, In l (Dict.keys cs) ->
               Dict.get l (map (fun sid => (sid, sid)) (Dict.keys cs)) = Some l) /\
    process_chunk similarity chunk_offsets chunk_size 0 data offset st
      = Ok (mkState (all_segments st ++ map (shift_segment offset) (segments data))
                    cs
                    (py_max (total_duration st) (durationSeconds data + offset)%float)) /\
    (forall similarity',
       process_chunk similarity' chunk_offsets chunk_size 0 data offset st
       = process_chunk similarity chunk_offsets chunk_size 0 data offset st).
Proof.
  intros similarity offs csz data offset st cs Hne Hcs.
  split; [reflexivity|]. split; [apply get_identity|].
  assert (Hstep : forall sim,
    process_chunk sim offs csz 0 data offset st
    = Ok (mkState (all_segments st ++ map (shift_segment offset) (segments data))
                  cs
                  (py_max (total_duration st) (durationSeconds data + offset)%float))).
  { intros sim. unfold process_chunk.
    destruct (segments data) as [|s0 segs] eqn:Es; [congruence|].
    rewrite Hcs. unfold resolve_speakers. cbn [bind Nat.eqb].
    rewrite process_segments_identity; [reflexivity|].
    intros seg Hseg. apply (centroids_cover _ _ Hcs). eauto. }
  split; [apply Hstep|]. intros sim'. now rewrite !Hstep.
Qed.

Lemma first_chunk_identity_witness :
  segments (mkChunk [one_segment "7"] 10) <> [] /\
  process_chunk cosine_similarity [0%float] 10 0 (mkChunk [one_segment "7"] 10)
                0 initial_state
  = Ok (mkState [shift_segment 0 (one_segment "7")]
                [("7"%string, [1%float])]
                (py_max 0 (10 + 0)%float)).
Proof.
  assert (H : segments (mkChunk [one_segment "7"] 10) <> []) by discriminate.
  split; [exact H|].
  exact (proj1 (proj2 (proj2
    (first_chunk_identity cosine_similarity [0%float] 10
       (mkChunk [one_segment "7"] 10) 0 initial_state
       [("7"%string, [1%float])] H eq_refl)))).
Defined.

(** C5 as stated fails when chunk 0 is empty: the first chunk with segments
    is then mapped by [map_speakers] against an empty registry, and its
    speaker "7" becomes global speaker "1". *)
Lemma first_nonempty_chunk_counterexample :
  exists m,
    merge_chunks insertion_sort [mkChunk [] 10; mkChunk [one_segment "7"] 10]
                 [0%float; 10%float] 10 30 0 = Ok m /\
    map speakerId (merged_segments m) = ["1"%string] /\
    speakerCount m = 1.
Proof. eexists. repeat split. Qed.

(** ** C10: registry IDs that [int] rejects *)

Lemma mapM_error_kind {A B} (f : A -> result B) l e0 :
  (forall x e, f x = Err e -> e = e0) ->
  forall e, mapM f l = Err e -> e = e0.
Proof.
  intros Hf. induction l as [|x l IH]; simpl; intros e H; [discriminate|].
  destruct (f x) eqn:E; simpl in H.
  - destruct (mapM f l); simpl in H; [discriminate|].
    injection H as <-. now apply IH.
  - injection H as <-. eapply Hf; eassumption.
Qed.

Lemma get_speaker_centroids_error segs e :
  get_speaker_centroids segs = Err e -> e = ValueError.
Proof.
  unfold get_speaker_centroids. apply mapM_error_kind.
  intros [sid rows] e'. cbn beta iota. unfold np_mean.
  destruct rows as [|r0 rest]; [simpl; congruence|].
  match goal with |- context [forallb ?f rest] => destruct (forallb f rest) end;
    simpl; congruence.
Qed.

Section BadIdFacts.

Variable similarity : embedding -> embedding -> result float.
Variable chunk_offsets : list float.
Variable chunk_size : float.

Lemma map_speakers_with_bad_id new global threshold g :
  In g (Dict.keys global) -> py_int g = Err ValueError ->
  map_speakers_with similarity new global threshold = Err ValueError.
Proof.
  intros Hin Hg. unfold map_speakers_with.
  now rewrite (initial_next_id_error _ _ Hin Hg).
Qed.

Lemma process_chunk_bad_id i data offset st g :
  i <> 0 -> segments data <> [] ->
  In g (Dict.keys (global_centroids st)) -> py_int g = Err ValueError ->
  process_chunk similarity chunk_offsets chunk_size i data offset st
  = Err ValueError.
Proof.
  intros Hi Hne Hin Hg. unfold process_chunk.
  destruct (segments data) as [|s0 segs]; [congruence|].
  destruct (get_speaker_centroids (s0 :: segs)) as [cs|e] eqn:E.
  - cbn [bind]. unfold resolve_speakers.
    destruct (Nat.eqb_spec i 0) as [|_]; [contradiction|].
    now rewrite (map_speakers_with_bad_id _ _ _ _ Hin Hg).
  - apply get_speaker_centroids_error in E. now subst.
Qed.

Lemma merge_loop_bad_id files : forall offsets i st g j cj,
  i <> 0 ->
  In g (Dict.keys (global_centroids st)) -> py_int g = Err ValueError ->
  nth_error files j = Some cj -> segments cj <> [] -> j < List.length offsets ->
  merge_loop similarity chunk_offsets chunk_size i files offsets st
  = Err ValueError.
Proof.
  induction files as [|data files IH]; intros offsets i st g j cj Hi Hin Hg Hj Hne Hlen.
  - destruct j; discriminate.
  - destruct offsets as [|offset offsets]; [simpl in Hlen; lia|].
    simpl. destruct (segments data) as [|s0 segs] eqn:Es.
    + assert (Hskip : process_chunk similarity chunk_offsets chunk_size i data
                                    offset st = Ok st).
      { unfold process_chunk. now rewrite Es. }
      rewrite Hskip. cbn [bind].
      destruct j as [|j]; simpl in Hj.
      * injection Hj as <-. congruence.
      * apply (IH offsets (S i) st g j cj); auto. simpl in Hlen. lia.
    + rewrite (process_chunk_bad_id i data offset st g); auto.
      rewrite Es. discriminate.
Qed.

End BadIdFacts.

(** C10.  If a segment of a non-empty chunk 0 carries a speaker ID that
    [int] rejects and some later chunk (one that has an offset) has
    segments, the merge raises [ValueError]: the loop fails and
    [merge_chunks] returns no document.  The reason is in the mapper: with
    such an ID among the registry keys it raises before any similarity is
    looked at, whatever the similarity function would return. *)
Theorem non_integer_id_aborts_merge :
  forall sort similarity c0 rest o0 orest chunk_size overlap mtime seg j cj,
    In seg (segments c0) ->
    py_int (speakerId seg) = Err ValueError ->
    nth_error rest j = Some cj ->
    segments cj <> [] ->
    j < List.length orest ->
    merge_loop similarity (o0 :: orest) chunk_size 0 (c0 :: rest) (o0 :: orest)
               initial_state = Err ValueError /\
    merge_chunks_with sort similarity (c0 :: rest) (o0 :: orest) chunk_size
                      overlap mtime
      = Err ValueError /\
    (forall new global threshold,
       In (speakerId seg) (Dict.keys global) ->
       map_speakers_with similarity new global threshold = Err ValueError).
Proof.
  intros sort similarity c0 rest o0 orest csz overlap mtime seg j cj
         Hseg Hbad Hj Hne Hlen.
  assert (Hloop : merge_loop similarity (o0 :: orest) csz 0 (c0 :: rest)
                             (o0 :: orest) initial_state = Err ValueError).
  { cbn [merge_loop].
    destruct (get_speaker_centroids (segments c0)) as [cs|e] eqn:Ecs.
    - assert (Hne0 : segments c0 <> []) by (intros E; rewrite E in Hseg; destruct Hseg).
      destruct (chunk_zero_step similarity (o0 :: orest) csz c0 o0
                                          initial_state cs Hne0 Ecs) as [st' [-> Hgc]].
      cbn [bind].
      apply (merge_loop_bad_id similarity (o0 :: orest) csz rest orest 1 st'
                               (speakerId seg) j cj); auto.
      rewrite Hgc. apply (centroids_cover _ _ Ecs). eauto.
    - pose proof (get_speaker_centroids_error _ _ Ecs). subst e.
      unfold process_chunk.
      destruct (segments c0) as [|s0 segs]; [destruct Hseg|].
      now rewrite Ecs. }
  split; [exact Hloop|]. split.
  - unfold merge_chunks_with. now rewrite Hloop.
  - intros new global threshold Hin.
    now apply (map_speakers_with_bad_id similarity new global threshold
                                        (speakerId seg)).
Qed.

(** Both chunks hold the same voice (similarity 1) under the label "A". *)
Lemma non_integer_id_aborts_merge_witness :
  In (one_segment "A") (segments (mkChunk [one_segment "A"] 10)) /\
  py_int (speakerId (one_segment "A")) = Err ValueError /\
  cosine_similarity (seg_embedding (one_segment "A"))
                    (seg_embedding (one_segment "A")) = Ok 1%float /\
  merge_chunks insertion_sort
               [mkChunk [one_segment "A"] 10; mkChunk [one_segment "A"] 10]
               [0%float; 10%float] 10 30 0 = Err ValueError.
Proof.
  assert (H1 : In (one_segment "A") (segments (mkChunk [one_segment "A"] 10)))
    by (left; reflexivity).
  assert (H2 : py_int (speakerId (one_segment "A")) = Err ValueError)
    by reflexivity.
  assert (H3 : nth_error [mkChunk [one_segment "A"] 10] 0
               = Some (mkChunk [one_segment "A"] 10)) by reflexivity.
  assert (H4 : segments (mkChunk [one_segment "A"] 10) <> []) by discriminate.
  assert (H5 : 0 < List.length [10%float]) by (simpl; lia).
  split; [exact H1|]. split; [exact H2|]. split; [reflexivity|].
  exact (proj1 (proj2
    (non_integer_id_aborts_merge insertion_sort cosine_similarity
       (mkChunk [one_segment "A"] 10) [mkChunk [one_segment "A"] 10]
       0%float [10%float] 10%float 30%float 0%float
       (one_segment "A") 0 (mkChunk [one_segment "A"] 10)
       H1 H2 H3 H4 H5))).
Defined.

(** ** C7: the sorted timeline *)

Lemma merged_segments_permuted sort similarity files offs csz overlap mtime m :
  merge_chunks_with sort similarity files offs csz overlap mtime = Ok m ->
  exists st,
    merge_loop similarity offs csz 0 files offs initial_state = Ok st /\
    Permutation (all_segments st) (merged_segments m).
Proof.
  intros H. unfold merge_chunks_with in H.
  apply bind_ok in H. destruct H as (st & Hst & H). injection H as <-.
  exists st. split; [assumption|apply sort_permutes].
Qed.

(** C7.  When the merge returns a document, its segment list is the list of
    the accumulated surviving segments as [list.sort] leaves it, which is
    always a permutation of that list.  When no adjusted start time is NaN
    it is that list sorted stably by adjusted start: the start times
    ascend, for every time [t] the segments starting at [t] come in the
    order in which they were accumulated, and no other list has these two
    properties (it is the list that the stable insertion sort returns).
    speakerCount is the number of entries of the final registry, and
    durationSeconds the final running maximum. *)
Theorem merged_timeline_is_stable_sort :
  forall sort similarity chunk_files chunk_offsets chunk_size overlap mtime m,
    merge_chunks_with sort similarity chunk_files chunk_offsets chunk_size
                      overlap mtime = Ok m ->
    exists st,
      merge_loop similarity chunk_offsets chunk_size 0
                 chunk_files chunk_offsets initial_state = Ok st /\
      merged_segments m = sort_segments sort (all_segments st) /\
      Permutation (all_segments st) (merged_segments m) /\
      (no_nan_starts (all_segments st) ->
       StronglySorted start_leb (merged_segments m) /\
       (forall t, starting_at t (merged_segments m)
                  = starting_at t (all_segments st)) /\
       merged_segments m = sort_by_start (all_segments st)) /\
      speakerCount m = List.length (global_centroids st) /\
      merged_durationSeconds m = total_duration st.
Proof.
  intros sort similarity files offs csz overlap mtime m H.
  unfold merge_chunks_with in H. apply bind_ok in H. destruct H as (st & Hst & H).
  injection H as <-. exists st. cbn [merged_segments speakerCount merged_durationSeconds].
  split; [assumption|]. split; [reflexivity|].
  split; [apply sort_permutes|].
  split; [|split; reflexivity].
  intros N. split; [now apply sort_ascends|].
  split; [intros t; now apply sort_keeps_ties|].
  now apply sort_segments_unique.
Qed.

Lemma merged_timeline_is_stable_sort_witness :
  exists m,
    merge_chunks left_insertion_sort [unsorted_chunk] [0%float] 10 30 0 = Ok m /\
    map startTimeSeconds (merged_segments m) = [2%float; 5%float; 5%float] /\
    map endTimeSeconds (merged_segments m) = [3%float; 6%float; 7%float] /\
    exists st,
      merge_loop cosine_similarity [0%float] 10 0 [unsorted_chunk] [0%float]
                 initial_state = Ok st /\
      Permutation (all_segments st) (merged_segments m) /\
      speakerCount m = List.length (global_centroids st).
Proof.
  eexists. split; [reflexivity|]. split; [reflexivity|]. split; [reflexivity|].
  destruct (merged_timeline_is_stable_sort left_insertion_sort cosine_similarity
              [unsorted_chunk] [0%float] 10 30 0 _ eq_refl)
    as (st & H1 & _ & H2 & _ & H3 & _).
  exists st. repeat split; assumption.
Defined.

(** C7 as stated fails on a start time that is not a number, which
    [json.load] reads from the literal [NaN]: the merge returns a document,
    and whatever [list.sort] does with the two segments, their start times
    do not ascend. *)
Lemma nan_start_counterexample :
  (forall sort, is_ok (merge_chunks sort [nan_chunk] [0%float] 10 30 0) = true) /\
  (forall sort m,
     merge_chunks sort [nan_chunk] [0%float] 10 30 0 = Ok m ->
     List.length (merged_segments m) = 2 /\
     ~ StronglySorted start_leb (merged_segments m)).
Proof.
  split; [intros sort; reflexivity|].
  intros sort m H.
  destruct (merged_segments_permuted sort cosine_similarity
              [nan_chunk] [0%float] 10 30 0 m H) as (st & Hst & P).
  vm_compute in Hst. injection Hst as <-. cbn [all_segments] in P.
  split; [now rewrite <- (Permutation_length P)|].
  apply Permutation_length_2_inv in P.
  destruct P as [-> | ->]; intros S; inversion S as [|? ? _ F]; subst;
    inversion F as [|? ? L _]; subst; vm_compute in L; discriminate L.
Qed.

(** ** C6: the registry and the labels of the output *)

Lemma process_segments_out i offset chunk_offsets chunk_size m segs : forall out,
  process_segments i offset chunk_offsets chunk_size m segs = Ok out ->
  forall o, In o out ->
            exists seg, In seg segs /\ Dict.get (speakerId seg) m = Some (speakerId o).
Proof.
  induction segs as [|seg r IH]; intros out H o Ho; simpl in H.
  - injection H as <-. destruct Ho.
  - inv_bind H. destruct a.
    + destruct (IH _ H _ Ho) as (s & Hs & Hg). exists s. split; [now right|assumption].
    + unfold Dict.lookup in H.
      destruct (Dict.get (speakerId seg) m) as [g|] eqn:G; [|discriminate].
      cbn [bind] in H. inv_bind H. injection H as <-.
      destruct Ho as [<-|Ho].
      * exists seg. split; [now left|]. simpl. assumption.
      * destruct (IH _ Ha0 _ Ho) as (s & Hs & Hg).
        exists s. split; [now right|assumption].
Qed.

Lemma get_combine_In {V} ks (vs : list V) k v :
  Dict.get k (combine ks vs) = Some v -> In v vs.
Proof.
  intros H. apply DictFacts.get_In in H. eapply in_combine_r; eassumption.
Qed.

Lemma assigned_id_origin new : forall n choices g,
  Forall2 (fun _ _ => True) new choices ->
  In g (assign_ids n choices) ->
  In (Some g) choices \/ In g (Dict.keys (minted_entries n new choices)).
Proof.
  induction new as [|[l c] r IH]; intros n choices g HF Hg;
    inversion HF as [|? o ? r' _ HF']; subst; [destruct Hg|].
  destruct o as [g0|]; simpl in *.
  - destruct Hg as [<-|Hg]; [now left; left|].
    destruct (IH _ _ _ HF' Hg); auto.
  - destruct Hg as [<-|Hg]; [now right; left|].
    destruct (IH _ _ _ HF' Hg); auto.
Qed.

Lemma minted_keys_nodup n new choices :
  NoDup (Dict.keys (minted_entries n new choices)).
Proof.
  rewrite minted_entries_keys.
  apply Finite.Injective_map_NoDup; [|apply seq_NoDup].
  intros a b H. apply IntStr.py_str_inj in H. lia.
Qed.

Lemma minted_keys_above n new choices g :
  In g (Dict.keys (minted_entries n new choices)) ->
  exists m, (n <= m)%Z /\ g = py_str m.
Proof.
  rewrite minted_entries_keys, in_map_iff. intros (j & <- & _).
  exists (n + Z.of_nat j)%Z. split; [lia|reflexivity].
Qed.

Section RegistryFacts.

Variable similarity : embedding -> embedding -> result float.
Variable chunk_offsets : list float.
Variable chunk_size : float.

Lemma chosen_is_registered global (cs : Dict.t embedding) choices g :
  (forall k, In k (Dict.keys global) -> k <> EmptyString) ->
  Forall2 (fun e o => choose similarity global default_threshold (snd e) = Ok o)
          cs choices ->
  In (Some g) choices -> In g (Dict.keys global).
Proof.
  intros Hne HF Hg. induction HF as [|e o l l' He _ IH]; [destruct Hg|].
  destruct Hg as [->|Hg]; [|auto].
  pose proof (choose_spec _ _ _ _ _ He Hne) as (k & s & [(gc & Hk & _) _]).
  apply nth_error_In in Hk. change g with (fst (g, gc)). now apply in_map.
Qed.

Lemma process_chunk_later i data offset st st' :
  i <> 0 -> registry_covers st ->
  process_chunk similarity chunk_offsets chunk_size i data offset st = Ok st' ->
  registry_covers st' /\
  exists next_id minted,
    global_centroids st' = global_centroids st ++ minted /\
    Dict.keys minted = map (fun j => py_str (next_id + Z.of_nat j))
                           (seq 0 (List.length minted)) /\
    (minted <> [] -> initial_next_id (global_centroids st) = Ok next_id).
Proof.
  intros Hi [ND Hcov] H. unfold process_chunk in H.
  destruct (segments data) as [|s0 segs] eqn:Es.
  { injection H as <-. split; [split; assumption|].
    exists 1%Z, []. rewrite List.app_nil_r. repeat split. congruence. }
  inv_bind H. rename a into cs, Ha into Hcs. inv_bind H.
  destruct a as [m global']. inv_bind H. rename a into out. injection H as <-.
  destruct (resolve_speakers_spec _ _ _ _ _ _ Hi (centroids_nodup _ _ Hcs) Ha)
    as (n & choices & Hn & HF & -> & ->).
  pose proof (existing_ids_nonempty _ _ Hn) as Hne.
  unfold registry_covers. cbn [global_centroids all_segments]. split; [split|].
  - rewrite DictFacts.keys_app. apply NoDup_app; [assumption|apply minted_keys_nodup|].
    intros g Hg Hm. apply minted_keys_above in Hm. destruct Hm as (k & Hk & ->).
    eapply minted_id_fresh; eassumption.
  - intros seg Hseg. rewrite DictFacts.keys_app, in_app_iff.
    apply in_app_or in Hseg. destruct Hseg as [Hseg|Hseg]; [left; auto|].
    destruct (process_segments_out _ _ _ _ _ _ _ Ha0 _ Hseg) as (s & _ & Hg).
    apply get_combine_In in Hg.
    apply (assigned_id_origin cs) in Hg;
      [|eapply Forall2_impl; [|exact HF]; auto].
    destruct Hg as [Hg|Hg]; [left|right; assumption].
    eapply chosen_is_registered; eassumption.
  - exists n, (minted_entries n cs choices).
    split; [reflexivity|]. split; [apply minted_entries_keys|auto].
Qed.

Lemma process_chunk_first data offset st st' :
  global_centroids st = [] -> all_segments st = [] ->
  process_chunk similarity chunk_offsets chunk_size 0 data offset st = Ok st' ->
  registry_covers st' /\
  (segments data = [] -> global_centroids st' = [] /\ all_segments st' = []).
Proof.
  intros Hg Ha H. unfold process_chunk in H.
  destruct (segments data) as [|s0 segs] eqn:Es.
  { injection H as <-. split; [|auto].
    split; [rewrite Hg; constructor|rewrite Ha; intros ? []]. }
  split; [|discriminate].
  destruct (get_speaker_centroids (s0 :: segs)) as [cs|] eqn:Hcs; [|discriminate].
  unfold resolve_speakers in H. cbn [bind Nat.eqb] in H.
  rewrite process_segments_identity in H.
  - injection H as <-. simpl. split; [eapply centroids_nodup; eassumption|].
    rewrite Ha. simpl. intros seg Hseg.
    change (In seg (map (shift_segment offset) (s0 :: segs))) in Hseg.
    apply in_map_iff in Hseg. destruct Hseg as (s & <- & Hs). simpl.
    apply (centroids_cover _ _ Hcs). eauto.
  - intros seg Hseg. apply (centroids_cover _ _ Hcs). eauto.
Qed.

Lemma merge_loop_covers files : forall offsets i st st',
  registry_covers st ->
  (i = 0 -> global_centroids st = [] /\ all_segments st = []) ->
  merge_loop similarity chunk_offsets chunk_size i files offsets st = Ok st' ->
  registry_covers st'.
Proof.
  induction files as [|data files IH]; intros offsets i st st' Hcov H0 H.
  - injection H as <-. assumption.
  - destruct offsets as [|offset offsets];
      [simpl in H; injection H as <-; assumption|].
    simpl in H. inv_bind H. rename a into st1.
    destruct (Nat.eq_dec i 0) as [->|Hi].
    + destruct H0 as [Hg Hs]; [reflexivity|].
      destruct (process_chunk_first _ _ _ _ Hg Hs Ha) as [Hc _].
      apply (IH offsets 1 st1 st' Hc); [intros E; discriminate E|exact H].
    + destruct (process_chunk_later _ _ _ _ _ Hi Hcov Ha) as [Hc _].
      apply (IH offsets (S i) st1 st' Hc); [intros E; discriminate E|exact H].
Qed.

End RegistryFacts.

Lemma process_chunk_growth similarity chunk_offsets chunk_size i data offset st st' :
  i <> 0 ->
  process_chunk similarity chunk_offsets chunk_size i data offset st = Ok st' ->
  exists next_id minted,
    global_centroids st' = global_centroids st ++ minted /\
    Dict.keys minted = map (fun j => py_str (next_id + Z.of_nat j))
                           (seq 0 (List.length minted)) /\
    (minted <> [] ->
     initial_next_id (global_centroids st) = Ok next_id /\
     (global_centroids st = [] -> next_id = 1%Z) /\
     forall g, In g (Dict.keys (global_centroids st)) ->
               exists z, py_int g = Ok z /\ (z < next_id)%Z).
Proof.
  intros Hi H. unfold process_chunk in H.
  destruct (segments data) as [|s0 segs] eqn:Es.
  { injection H as <-. exists 1%Z, []. rewrite List.app_nil_r.
    repeat split; congruence. }
  inv_bind H. rename a into cs, Ha into Hcs. inv_bind H.
  destruct a as [m global']. inv_bind H. injection H as <-.
  destruct (resolve_speakers_spec _ _ _ _ _ _ Hi (centroids_nodup _ _ Hcs) Ha)
    as (n & choices & Hn & HF & -> & ->).
  exists n, (minted_entries n cs choices). cbn [global_centroids].
  split; [reflexivity|]. split; [apply minted_entries_keys|].
  intros _. split; [assumption|]. split.
  - intros E. rewrite E in Hn. simpl in Hn. congruence.
  - now apply initial_next_id_above.
Qed.

(** C6 (amended).  When the merge returns a document: the IDs of the final
    registry are pairwise distinct, and every speakerId in the output is one
    of them.  Along the run the registry only grows: every chunk after the
    first keeps the registry as it is and appends the IDs it mints, which
    are consecutive integers starting one above every ID already present
    (at 1 for an empty registry); so minted IDs increase and are never
    reused.  The IDs of chunk 0 are its local IDs as they are. *)
Theorem global_ids_invariant :
  forall sort similarity chunk_files chunk_offsets chunk_size overlap mtime m,
    merge_chunks_with sort similarity chunk_files chunk_offsets chunk_size
                      overlap mtime
      = Ok m ->
    (exists st,
       merge_loop similarity chunk_offsets chunk_size 0 chunk_files chunk_offsets
                  initial_state = Ok st /\
       speakerCount m = List.length (global_centroids st) /\
       NoDup (Dict.keys (global_centroids st)) /\
       forall seg, In seg (merged_segments m) ->
                   In (speakerId seg) (Dict.keys (global_centroids st))) /\
    (forall i data offset s s',
       i <> 0 ->
       process_chunk similarity chunk_offsets chunk_size i data offset s = Ok s' ->
       exists next_id minted,
         global_centroids s' = global_centroids s ++ minted /\
         Dict.keys minted = map (fun j => py_str (next_id + Z.of_nat j))
                                (seq 0 (List.length minted)) /\
         (minted <> [] ->
          initial_next_id (global_centroids s) = Ok next_id /\
          (global_centroids s = [] -> next_id = 1%Z) /\
          forall g, In g (Dict.keys (global_centroids s)) ->
                    exists z, py_int g = Ok z /\ (z < next_id)%Z)) /\
    (forall data offset s cs,
       segments data <> [] ->
       get_speaker_centroids (segments data) = Ok cs ->
       exists s',
         process_chunk similarity chunk_offsets chunk_size 0 data offset s = Ok s' /\
         global_centroids s' = cs).
Proof.
  intros sort similarity files offs csz overlap mtime m H.
  unfold merge_chunks_with in H. inv_bind H. rename a into st. injection H as <-.
  split; [|split].
  - exists st. cbn [speakerCount merged_segments].
    assert (Hcov : registry_covers st).
    { eapply merge_loop_covers; [| |exact Ha].
      - split; [constructor|intros ? []].
      - intros _. split; reflexivity. }
    destruct Hcov as [ND Hcov].
    split; [assumption|]. split; [reflexivity|]. split; [assumption|].
    intros seg Hseg. apply Hcov.
    exact (proj1 (sort_segments_In sort _ _) Hseg).
  - intros i data offset s s' Hi Hstep.
    eapply process_chunk_growth; eassumption.
  - intros data offset s cs Hne Hcs.
    now apply chunk_zero_step.
Qed.

Lemma global_ids_invariant_witness :
  exists m,
    merge_chunks_with insertion_sort cosine_similarity
                      [chunk_7_3; chunk_match_and_new]
                      [0%float; 10%float] 10 30 0 = Ok m /\
    map speakerId (merged_segments m)
      = ["7"%string; "3"%string; "3"%string; "8"%string] /\
    exists st,
      merge_loop cosine_similarity [0%float; 10%float] 10 0
                 [chunk_7_3; chunk_match_and_new] [0%float; 10%float]
                 initial_state = Ok st /\
      NoDup (Dict.keys (global_centroids st)) /\
      forall seg, In seg (merged_segments m) ->
                  In (speakerId seg) (Dict.keys (global_centroids st)).
Proof.
  eexists. split; [reflexivity|]. split; [reflexivity|].
  destruct (proj1 (global_ids_invariant insertion_sort cosine_similarity
                     [chunk_7_3; chunk_match_and_new] [0%float; 10%float]
                     10 30 0 _ eq_refl))
    as (st & H1 & _ & H2 & H3).
  exists st. repeat split; assumption.
Defined.

(** C6 as stated fails on the IDs of chunk 0: they are the local IDs, here
    "7" then "3", neither starting at 1 nor increasing. *)
Lemma global_ids_from_one_counterexample :
  exists m st,
    merge_chunks insertion_sort [chunk_7_3] [0%float] 10 30 0 = Ok m /\
    merge_loop cosine_similarity [0%float] 10 0 [chunk_7_3] [0%float]
               initial_state = Ok st /\
    Dict.keys (global_centroids st) = ["7"%string; "3"%string] /\
    map speakerId (merged_segments m) = ["7"%string; "3"%string].
Proof. do 2 eexists. repeat split. Qed.

(** * Further properties of [merge_fluidaudio_chunks.py] *)

(** ** Exceptions of the merge *)

Lemma cosine_similarity_error a b e :
  cosine_similarity a b = Err e -> e = ValueError.
Proof.
  unfold cosine_similarity, np_dot.
  destruct (Nat.eqb (List.length a) (List.length b)) eqn:E; simpl; [|congruence].
  apply Nat.eqb_eq in E. destruct (dot_acc_total 0 a b E) as [d ->].
  discriminate.
Qed.

Lemma initial_next_id_error_kind ex e :
  initial_next_id ex = Err e -> e = ValueError.
Proof.
  unfold initial_next_id. destruct ex as [|x r]; [discriminate|].
  destruct (mapM py_int (Dict.keys (x :: r))) as [ids|e'] eqn:E; simpl; [discriminate|].
  intros H. injection H as <-.
  eapply (mapM_error_kind py_int); [|exact E]. apply py_int_error.
Qed.

Section ErrorKinds.

Variable similarity : embedding -> embedding -> result float.
Hypothesis similarity_error :
  forall a b e, similarity a b = Err e -> e = ValueError.

Lemma best_match_loop_error c ex : forall bm bs e,
  best_match_loop similarity c ex bm bs = Err e -> e = ValueError.
Proof.
  induction ex as [|[g gc] r IH]; intros bm bs e H; simpl in H; [discriminate|].
  destruct (similarity c gc) as [s|e'] eqn:E; simpl in H.
  - destruct (gtb s bs); eapply IH; eassumption.
  - injection H as <-. eapply similarity_error; eassumption.
Qed.

Lemma choose_error ex thr c e :
  choose similarity ex thr c = Err e -> e = ValueError.
Proof.
  unfold choose.
  destruct (best_match_loop similarity c ex None thr) as [[bm bs]|e'] eqn:E;
    simpl; [discriminate|].
  intros H. injection H as <-. eapply best_match_loop_error; eassumption.
Qed.

Lemma map_loop_error ex thr new : forall mapping next_id e,
  map_loop similarity new ex thr mapping next_id = Err e -> e = ValueError.
Proof.
  induction new as [|[l c] r IH]; intros mapping next_id e H; [discriminate|].
  rewrite map_loop_unfold in H.
  destruct (choose similarity ex thr c) as [[g|]|e'] eqn:E; simpl in H.
  - eapply IH; eassumption.
  - eapply IH; eassumption.
  - injection H as <-. eapply choose_error; eassumption.
Qed.

Lemma map_speakers_with_error new ex thr e :
  map_speakers_with similarity new ex thr = Err e -> e = ValueError.
Proof.
  unfold map_speakers_with.
  destruct (initial_next_id ex) as [n|e'] eqn:E; simpl.
  - apply map_loop_error.
  - intros H. injection H as <-. eapply initial_next_id_error_kind; eassumption.
Qed.

(** Once the mapper has returned, entering the new speakers cannot fail. *)
Lemma update_after_map cs global m :
  NoDup (Dict.keys cs) ->
  map_speakers_with similarity cs global default_threshold = Ok m ->
  exists global', update_global_centroids m cs global = Ok global'.
Proof.
  intros ND Hm.
  destruct (map_speakers_with_spec _ _ _ _ _ ND Hm) as (n & choices & Hn & HF & ->).
  pose proof (existing_ids_nonempty _ _ Hn) as Hne.
  eexists. apply update_global_centroids_spec.
  - intros l c Hin. now apply DictFacts.In_get.
  - eapply Forall2_impl; [|exact HF]. auto.
  - intros g Hg. eapply chosen_is_registered; eassumption.
  - intros k Hk. eapply minted_id_fresh; eassumption.
Qed.

Lemma map_speakers_with_keys new ex thr m :
  NoDup (Dict.keys new) ->
  map_speakers_with similarity new ex thr = Ok m ->
  Dict.keys m = Dict.keys new.
Proof.
  intros ND Hm.
  destruct (map_speakers_with_spec _ _ _ _ _ ND Hm) as (n & choices & _ & HF & ->).
  apply keys_combine. rewrite assign_ids_length. unfold Dict.keys.
  rewrite length_map. eapply Forall2_length; eassumption.
Qed.

Lemma process_chunk_error chunk_offsets chunk_size i data offset st e :
  i < List.length chunk_offsets ->
  process_chunk similarity chunk_offsets chunk_size i data offset st = Err e ->
  e = ValueError.
Proof.
  intros Hi H. unfold process_chunk in H.
  destruct (segments data) as [|s0 segs] eqn:Es; [discriminate|].
  destruct (get_speaker_centroids (s0 :: segs)) as [cs|e'] eqn:Hcs;
    [|injection H as <-; eapply get_speaker_centroids_error; eassumption].
  cbn [bind] in H.
  assert (Hcover : forall m : Dict.t string, Dict.keys m = Dict.keys cs ->
            forall seg, In seg (s0 :: segs) -> Dict.mem (speakerId seg) m = true).
  { intros m Hk seg Hseg. apply DictFacts.mem_keys. rewrite Hk.
    apply (centroids_cover _ _ Hcs). eauto. }
  unfold resolve_speakers in H.
  destruct (Nat.eqb_spec i 0) as [->|Hne].
  - cbn [bind] in H.
    destruct (process_segments_spec 0 offset chunk_offsets chunk_size
                (map (fun sid => (sid, sid)) (Dict.keys cs)) (s0 :: segs) Hi)
      as (out & Hout & _).
    { apply Hcover. unfold Dict.keys. rewrite map_map. simpl. now rewrite map_id. }
    rewrite Hout in H. discriminate.
  - destruct (map_speakers_with similarity cs (global_centroids st) default_threshold)
      as [m|e'] eqn:Hm; cbn [bind] in H;
      [|injection H as <-; eapply map_speakers_with_error; eassumption].
    pose proof (centroids_nodup _ _ Hcs) as ND.
    destruct (update_after_map _ _ _ ND Hm) as [g' Hg']. rewrite Hg' in H.
    cbn [bind] in H.
    destruct (process_segments_spec i offset chunk_offsets chunk_size m
                (s0 :: segs) Hi) as (out & Hout & _).
    { apply Hcover. eapply map_speakers_with_keys; eassumption. }
    rewrite Hout in H. discriminate.
Qed.

Lemma merge_loop_error chunk_offsets chunk_size files : forall offsets i st e,
  skipn i chunk_offsets = offsets ->
  merge_loop similarity chunk_offsets chunk_size i files offsets st = Err e ->
  e = ValueError.
Proof.
  induction files as [|data files IH]; intros offsets i st e Hs H; [discriminate|].
  destruct offsets as [|offset offsets]; [discriminate|].
  simpl in H.
  assert (Hi : i < List.length chunk_offsets).
  { destruct (Nat.lt_ge_cases i (List.length chunk_offsets)) as [|Hge]; [assumption|].
    rewrite skipn_all2 in Hs by assumption. discriminate. }
  destruct (process_chunk similarity chunk_offsets chunk_size i data offset st)
    as [st'|e'] eqn:E; cbn [bind] in H.
  - apply (IH offsets (S i) st' e); [|assumption].
    change (S i) with (1 + i). rewrite <- skipn_skipn, Hs. reflexivity.
  - injection H as <-. eapply process_chunk_error; eassumption.
Qed.

End ErrorKinds.

(** X1.  On chunk documents that carry the fields the code reads,
    [merge_chunks] either returns a document or raises [ValueError] (from
    [int] on a registry ID, from [np.mean] on embeddings of unequal length,
    or from [np.dot] on centroids of unequal dimension).  The look-ups
    [speaker_map[...]], [chunk_centroids[...]] and [chunk_offsets[i - 1]]
    never raise [KeyError] or [IndexError], whatever the segments, offsets
    and chunk size. *)
Theorem merge_chunks_raises_only_value_error :
  forall sort chunk_files chunk_offsets chunk_size overlap mtime,
    (exists m,
       merge_chunks sort chunk_files chunk_offsets chunk_size overlap mtime = Ok m)
    \/ merge_chunks sort chunk_files chunk_offsets chunk_size overlap mtime
       = Err ValueError.
Proof.
  intros sort files offs csz overlap mtime. unfold merge_chunks, merge_chunks_with.
  destruct (merge_loop cosine_similarity offs csz 0 files offs initial_state)
    as [st|e] eqn:E; cbn [bind].
  - left. eauto.
  - right. f_equal.
    eapply (merge_loop_error cosine_similarity cosine_similarity_error);
      [|exact E]. reflexivity.
Qed.

(** ** Pairing of chunk files and offsets *)

Section Pairing.

Variable similarity : embedding -> embedding -> result float.
Variable chunk_size : float.





End Pairing.



(** ** The total duration *)

Lemma py_max_spec a b :
  is_nan a = false ->
  is_nan (py_max a b) = false /\
  PrimFloat.leb a (py_max a b) = true /\
  (is_nan b = false -> PrimFloat.leb b (py_max a b) = true) /\
  (py_max a b = a \/ py_max a b = b).
Proof.
  intros Ha. unfold py_max, gtb.
  destruct (PrimFloat.ltb a b) eqn:E.
  - pose proof (FloatOrder.ltb_not_nan _ _ E) as [_ Hb].
    repeat split; auto.
    + now apply FloatOrder.ltb_leb.
    + intros _. now apply FloatOrder.leb_refl.
  - repeat split; auto.
    + now apply FloatOrder.leb_refl.
    + intros Hb. now apply FloatOrder.not_ltb_leb.
Qed.

Lemma process_chunk_duration similarity chunk_offsets chunk_size i data offset st st' :
  process_chunk similarity chunk_offsets chunk_size i data offset st = Ok st' ->
  total_duration st'
  = match segments data with
    | [] => total_duration st
    | _ :: _ => py_max (total_duration st) (durationSeconds data + offset)%float
    end.
Proof.
  unfold process_chunk. destruct (segments data) as [|s0 segs].
  - intros H. now injection H as <-.
  - intros H. inv_bind H. inv_bind H. destruct a0 as [m g]. inv_bind H.
    now injection H as <-.
Qed.

Lemma merge_loop_duration similarity chunk_offsets chunk_size files :
  forall offsets i st st',
    is_nan (total_duration st) = false ->
    merge_loop similarity chunk_offsets chunk_size i files offsets st = Ok st' ->
    is_nan (total_duration st') = false /\
    PrimFloat.leb (total_duration st) (total_duration st') = true /\
    (forall j data offset,
       nth_error files j = Some data -> nth_error offsets j = Some offset ->
       segments data <> [] ->
       is_nan (durationSeconds data + offset)%float = false ->
       PrimFloat.leb (durationSeconds data + offset)%float (total_duration st')
       = true) /\
    (total_duration st' = total_duration st \/
     exists j data offset,
       nth_error files j = Some data /\ nth_error offsets j = Some offset /\
       segments data <> [] /\
       total_duration st' = (durationSeconds data + offset)%float).
Proof.
  induction files as [|data files IH]; intros offsets i st st' Hn H.
  - injection H as <-. repeat split; auto.
    + now apply FloatOrder.leb_refl.
    + intros [|j] ? ? Hj; discriminate.
  - destruct offsets as [|offset offsets].
    { simpl in H. injection H as <-. repeat split; auto.
      - now apply FloatOrder.leb_refl.
      - intros [|j] ? ? _ Hj; discriminate. }
    simpl in H. inv_bind H. rename a into st1.
    pose proof (process_chunk_duration _ _ _ _ _ _ _ _ Ha) as Hd.
    pose proof (py_max_spec (total_duration st)
                            (durationSeconds data + offset)%float Hn)
      as (M1 & M2 & M3 & M4).
    assert (Hn1 : is_nan (total_duration st1) = false).
    { rewrite Hd. destruct (segments data); assumption. }
    assert (Hle1 : PrimFloat.leb (total_duration st) (total_duration st1) = true).
    { rewrite Hd. destruct (segments data);
        [now apply FloatOrder.leb_refl|assumption]. }
    destruct (IH offsets (S i) st1 st' Hn1 H) as (I1 & I2 & I3 & I4).
    split; [assumption|]. split; [eapply FloatOrder.leb_trans; eassumption|].
    split.
    + intros [|j] d o Hj Ho Hne Hnan; simpl in Hj, Ho.
      * injection Hj as <-. injection Ho as <-.
        eapply FloatOrder.leb_trans; [|exact I2].
        rewrite Hd. destruct (segments data); [congruence|]. now apply M3.
      * eapply I3; eassumption.
    + destruct I4 as [E|(j & d & o & Hj & Ho & Hne & E)].
      * rewrite E, Hd. destruct (segments data) as [|s0 segs] eqn:Es; [now left|].
        destruct M4 as [-> | ->]; [now left|].
        right. exists 0, data, offset. repeat split; auto.
        rewrite Es. discriminate.
      * right. exists (S j), d, o. auto.
Qed.

(** X3.  [durationSeconds] of the merged document is the running maximum
    over the chunks that have segments: it is never NaN and never negative,
    it is at least [durationSeconds + offset] of every such chunk (where that
    sum is a number), and it is either 0 or one of those sums.  Chunks
    without segments do not count, however long they are. *)
Theorem merged_duration_is_running_maximum :
  forall sort similarity chunk_files chunk_offsets chunk_size overlap mtime m,
    merge_chunks_with sort similarity chunk_files chunk_offsets chunk_size
                      overlap mtime
      = Ok m ->
    is_nan (merged_durationSeconds m) = false /\
    PrimFloat.leb 0 (merged_durationSeconds m) = true /\
    (forall j data offset,
       nth_error chunk_files j = Some data ->
       nth_error chunk_offsets j = Some offset ->
       segments data <> [] ->
       is_nan (durationSeconds data + offset)%float = false ->
       PrimFloat.leb (durationSeconds data + offset)%float
                     (merged_durationSeconds m) = true) /\
    (merged_durationSeconds m = 0%float \/
     exists j data offset,
       nth_error chunk_files j = Some data /\
       nth_error chunk_offsets j = Some offset /\
       segments data <> [] /\
       merged_durationSeconds m = (durationSeconds data + offset)%float).
Proof.
  intros sort similarity files offs csz overlap mtime m H.
  unfold merge_chunks_with in H. inv_bind H. injection H as <-.
  cbn [merged_durationSeconds].
  destruct (merge_loop_duration similarity offs csz files offs 0 initial_state a
                                eq_refl Ha)
    as (H1 & H2 & H3 & H4).
  repeat split; assumption.
Qed.

Lemma merged_duration_is_running_maximum_witness :
  exists m,
    merge_chunks_with insertion_sort cosine_similarity
                      [chunk_7_3; mkChunk [] 500] [0%float; 10%float]
                      10 30 0 = Ok m /\
    is_nan (merged_durationSeconds m) = false /\
    merged_durationSeconds m = 10%float.
Proof.
  eexists. split; [reflexivity|].
  split; [|reflexivity].
  exact (proj1 (merged_duration_is_running_maximum insertion_sort
                  cosine_similarity
                  [chunk_7_3; mkChunk [] 500] [0%float; 10%float] 10 30 0 _ eq_refl)).
Defined.

(** ** More on [get_speaker_centroids] *)

Lemma collect_get segs : forall d k,
  Dict.get k (fold_left add_embedding segs d)
  = match Dict.get k d with
    | Some rs => Some (rs ++ embeddings_of k segs)
    | None => match embeddings_of k segs with
              | [] => None
              | rows => Some rows
              end
    end.
Proof.
  unfold embeddings_of.
  induction segs as [|s r IH]; intros d k; simpl.
  - destruct (Dict.get k d); [now rewrite List.app_nil_r|reflexivity].
  - rewrite IH. unfold add_embedding.
    destruct (String.eqb_spec (speakerId s) k) as [->|N].
    + destruct (Dict.get k d) as [rs|] eqn:G;
        rewrite DictFacts.get_set_same; simpl.
      * now rewrite <- List.app_assoc.
      * reflexivity.
    + assert (Hget : forall v, Dict.get k (Dict.set (speakerId s) v d) = Dict.get k d).
      { intros v. now apply DictFacts.get_set_other. }
      destruct (Dict.get (speakerId s) d); now rewrite Hget.
Qed.

Lemma collect_embeddings_get segs k :
  Dict.get k (collect_embeddings segs)
  = match embeddings_of k segs with
    | [] => None
    | rows => Some rows
    end.
Proof. unfold collect_embeddings. now rewrite collect_get. Qed.

Lemma embeddings_of_In sid segs r :
  In r (embeddings_of sid segs) <->
  exists seg, In seg segs /\ speakerId seg = sid /\ seg_embedding seg = r.
Proof.
  unfold embeddings_of. rewrite in_map_iff. split.
  - intros (seg & <- & H). apply filter_In in H. destruct H as [H E].
    apply String.eqb_eq in E. eauto.
  - intros (seg & H & E & <-). exists seg. split; [reflexivity|].
    apply filter_In. split; [assumption|]. now apply String.eqb_eq.
Qed.

Lemma vec_add_length a b :
  List.length a = List.length b -> List.length (vec_add a b) = List.length a.
Proof.
  revert b. induction a as [|x a IH]; intros [|y b] H; simpl in *;
    try discriminate; [reflexivity|]. f_equal. apply IH. lia.
Qed.

Lemma fold_vec_add_length rest : forall r0,
  Forall (fun r => List.length r = List.length r0) rest ->
  List.length (fold_left vec_add rest r0) = List.length r0.
Proof.
  induction rest as [|r rest IH]; intros r0 H; [reflexivity|].
  inversion H as [|? ? Hr Hrest]; subst. simpl.
  assert (Hl : List.length (vec_add r0 r) = List.length r0)
    by (apply vec_add_length; congruence).
  rewrite IH; [assumption|].
  eapply Forall_impl; [|exact Hrest]. intros a Ha. simpl in Ha. congruence.
Qed.

(** [np.mean] returns exactly on a non-empty rectangular array, and the mean
    has the length of the rows. *)
Lemma np_mean_ok rows c :
  np_mean rows = Ok c ->
  exists r0 rest, rows = r0 :: rest /\
    Forall (fun r => List.length r = List.length r0) rest /\
    List.length c = List.length r0.
Proof.
  unfold np_mean. destruct rows as [|r0 rest]; [discriminate|].
  destruct (forallb (fun r => Nat.eqb (List.length r) (List.length r0)) rest) eqn:E;
    [|discriminate].
  intros H. injection H as <-. exists r0, rest. split; [reflexivity|].
  assert (HF : Forall (fun r => List.length r = List.length r0) rest).
  { apply Forall_forall. intros r Hr. rewrite forallb_forall in E.
    now apply Nat.eqb_eq, E. }
  split; [assumption|]. rewrite length_map. now apply fold_vec_add_length.
Qed.

Lemma np_mean_is_ok rows :
  is_ok (np_mean rows) = true <->
  exists r0 rest, rows = r0 :: rest /\
    Forall (fun r => List.length r = List.length r0) rest.
Proof.
  split.
  - destruct (np_mean rows) as [c|] eqn:E; [|discriminate]. intros _.
    destruct (np_mean_ok _ _ E) as (r0 & rest & H1 & H2 & _). eauto.
  - intros (r0 & rest & -> & H). unfold np_mean.
    assert (E : forallb (fun r => Nat.eqb (List.length r) (List.length r0)) rest
                = true).
    { apply forallb_forall. intros r Hr. rewrite Forall_forall in H.
      now apply Nat.eqb_eq, H. }
    now rewrite E.
Qed.

Lemma mapM_is_ok {A B} (f : A -> result B) l :
  is_ok (mapM f l) = true <-> Forall (fun x => is_ok (f x) = true) l.
Proof.
  split.
  - destruct (mapM f l) as [out|] eqn:E; [|discriminate]. intros _.
    apply mapM_ok in E. induction E as [|x y xs ys Hx _ IH]; constructor; auto.
    now rewrite Hx.
  - intros H. destruct (mapM_total f l H) as [out ->]. reflexivity.
Qed.

Lemma collect_entry segs k rows :
  In (k, rows) (collect_embeddings segs) <->
  rows <> [] /\ rows = embeddings_of k segs.
Proof.
  assert (ND : NoDup (Dict.keys (collect_embeddings segs))).
  { apply (collect_keys segs Dict.empty). constructor. }
  split.
  - intros H. apply (DictFacts.In_get _ _ _ ND) in H.
    rewrite collect_embeddings_get in H.
    destruct (embeddings_of k segs); [discriminate|].
    injection H as <-. split; [discriminate|reflexivity].
  - intros [Hne ->]. apply DictFacts.get_In. rewrite collect_embeddings_get.
    destruct (embeddings_of k segs); [congruence|reflexivity].
Qed.

(** X4.  [get_speaker_centroids] returns exactly when, for every speaker,
    all embeddings of that speaker's segments have one length; embeddings of
    different speakers may differ in length.  (Otherwise [np.mean] raises.) *)
Theorem centroids_exist_iff_rectangular :
  forall segs,
    is_ok (get_speaker_centroids segs) = true <->
    (forall s1 s2, In s1 segs -> In s2 segs -> speakerId s1 = speakerId s2 ->
                   List.length (seg_embedding s1) = List.length (seg_embedding s2)).
Proof.
  intros segs. unfold get_speaker_centroids.
  etransitivity; [apply mapM_is_ok|]. rewrite Forall_forall.
  split.
  - intros H s1 s2 H1 H2 E.
    set (k := speakerId s1).
    assert (R1 : In (seg_embedding s1) (embeddings_of k segs))
      by (apply embeddings_of_In; eauto).
    assert (R2 : In (seg_embedding s2) (embeddings_of k segs))
      by (apply embeddings_of_In; eauto).
    assert (Hin : In (k, embeddings_of k segs) (collect_embeddings segs)).
    { apply collect_entry. split; [|reflexivity]. intros E0.
      rewrite E0 in R1. destruct R1. }
    specialize (H _ Hin). cbn beta iota in H.
    assert (Hm : is_ok (np_mean (embeddings_of k segs)) = true).
    { destruct (np_mean (embeddings_of k segs)); [reflexivity|discriminate]. }
    apply np_mean_is_ok in Hm. destruct Hm as (r0 & rest & Hr & HF).
    rewrite Hr in R1, R2. rewrite Forall_forall in HF.
    assert (L : forall r, In r (r0 :: rest) -> List.length r = List.length r0).
    { intros r [<-|Hr']; [reflexivity|now apply HF]. }
    rewrite (L _ R1), (L _ R2). reflexivity.
  - intros H [k rows] Hin. apply collect_entry in Hin. destruct Hin as [Hne ->].
    cbn beta iota.
    assert (Hm : is_ok (np_mean (embeddings_of k segs)) = true).
    { apply np_mean_is_ok. destruct (embeddings_of k segs) as [|r0 rest] eqn:E;
        [congruence|].
      exists r0, rest. split; [reflexivity|]. apply Forall_forall. intros r Hr.
      assert (R0 : In r0 (embeddings_of k segs)) by (rewrite E; now left).
      assert (R : In r (embeddings_of k segs)) by (rewrite E; now right).
      apply embeddings_of_In in R0, R.
      destruct R0 as (s0 & ? & ? & <-), R as (s & ? & ? & <-).
      apply H; congruence. }
    destruct (np_mean (embeddings_of k segs)); [reflexivity|discriminate].
Qed.

Lemma filter_twice {A} (p q : A -> bool) l :
  filter p (filter q l) = filter (fun y => q y && p y) l.
Proof.
  induction l as [|x l IH]; [reflexivity|]. simpl.
  destruct (q x); simpl; [destruct (p x)|]; now rewrite IH.
Qed.

Lemma mem_add_embedding d seg y :
  Dict.mem y (add_embedding d seg)
  = Dict.mem y d || String.eqb y (speakerId seg).
Proof.
  apply Bool.eq_iff_eq_true.
  rewrite orb_true_iff, !DictFacts.mem_keys, keys_add_embedding, String.eqb_eq.
  destruct (Dict.mem (speakerId seg) d) eqn:E.
  - apply DictFacts.mem_keys in E. split; [auto|]. intros [H| ->]; assumption.
  - rewrite in_app_iff. simpl. split.
    + intros [H|[<-|[]]]; auto.
    + intros [H| ->]; auto.
Qed.

Lemma collect_keys_order segs : forall d,
  Dict.keys (fold_left add_embedding segs d)
  = Dict.keys d ++ filter (fun y => negb (Dict.mem y d))
                          (first_seen (map speakerId segs)).
Proof.
  induction segs as [|s r IH]; intros d; simpl.
  - now rewrite List.app_nil_r.
  - rewrite IH, keys_add_embedding, filter_twice.
    assert (E : filter (fun y => negb (Dict.mem y (add_embedding d s)))
                       (first_seen (map speakerId r))
                = filter (fun y => negb (String.eqb y (speakerId s))
                                   && negb (Dict.mem y d))
                         (first_seen (map speakerId r))).
    { apply filter_ext. intros y. rewrite mem_add_embedding.
      destruct (Dict.mem y d), (String.eqb y (speakerId s)); reflexivity. }
    rewrite E.
    destruct (Dict.mem (speakerId s) d); simpl; [reflexivity|].
    now rewrite <- List.app_assoc.
Qed.

(** X5.  The centroid dictionary has one entry per speaker, and its keys
    stand in the order in which the speakers first occur in the segment
    list. *)
Theorem centroid_keys_in_first_seen_order :
  forall segs cs,
    get_speaker_centroids segs = Ok cs ->
    Dict.keys cs = first_seen (map speakerId segs).
Proof.
  intros segs cs H. rewrite (centroid_keys _ _ H).
  unfold collect_embeddings. rewrite collect_keys_order. simpl.
  induction (first_seen (map speakerId segs)) as [|x l IH]; [reflexivity|].
  simpl. now rewrite IH.
Qed.

Lemma centroid_keys_in_first_seen_order_witness :
  Dict.keys [("7"%string, [1%float; 0%float]); ("3"%string, [0%float; 1%float])]
  = first_seen (map speakerId (segments chunk_7_3 ++ segments chunk_7_3)).
Proof.
  apply (centroid_keys_in_first_seen_order
           (segments chunk_7_3 ++ segments chunk_7_3)).
  reflexivity.
Defined.

Lemma centroid_of_entry entries : forall cs k rows,
  Forall2 (fun (e : string * list embedding) (y : string * embedding) =>
             (let '(sid, embeddings) := e in
              c <- np_mean embeddings ;; Ok (sid, c)) = Ok y) entries cs ->
  Dict.get k entries = Some rows ->
  exists c, Dict.get k cs = Some c /\ np_mean rows = Ok c.
Proof.
  induction entries as [|[k0 rows0] r IH]; intros cs k rows HF Hg;
    [discriminate|].
  inversion HF as [|? [k1 c1] ? cs' Hx HF']; subst.
  inv_bind Hx. injection Hx as <- <-. simpl in *.
  destruct (String.eqb k k0).
  - injection Hg as <-. eauto.
  - eapply IH; eassumption.
Qed.

(** X6.  The centroid of a speaker is the mean of the embeddings of that
    speaker's own segments, taken in segment order, and it has the dimension
    of those embeddings. *)
Theorem centroid_is_mean_of_own_embeddings :
  forall segs cs seg,
    get_speaker_centroids segs = Ok cs ->
    In seg segs ->
    exists c,
      Dict.get (speakerId seg) cs = Some c /\
      np_mean (embeddings_of (speakerId seg) segs) = Ok c /\
      List.length c = List.length (seg_embedding seg).
Proof.
  intros segs cs seg H Hin.
  assert (R : In (seg_embedding seg) (embeddings_of (speakerId seg) segs))
    by (apply embeddings_of_In; eauto).
  assert (G : Dict.get (speakerId seg) (collect_embeddings segs)
              = Some (embeddings_of (speakerId seg) segs)).
  { rewrite collect_embeddings_get.
    destruct (embeddings_of (speakerId seg) segs); [destruct R|reflexivity]. }
  unfold get_speaker_centroids in H. apply mapM_ok in H.
  destruct (centroid_of_entry _ _ _ _ H G) as (c & Hc & Hm).
  exists c. split; [assumption|]. split; [assumption|].
  destruct (np_mean_ok _ _ Hm) as (r0 & rest & Hr & HF & Hl).
  rewrite Hr in R. rewrite Hl. destruct R as [->|R]; [reflexivity|].
  rewrite Forall_forall in HF. symmetry. now apply HF.
Qed.

Lemma centroid_is_mean_of_own_embeddings_witness :
  exists c,
    Dict.get "3"%string
             [("7"%string, [1%float; 0%float]); ("3"%string, [0%float; 1%float])]
    = Some c /\
    np_mean (embeddings_of "3"%string (segments chunk_7_3)) = Ok c /\
    List.length c = 2.
Proof.
  exact (centroid_is_mean_of_own_embeddings
           (segments chunk_7_3) _
           (mkSegment 1 2 "3" 1 [0%float; 1%float])
           eq_refl (or_intror (or_introl eq_refl))).
Defined.

(** ** More on [map_speakers] *)

Lemma filter_firstn_lt {A} (f : A -> bool) l : forall p q e,
  p < q -> nth_error l p = Some e -> f e = true ->
  List.length (filter f (firstn p l)) < List.length (filter f (firstn q l)).
Proof.
  induction l as [|x r IH]; intros p q e Hlt Hp He; [destruct p; discriminate|].
  destruct q as [|q]; [lia|]. destruct p as [|p]; simpl in *.
  - injection Hp as ->. rewrite He. simpl. lia.
  - assert (H := IH p q e (proj2 (Nat.succ_lt_mono p q) Hlt) Hp He).
    destruct (f x); simpl; lia.
Qed.

(** X7.  Every mapping that [map_speakers] returns (for a dictionary of
    local speakers, whose keys are distinct) has exactly the local speakers
    as keys, in their order.  Two different local speakers of one chunk
    that both lack a candidate in the registry get two different global
    IDs, however similar their centroids are to each other: local speakers
    are never matched against one another. *)
Theorem unmatched_speakers_get_distinct_ids :
  forall new existing threshold mapping,
    NoDup (Dict.keys new) ->
    map_speakers new existing threshold = Ok mapping ->
    Dict.keys mapping = Dict.keys new /\
    forall p q l1 c1 l2 c2,
      nth_error new p = Some (l1, c1) ->
      nth_error new q = Some (l2, c2) ->
      p <> q ->
      has_candidate cosine_similarity existing threshold c1 = false ->
      has_candidate cosine_similarity existing threshold c2 = false ->
      exists g1 g2,
        Dict.get l1 mapping = Some g1 /\ Dict.get l2 mapping = Some g2 /\
        g1 <> g2.
Proof.
  intros new ex thr m ND H.
  split.
  { destruct (map_speakers_with_spec _ _ _ _ _ ND H) as (n & choices & _ & HF & ->).
    apply keys_combine. rewrite assign_ids_length. unfold Dict.keys.
    rewrite length_map. eapply Forall2_length; eassumption. }
  intros p q l1 c1 l2 c2 Hp Hq Hpq H1 H2.
  destruct (map_speakers_with_entry _ _ _ _ _ _ _ _ ND H Hp) as (n & Hn & E1).
  destruct (map_speakers_with_entry _ _ _ _ _ _ _ _ ND H Hq) as (n' & Hn' & E2).
  rewrite Hn in Hn'. injection Hn' as <-. rewrite H1 in E1. rewrite H2 in E2.
  do 2 eexists. split; [exact E1|]. split; [exact E2|].
  intros E. apply IntStr.py_str_inj in E.
  assert (F : forall a b la ca, a < b -> nth_error new a = Some (la, ca) ->
            has_candidate cosine_similarity ex thr ca = false ->
            minted_before cosine_similarity ex thr new a
            < minted_before cosine_similarity ex thr new b).
  { intros a b la ca Hab Ha Hc. unfold minted_before.
    eapply filter_firstn_lt; [exact Hab|exact Ha|]. simpl. now rewrite Hc. }
  destruct (Nat.lt_trichotomy p q) as [Hlt|[->|Hlt]]; [|congruence|].
  - specialize (F p q l1 c1 Hlt Hp H1). lia.
  - specialize (F q p l2 c2 Hlt Hq H2). lia.
Qed.

Lemma unmatched_speakers_get_distinct_ids_witness :
  cosine_similarity [0%float; 1%float] [0%float; 1%float] = Ok 1%float /\
  map_speakers twin_chunk [("1"%string, [1%float; 0%float])] default_threshold
  = Ok [("a"%string, "2"%string); ("b"%string, "3"%string)] /\
  Dict.keys [("a"%string, "2"%string); ("b"%string, "3"%string)]
  = Dict.keys twin_chunk /\
  exists g1 g2,
    Dict.get "a"%string [("a"%string, "2"%string); ("b"%string, "3"%string)]
    = Some g1 /\
    Dict.get "b"%string [("a"%string, "2"%string); ("b"%string, "3"%string)]
    = Some g2 /\
    g1 <> g2.
Proof.
  split; [reflexivity|]. split; [reflexivity|].
  assert (ND : NoDup (Dict.keys twin_chunk))
    by (repeat constructor; simpl; intuition discriminate).
  destruct (unmatched_speakers_get_distinct_ids
              twin_chunk [("1"%string, [1%float; 0%float])] default_threshold
              [("a"%string, "2"%string); ("b"%string, "3"%string)]
              ND eq_refl) as [K D].
  split; [exact K|].
  apply (D 0 1 "a"%string [0%float; 1%float] "b"%string [0%float; 1%float]).
  - reflexivity.
  - reflexivity.
  - discriminate.
  - reflexivity.
  - reflexivity.
Defined.

Lemma assign_ids_all_none choices : forall n,
  Forall (fun o => o = None) choices ->
  assign_ids n choices
  = map (fun j => py_str (n + Z.of_nat j)) (seq 0 (List.length choices)).
Proof.
  induction choices as [|o r IH]; intros n H; [reflexivity|].
  inversion H as [|? ? -> Hr]; subst. simpl.
  f_equal; [now rewrite Z.add_0_r|].
  rewrite IH by assumption. rewrite <- seq_shift, map_map.
  apply map_ext. intros j. f_equal. lia.
Qed.

(** X8.  Against an empty registry the mapper numbers the local speakers
    "1", "2", ... in their order, whatever their local IDs and centroids; it
    cannot fail and does not use the similarity function. *)
Theorem empty_registry_numbers_speakers :
  forall similarity new threshold,
    NoDup (Dict.keys new) ->
    map_speakers_with similarity new Dict.empty threshold
    = Ok (combine (Dict.keys new)
                  (map (fun j => py_str (1 + Z.of_nat j))
                       (seq 0 (List.length new)))).
Proof.
  intros similarity new threshold ND.
  destruct (map_speakers_with_total similarity Dict.empty threshold new)
    as [m Hm]; [constructor|intros e g _ []|].
  rewrite Hm.
  destruct (map_speakers_with_spec _ _ _ _ _ ND Hm) as (n & choices & Hn & HF & ->).
  simpl in Hn. injection Hn as <-.
  assert (Hnone : Forall (fun o => o = None) choices).
  { clear -HF. induction HF as [|e o l l' He _ IH]; constructor; [|assumption].
    unfold choose in He. simpl in He. now injection He as <-. }
  rewrite assign_ids_all_none by assumption.
  now rewrite <- (Forall2_length HF).
Qed.

Lemma empty_registry_numbers_speakers_witness :
  map_speakers twin_chunk Dict.empty default_threshold
  = Ok [("a"%string, "1"%string); ("b"%string, "2"%string)].
Proof.
  apply (empty_registry_numbers_speakers cosine_similarity twin_chunk
                                         default_threshold).
  repeat constructor; simpl; intuition discriminate.
Defined.

(** * Properties of [align_speakers.py] *)

(** ** [find_speaker_at_time] *)

Lemma first_covering_none ss time :
  first_covering ss time = None <->
  forall seg, In seg ss -> covers seg time = false.
Proof.
  induction ss as [|seg r IH]; simpl.
  - split; [intros _ ? []|reflexivity].
  - destruct (covers seg time) eqn:E.
    + split; [discriminate|]. intros H. rewrite (H seg (or_introl eq_refl)) in E.
      discriminate.
    + rewrite IH. split.
      * intros H s [<-|Hs]; auto.
      * intros H s Hs. apply H. now right.
Qed.

Lemma first_covering_first ss time : forall k seg,
  nth_error ss k = Some seg ->
  covers seg time = true ->
  (forall j seg', j < k -> nth_error ss j = Some seg' -> covers seg' time = false) ->
  first_covering ss time = Some (speaker seg).
Proof.
  induction ss as [|s0 r IH]; intros k seg Hk Hc Hfirst; [destruct k; discriminate|].
  simpl. destruct k as [|k]; simpl in Hk.
  - injection Hk as ->. now rewrite Hc.
  - rewrite (Hfirst 0 s0 (Nat.lt_0_succ k) eq_refl).
    apply (IH k seg Hk Hc). intros j seg' Hj Hn.
    apply (Hfirst (S j) seg'); [lia|exact Hn].
Qed.

(** X9.  If some segment of the speaker timeline covers the time (start <=
    time <= end, ends included), [find_speaker_at_time] returns the speaker
    of the first such segment in list order, even if a later covering
    segment has its midpoint nearer to the time. *)
Theorem covering_segment_wins :
  forall speaker_segments time k seg,
    nth_error speaker_segments k = Some seg ->
    PrimFloat.leb (sp_start seg) time = true ->
    PrimFloat.leb time (sp_end seg) = true ->
    (forall j seg', j < k -> nth_error speaker_segments j = Some seg' ->
                    covers seg' time = false) ->
    find_speaker_at_time speaker_segments time = speaker seg.
Proof.
  intros ss time k seg Hk H1 H2 Hfirst. unfold find_speaker_at_time.
  rewrite (first_covering_first ss time k seg Hk); [reflexivity| |assumption].
  unfold covers. now rewrite H1, H2.
Qed.

Lemma covering_segment_wins_witness :
  PrimFloat.ltb (mid_distance (mkSpeakerSeg "B" 4 6.5) 5.5)
                (mid_distance (mkSpeakerSeg "A" 0 10) 5.5) = true /\
  find_speaker_at_time overlapping_timeline 5.5 = "A"%string.
Proof.
  split; [reflexivity|].
  apply (covering_segment_wins overlapping_timeline 5.5 0 (mkSpeakerSeg "A" 0 10)).
  - reflexivity.
  - reflexivity.
  - reflexivity.
  - intros j seg' Hj. lia.
Defined.

Lemma near_candidate_cons s0 ss time bar j seg d :
  near_candidate (s0 :: ss) time bar (S j) seg d
  <-> near_candidate ss time bar j seg d.
Proof. unfold near_candidate. simpl. tauto. Qed.

Lemma nearest_loop_spec time ss : forall bar dflt,
  (nearest_loop ss time bar dflt = dflt /\
   forall k seg d, ~ near_candidate ss time bar k seg d)
  \/ (exists k seg d,
        nearest_loop ss time bar dflt = speaker seg /\
        nearest_candidate ss time bar k seg d).
Proof.
  induction ss as [|s0 r IH]; intros bar dflt; simpl.
  - left. split; [reflexivity|]. intros k seg d (Hk & _). destruct k; discriminate.
  - destruct (PrimFloat.ltb (mid_distance s0 time) bar) eqn:E0.
    + right.
      destruct (IH (mid_distance s0 time) (speaker s0))
        as [(-> & Hno)|(k & seg & d & -> & (Hc & Hbest))].
      * exists 0, s0, (mid_distance s0 time). split; [reflexivity|]. split.
        { repeat split. assumption. }
        intros j seg' d' Hj. split; [|lia]. destruct j as [|j].
        -- destruct Hj as (Hk & -> & Hlt). injection Hk as <-.
           FloatOrder.float_order.
        -- apply (proj1 (near_candidate_cons _ _ _ _ _ _ _)) in Hj. destruct Hj as (Hk & Hd & Hlt).
           destruct (PrimFloat.ltb d' (mid_distance s0 time)) eqn:E1.
           { exfalso. apply (Hno j seg' d'). repeat split; assumption. }
           FloatOrder.float_order.
      * exists (S k), seg, d. split; [reflexivity|].
        destruct Hc as (Hk & Hd & Hlt). split.
        { repeat split; try assumption. FloatOrder.float_order. }
        intros j seg' d' Hj. destruct j as [|j].
        -- destruct Hj as (Hk' & -> & Hlt'). injection Hk' as <-.
           split; [|intros _]; FloatOrder.float_order.
        -- apply (proj1 (near_candidate_cons _ _ _ _ _ _ _)) in Hj. destruct Hj as (Hk' & Hd' & Hlt').
           destruct (PrimFloat.ltb d' (mid_distance s0 time)) eqn:E1.
           { destruct (Hbest j seg' d') as [B1 B2]; [repeat split; assumption|].
             split; [assumption|]. intros Hjk. apply B2. lia. }
           split; [|intros _]; FloatOrder.float_order.
    + destruct (IH bar dflt) as [(-> & Hno)|(k & seg & d & -> & (Hc & Hbest))].
      * left. split; [reflexivity|]. intros [|k] seg d Hk.
        -- destruct Hk as (Hk & -> & Hlt). injection Hk as <-. congruence.
        -- apply (proj1 (near_candidate_cons _ _ _ _ _ _ _)) in Hk. now apply Hno in Hk.
      * right. exists (S k), seg, d. split; [reflexivity|]. split.
        { now apply (proj2 (near_candidate_cons _ _ _ _ _ _ _)). }
        intros [|j] seg' d' Hj.
        -- destruct Hj as (Hk & -> & Hlt). injection Hk as <-. congruence.
        -- apply (proj1 (near_candidate_cons _ _ _ _ _ _ _)) in Hj.
           destruct (Hbest j seg' d' Hj) as [B1 B2].
           split; [assumption|]. intros Hjk. apply B2. lia.
Qed.

(** X10.  If no segment covers the time, [find_speaker_at_time] returns the
    speaker of the segment whose midpoint is nearest to it, the first one in
    list order among equally near ones; only segments at a finite distance
    count.  With no such segment (an empty timeline, for one) the answer is
    "Unknown". *)
Theorem nearest_midpoint_fallback :
  forall speaker_segments time,
    (forall seg, In seg speaker_segments -> covers seg time = false) ->
    (find_speaker_at_time speaker_segments time = "Unknown"%string /\
     forall k seg d,
       ~ near_candidate speaker_segments time PrimFloat.infinity k seg d)
    \/ (exists k seg d,
          find_speaker_at_time speaker_segments time = speaker seg /\
          nearest_candidate speaker_segments time PrimFloat.infinity k seg d).
Proof.
  intros ss time H. unfold find_speaker_at_time.
  rewrite (proj2 (first_covering_none ss time) H).
  apply nearest_loop_spec.
Qed.

Lemma nearest_midpoint_fallback_witness :
  mid_distance (mkSpeakerSeg "A" 0 2) 5 = mid_distance (mkSpeakerSeg "B" 8 10) 5 /\
  find_speaker_at_time gap_timeline 5 = "A"%string /\
  ((find_speaker_at_time gap_timeline 5 = "Unknown"%string /\
    forall k seg d, ~ near_candidate gap_timeline 5 PrimFloat.infinity k seg d)
   \/ (exists k seg d,
         find_speaker_at_time gap_timeline 5 = speaker seg /\
         nearest_candidate gap_timeline 5 PrimFloat.infinity k seg d)).
Proof.
  split; [reflexivity|]. split; [reflexivity|].
  apply (nearest_midpoint_fallback gap_timeline 5).
  intros seg [<-|[<-|[]]]; reflexivity.
Defined.

Example find_speaker_empty time : find_speaker_at_time [] time = "Unknown"%string.
Proof. reflexivity. Qed.

(** ** [align_transcript] *)

Lemma runs_cons s t l : runs ((s, t) :: l) = merge_run (s, [t]) (runs l).
Proof. simpl. destruct (runs l) as [|[s' ts] rs]; reflexivity. Qed.

Lemma merge_run_same s ct t rs :
  merge_run (s, ct) (merge_run (s, [t]) rs) = merge_run (s, ct ++ [t]) rs.
Proof.
  destruct rs as [|[s' ts] rest]; simpl.
  - now rewrite String.eqb_refl.
  - destruct (String.eqb s s') eqn:E; simpl.
    + rewrite String.eqb_refl. now rewrite <- List.app_assoc.
    + now rewrite String.eqb_refl.
Qed.

Lemma merge_run_other s cs ct t rs :
  String.eqb s cs = false ->
  merge_run (cs, ct) (merge_run (s, [t]) rs) = (cs, ct) :: merge_run (s, [t]) rs
  /\ merge_run (s, [t]) rs <> [].
Proof.
  intros E. assert (E' : String.eqb cs s = false).
  { rewrite String.eqb_sym. exact E. }
  destruct rs as [|[s' ts] rest]; simpl.
  - rewrite E'. split; [reflexivity|discriminate].
  - destruct (String.eqb s s'); simpl; rewrite E'; split;
      try reflexivity; discriminate.
Qed.

Lemma paragraphs_cons s ts rest :
  rest <> [] ->
  paragraphs ((s, ts) :: rest)
  = (if truthy s then [speaker_line s ts; EmptyString] else []) ++ paragraphs rest.
Proof. destruct rest; [congruence|reflexivity]. Qed.

Lemma align_loop_spec ss srt : forall lines cs ct,
  ct <> [] ->
  flushed (align_loop srt ss lines (Some cs) ct)
  = lines ++ paragraphs (merge_run (cs, ct) (runs (labelled srt ss))).
Proof.
  induction srt as [|seg r IH]; intros lines cs ct Hct.
  - simpl. destruct ct as [|t0 ct]; [congruence|]. simpl.
    destruct (truthy cs); [reflexivity|now rewrite List.app_nil_r].
  - cbn [align_loop labelled map]. fold (labelled r ss). rewrite runs_cons.
    set (s := find_speaker_at_time ss ((srt_start seg + srt_end seg) / 2)).
    unfold speaker_changes.
    destruct (String.eqb s cs) eqn:E; cbn [negb].
    + apply String.eqb_eq in E. rewrite E, merge_run_same.
      apply IH. destruct ct; discriminate.
    + destruct (merge_run_other s cs ct (srt_text seg) (runs (labelled r ss)) E)
        as [-> Hne].
      rewrite paragraphs_cons by assumption.
      rewrite IH by discriminate.
      destruct ct as [|t0 ct]; [congruence|]. cbn [flushable].
      destruct (truthy cs); [now rewrite <- List.app_assoc|].
      reflexivity.
Qed.

Lemma runs_expand l :
  flat_map (fun run => map (pair (fst run)) (snd run)) (runs l) = l.
Proof.
  induction l as [|[s t] r IH]; [reflexivity|]. simpl.
  destruct (runs r) as [|[s' ts] rs]; simpl in *.
  - now rewrite <- IH.
  - destruct (String.eqb_spec s s') as [->|N]; simpl; now rewrite <- IH.
Qed.

Lemma runs_alternate l : forall i r1 r2,
  nth_error (runs l) i = Some r1 -> nth_error (runs l) (S i) = Some r2 ->
  fst r1 <> fst r2 /\ snd r1 <> [].
Proof.
  induction l as [|[s t] r IH]; intros i r1 r2 H1 H2; [destruct i; discriminate|].
  simpl in H1, H2. destruct (runs r) as [|[s' ts] rs] eqn:R.
  - destruct i; discriminate.
  - destruct (String.eqb_spec s s') as [->|N].
    + destruct i as [|i].
      * simpl in H1, H2. injection H1 as <-.
        destruct (IH 0 (s', ts) r2 eq_refl H2) as [Hd _].
        split; [exact Hd|discriminate].
      * apply (IH (S i) r1 r2); assumption.
    + destruct i as [|i].
      * simpl in H1, H2. injection H1 as <-. injection H2 as <-.
        split; [exact N|discriminate].
      * apply (IH i r1 r2); assumption.
Qed.

(** X11.  [align_transcript] labels every transcript entry with the speaker
    found at its midpoint, groups the entries into maximal runs of one
    speaker, and writes one paragraph ["**Speaker s:** texts"] per run, the
    texts of the run joined by spaces in order, with an empty line after every
    paragraph but the last run's.  Runs whose speaker name is empty are
    left out.  The runs split the labelled entries without loss or
    reordering, and neighbouring runs have different speakers. *)
Theorem align_transcript_groups_runs :
  forall srt_segments speaker_segments,
    align_transcript srt_segments speaker_segments
    = py_join newline (paragraphs (runs (labelled srt_segments speaker_segments)))
    /\ flat_map (fun run => map (pair (fst run)) (snd run))
                (runs (labelled srt_segments speaker_segments))
       = labelled srt_segments speaker_segments
    /\ forall i r1 r2,
         nth_error (runs (labelled srt_segments speaker_segments)) i = Some r1 ->
         nth_error (runs (labelled srt_segments speaker_segments)) (S i) = Some r2 ->
         fst r1 <> fst r2 /\ snd r1 <> [].
Proof.
  intros srt ss. split; [|split; [apply runs_expand|apply runs_alternate]].
  destruct srt as [|seg r]; [reflexivity|].
  unfold align_transcript.
  change (align_loop (seg :: r) ss [] None [])
    with (align_loop r ss []
            (Some (find_speaker_at_time ss ((srt_start seg + srt_end seg) / 2)))
            [srt_text seg]).
  pose proof (align_loop_spec ss r []
                (find_speaker_at_time ss ((srt_start seg + srt_end seg) / 2))
                [srt_text seg]) as H.
  destruct (align_loop r ss []
              (Some (find_speaker_at_time ss ((srt_start seg + srt_end seg) / 2)))
              [srt_text seg]) as [[lines cs] ct].
  unfold flushed in H. rewrite H by discriminate.
  cbn [labelled map]. fold (labelled r ss). now rewrite runs_cons.
Qed.

Example align_transcript_example :
  align_transcript three_entries two_speaker_timeline
  = ("**Speaker 1:** Hello there." ++ newline ++ newline
     ++ "**Speaker 2:** Hi.")%string
  /\ align_transcript [] two_speaker_timeline = EmptyString.
Proof. split; reflexivity. Qed.

(** ** [parse_srt] *)

Example parse_srt_sample :
  parse_srt srt_sample
  = Ok [ mkSrtSeg 1.5 4 "Hello there."; mkSrtSeg 60 3600.25 "Hi." ].
Proof. reflexivity. Qed.

Lemma digit_value_range c z :
  digit_value c = Some z -> 48 <= nat_of_ascii c <= 57.
Proof.
  unfold digit_value.
  destruct ((48 <=? nat_of_ascii c) && (nat_of_ascii c <=? 57)) eqn:E;
    [|discriminate].
  intros _. apply andb_true_iff in E. destruct E as [E1 E2].
  apply Nat.leb_le in E1, E2. lia.
Qed.

Lemma ascii_eqb_code c c' :
  nat_of_ascii c <> nat_of_ascii c' -> Ascii.eqb c c' = false.
Proof. intros H. apply Ascii.eqb_neq. intros ->. congruence. Qed.

Lemma scan_digits_all_digits g : forall acc rest,
  take_digits (String.length g) (g ++ rest)%string = Some (g, rest) ->
  exists v, scan_digits acc g = (v, EmptyString).
Proof.
  induction g as [|c g IH]; intros acc rest H; [simpl; eauto|].
  simpl in H. simpl. destruct (digit_value c) as [d|]; [|discriminate].
  destruct (take_digits (String.length g) (g ++ rest)%string) as [[g' r']|] eqn:E;
    [|discriminate].
  injection H as -> ->. eapply IH. eassumption.
Qed.

Lemma take_digits_group n : forall s g rest,
  take_digits n s = Some (g, rest) ->
  String.length g = n /\ s = (g ++ rest)%string.
Proof.
  induction n as [|n IH]; intros s g rest H; simpl in H.
  - injection H as <- <-. split; reflexivity.
  - destruct s as [|c r]; [discriminate|].
    destruct (digit_value c); [|discriminate].
    destruct (take_digits n r) as [[g' rest']|] eqn:E; [|discriminate].
    injection H as <- <-. destruct (IH _ _ _ E) as [Hl ->].
    split; [simpl; now rewrite Hl|reflexivity].
Qed.

(** [int] accepts every group that [\d{n}] matches, [n > 0]. *)
Lemma py_int_group n s g rest :
  0 < n -> take_digits n s = Some (g, rest) -> is_ok (py_int g) = true.
Proof.
  intros Hn H. destruct (take_digits_group _ _ _ _ H) as [Hl ->].
  rewrite <- Hl in H. destruct g as [|c g]; [simpl in Hl; lia|].
  simpl in H. destruct (digit_value c) as [d|] eqn:Ed; [|discriminate].
  destruct (take_digits (String.length g) (g ++ rest)%string) as [[g' r']|] eqn:E;
    [|discriminate].
  injection H as -> ->.
  pose proof (digit_value_range _ _ Ed) as Hr.
  unfold py_int. simpl skip_spaces.
  assert (Hs : is_space c = false).
  { unfold is_space.
    repeat match goal with
    | |- context [Nat.leb ?a ?b] => destruct (Nat.leb_spec a b)
    | |- context [Nat.eqb ?a ?b] => destruct (Nat.eqb_spec a b)
    end; simpl; try reflexivity; lia. }
  rewrite Hs.
  rewrite (ascii_eqb_code c "+") by (change (nat_of_ascii "+") with 43; lia).
  rewrite (ascii_eqb_code c "-") by (change (nat_of_ascii "-") with 45; lia).
  rewrite Ed. destruct (scan_digits_all_digits g d rest E) as [v ->].
  reflexivity.
Qed.

Lemma match_clock_groups s gs rest :
  match_clock s = Some (gs, rest) ->
  Forall (fun g => is_ok (py_int g) = true) gs /\ List.length gs = 4.
Proof.
  unfold match_clock.
  destruct (take_digits 2 s) as [[h s1]|] eqn:E1; [|discriminate].
  destruct (expect ":" s1) as [s2|]; [|discriminate].
  destruct (take_digits 2 s2) as [[m s3]|] eqn:E2; [|discriminate].
  destruct (expect ":" s3) as [s4|]; [|discriminate].
  destruct (take_digits 2 s4) as [[sec s5]|] eqn:E3; [|discriminate].
  destruct (expect_separator s5) as [s6|]; [|discriminate].
  destruct (take_digits 3 s6) as [[ms s7]|] eqn:E4; [|discriminate].
  intros H. injection H as <- <-. split; [|reflexivity].
  repeat constructor; eapply py_int_group; try eassumption; lia.
Qed.

Lemma match_timestamp_groups line gs :
  match_timestamp line = Some gs ->
  Forall (fun g => is_ok (py_int g) = true) gs /\ List.length gs = 8.
Proof.
  unfold match_timestamp.
  destruct (match_clock line) as [[g1 s1]|] eqn:E1; [|discriminate].
  destruct (expect_arrow (lstrip s1)) as [s2|]; [|discriminate].
  destruct (match_clock (lstrip s2)) as [[g2 s3]|] eqn:E2; [|discriminate].
  intros H. injection H as <-.
  destruct (match_clock_groups _ _ _ E1) as [F1 L1].
  destruct (match_clock_groups _ _ _ E2) as [F2 L2].
  split; [now apply Forall_app|]. rewrite length_app. lia.
Qed.

Lemma cons_head_no_newline c pieces :
  is_newline c = false ->
  Forall (fun l => has_newline l = false) pieces ->
  Forall (fun l => has_newline l = false) (cons_head c pieces).
Proof.
  intros Hc H. destruct H as [|x xs Hx Hxs]; simpl.
  - repeat constructor. simpl. now rewrite Hc.
  - constructor; [simpl; now rewrite Hc|assumption].
Qed.

Lemma split_lines_no_newline s :
  Forall (fun l => has_newline l = false) (split_lines s).
Proof.
  induction s as [|c r IH]; simpl; [repeat constructor|].
  destruct (is_newline c) eqn:E.
  - constructor; [reflexivity|assumption].
  - now apply cons_head_no_newline.
Qed.

Lemma has_newline_app a b :
  has_newline (a ++ b)%string = has_newline a || has_newline b.
Proof.
  induction a as [|c a IH]; simpl; [reflexivity|].
  now rewrite IH, orb_assoc.
Qed.

Lemma py_join_no_newline l :
  Forall (fun x => has_newline x = false) l ->
  has_newline (py_join " " l) = false.
Proof.
  induction 1 as [|x r Hx Hr IH]; [reflexivity|].
  destruct r as [|y r]; [exact Hx|].
  change (py_join " " (x :: y :: r))
    with (x ++ " " ++ py_join " " (y :: r))%string.
  rewrite !has_newline_app, Hx, IH. reflexivity.
Qed.

Lemma Forall_skipn {A} (P : A -> Prop) n : forall l,
  Forall P l -> Forall P (skipn n l).
Proof.
  induction n as [|n IH]; intros l H; [assumption|].
  destruct H; [constructor|]. simpl. now apply IH.
Qed.

Lemma parse_entry_ok entry :
  exists o, parse_entry entry = Ok o /\
    match o with
    | Some seg => has_newline (srt_text seg) = false
    | None => True
    end.
Proof.
  unfold parse_entry.
  destruct (Nat.ltb (List.length (split_lines (py_strip entry))) 3);
    [exists None; split; [reflexivity|exact I]|].
  destruct (match_timestamp (nth 1 (split_lines (py_strip entry)) EmptyString))
    as [gs|] eqn:E; [|exists None; split; [reflexivity|exact I]].
  destruct (match_timestamp_groups _ _ E) as [HF HL].
  destruct (mapM_total py_int gs HF) as [ints Hi]. rewrite Hi. cbn [bind].
  pose proof (Forall2_length (mapM_ok _ _ _ Hi)) as Hlen. rewrite HL in Hlen.
  do 9 (destruct ints as [|? ints]; try discriminate).
  eexists. split; [reflexivity|]. simpl srt_text.
  apply py_join_no_newline, Forall_skipn, split_lines_no_newline.
Qed.

Lemma parse_entries_ok entries :
  exists segs,
    parse_entries entries = Ok segs /\
    List.length segs <= List.length entries /\
    forall seg, In seg segs -> has_newline (srt_text seg) = false.
Proof.
  induction entries as [|e r (segs & Hs & Hl & Hn)]; simpl.
  - exists []. split; [reflexivity|]. split; [apply le_n|intros ? []].
  - destruct (parse_entry_ok e) as (o & -> & Ho). rewrite Hs. cbn [bind].
    eexists. split; [reflexivity|]. destruct o as [seg|]; simpl.
    + split; [lia|]. intros s [<-|H]; auto.
    + split; [lia|]. assumption.
Qed.

(** X12.  On every file content (of code points below 256) [parse_srt]
    returns a list (its [int] conversions cannot fail, the groups being
    digits): at most one segment per block between runs of two or more
    line feeds, and no segment text contains a line feed, a multi-line
    subtitle being joined by spaces. *)
Theorem parse_srt_returns_single_line_texts :
  forall content,
    exists segs,
      parse_srt content = Ok segs /\
      List.length segs <= List.length (split_blank false (py_strip content)) /\
      forall seg, In seg segs -> has_newline (srt_text seg) = false.
Proof. intros content. apply parse_entries_ok. Qed.

Lemma string_app_assoc (a b c : string) :
  ((a ++ b) ++ c = a ++ (b ++ c))%string.
Proof. induction a as [|x a IH]; simpl; [reflexivity|now rewrite IH]. Qed.

Ltac digit_cases d H :=
  do 10 (destruct d as [|d]; [reflexivity|]); exfalso; lia.

Lemma digit_char_value d :
  d < 10 -> digit_value (digit_char d) = Some (Z.of_nat d).
Proof. intros H. digit_cases d H. Qed.

Lemma digit_char_not_space d : d < 10 -> is_py_space (digit_char d) = false.
Proof. intros H. digit_cases d H. Qed.

Lemma py_int_cons_digit d g :
  d < 10 ->
  py_int (String (digit_char d) g)
  = let '(v, rest) := scan_digits (Z.of_nat d) g in
    if all_spaces rest then Ok v else Err ValueError.
Proof. intros H. digit_cases d H. Qed.

Lemma scan_digits_cons_digit acc d g :
  d < 10 ->
  scan_digits acc (String (digit_char d) g)
  = scan_digits (10 * acc + Z.of_nat d) g.
Proof. intros H. digit_cases d H. Qed.

Lemma two_digits_range n :
  n < 100 -> n / 10 < 10 /\ n mod 10 < 10 /\ n = 10 * (n / 10) + n mod 10.
Proof.
  intros H. split; [apply Nat.Div0.div_lt_upper_bound; lia|].
  split; [apply Nat.mod_upper_bound; lia|]. apply Nat.div_mod_eq.
Qed.

Lemma three_digits_range n :
  n < 1000 -> n / 100 < 10 /\ n mod 100 < 100 /\ n = 100 * (n / 100) + n mod 100.
Proof.
  intros H. split; [apply Nat.Div0.div_lt_upper_bound; lia|].
  split; [apply Nat.mod_upper_bound; lia|]. apply Nat.div_mod_eq.
Qed.

Lemma py_int_two_digits n : n < 100 -> py_int (two_digits n) = Ok (Z.of_nat n).
Proof.
  intros H. destruct (two_digits_range n H) as (Ha & Hb & E).
  unfold two_digits. rewrite py_int_cons_digit by assumption.
  rewrite scan_digits_cons_digit by assumption.
  cbn [scan_digits all_spaces]. f_equal. lia.
Qed.

Lemma py_int_three_digits n : n < 1000 -> py_int (three_digits n) = Ok (Z.of_nat n).
Proof.
  intros H. destruct (three_digits_range n H) as (Ha & Hm & E).
  destruct (two_digits_range _ Hm) as (Hb & Hc & E').
  unfold three_digits, two_digits. rewrite py_int_cons_digit by assumption.
  rewrite !scan_digits_cons_digit by assumption.
  cbn [scan_digits all_spaces]. f_equal. lia.
Qed.

Lemma take_two_digits n rest :
  n < 100 -> take_digits 2 (two_digits n ++ rest)%string = Some (two_digits n, rest).
Proof.
  intros H. destruct (two_digits_range n H) as (Ha & Hb & _).
  unfold two_digits. cbn [take_digits String.append].
  now rewrite !digit_char_value by assumption.
Qed.

Lemma take_digits_step n c r :
  take_digits (S n) (String c r)
  = match digit_value c with
    | Some _ =>
        match take_digits n r with
        | Some (g, rest) => Some (String c g, rest)
        | None => None
        end
    | None => None
    end.
Proof. reflexivity. Qed.

Lemma take_three_digits n rest :
  n < 1000 ->
  take_digits 3 (three_digits n ++ rest)%string = Some (three_digits n, rest).
Proof.
  intros H. destruct (three_digits_range n H) as (Ha & Hm & _).
  unfold three_digits.
  change (String (digit_char (n / 100)) (two_digits (n mod 100)) ++ rest)%string
    with (String (digit_char (n / 100)) (two_digits (n mod 100) ++ rest)%string).
  rewrite take_digits_step, digit_char_value by assumption.
  now rewrite take_two_digits by assumption.
Qed.

Lemma match_clock_text h m s ms sep rest :
  h < 100 -> m < 100 -> s < 100 -> ms < 1000 ->
  sep = ","%char \/ sep = "."%char ->
  match_clock (clock_text h m s ms sep ++ rest)%string
  = Some ([two_digits h; two_digits m; two_digits s; three_digits ms], rest).
Proof.
  intros Hh Hm Hs Hms Hsep. unfold match_clock, clock_text.
  rewrite !string_app_assoc, take_two_digits by assumption.
  cbn [String.append expect]. rewrite Ascii.eqb_refl.
  rewrite take_two_digits by assumption.
  cbn [String.append expect]. rewrite Ascii.eqb_refl.
  rewrite take_two_digits by assumption.
  cbn [String.append expect_separator].
  assert (E : Ascii.eqb sep "," || Ascii.eqb sep "." = true).
  { destruct Hsep as [-> | ->]; reflexivity. }
  rewrite E. now rewrite take_three_digits by assumption.
Qed.

Lemma lstrip_spaces ws r :
  all_py_spaces ws = true -> lstrip (ws ++ r)%string = lstrip r.
Proof.
  induction ws as [|c ws IH]; simpl; [reflexivity|].
  intros H. apply andb_true_iff in H. destruct H as [-> H]. auto.
Qed.

Lemma lstrip_clock_text h m s ms sep rest :
  h < 100 ->
  lstrip (clock_text h m s ms sep ++ rest)%string
  = (clock_text h m s ms sep ++ rest)%string.
Proof.
  intros H. destruct (two_digits_range h H) as (Ha & _).
  unfold clock_text, two_digits at 1. cbn [String.append lstrip].
  now rewrite digit_char_not_space by assumption.
Qed.

Lemma match_timestamp_line h1 m1 s1 ms1 sep1 ws1 ws2 h2 m2 s2 ms2 sep2 rest :
  h1 < 100 -> m1 < 100 -> s1 < 100 -> ms1 < 1000 ->
  h2 < 100 -> m2 < 100 -> s2 < 100 -> ms2 < 1000 ->
  sep1 = ","%char \/ sep1 = "."%char ->
  sep2 = ","%char \/ sep2 = "."%char ->
  all_py_spaces ws1 = true -> all_py_spaces ws2 = true ->
  match_timestamp (timestamp_line h1 m1 s1 ms1 sep1 ws1 ws2 h2 m2 s2 ms2 sep2 rest)
  = Some [two_digits h1; two_digits m1; two_digits s1; three_digits ms1;
          two_digits h2; two_digits m2; two_digits s2; three_digits ms2].
Proof.
  intros. unfold match_timestamp, timestamp_line.
  rewrite match_clock_text by assumption.
  rewrite lstrip_spaces by assumption.
  change (expect_arrow (lstrip ("-->" ++ ws2 ++ clock_text h2 m2 s2 ms2 sep2 ++ rest)))
    with (Some (ws2 ++ clock_text h2 m2 s2 ms2 sep2 ++ rest)%string).
  cbv beta iota.
  rewrite lstrip_spaces, lstrip_clock_text by assumption.
  now rewrite match_clock_text by assumption.
Qed.

(** X13.  An entry of at least three lines whose second line reads
    [HH:MM:SS,mmm --> HH:MM:SS,mmm] (a comma or a full stop before the
    milliseconds, any white space around the arrow, anything after the
    second reading) yields one segment: start and end are
    [h * 3600 + m * 60 + s + ms / 1000] seconds, and the text is the third
    and later lines joined by single spaces. *)
Theorem timestamped_entry_is_parsed :
  forall entry idx t texts h1 m1 s1 ms1 sep1 ws1 ws2 h2 m2 s2 ms2 sep2 rest,
    split_lines (py_strip entry)
    = idx :: timestamp_line h1 m1 s1 ms1 sep1 ws1 ws2 h2 m2 s2 ms2 sep2 rest
          :: t :: texts ->
    h1 < 100 -> m1 < 100 -> s1 < 100 -> ms1 < 1000 ->
    h2 < 100 -> m2 < 100 -> s2 < 100 -> ms2 < 1000 ->
    sep1 = ","%char \/ sep1 = "."%char ->
    sep2 = ","%char \/ sep2 = "."%char ->
    all_py_spaces ws1 = true -> all_py_spaces ws2 = true ->
    parse_entry entry
    = Ok (Some (mkSrtSeg
                  (clock_seconds (Z.of_nat h1) (Z.of_nat m1) (Z.of_nat s1)
                                 (Z.of_nat ms1))
                  (clock_seconds (Z.of_nat h2) (Z.of_nat m2) (Z.of_nat s2)
                                 (Z.of_nat ms2))
                  (py_join " " (t :: texts)))).
Proof.
  intros entry idx t texts h1 m1 s1 ms1 sep1 ws1 ws2 h2 m2 s2 ms2 sep2 rest Hl.
  intros. unfold parse_entry. rewrite Hl.
  cbn [List.length Nat.ltb Nat.leb nth skipn].
  rewrite match_timestamp_line by assumption.
  cbn [mapM].
  rewrite !py_int_two_digits, !py_int_three_digits by assumption.
  reflexivity.
Qed.

Lemma timestamped_entry_is_parsed_witness :
  parse_entry sample_entry
  = Ok (Some (mkSrtSeg (clock_seconds 1 2 3 250) (clock_seconds 1 2 5 0)
                       "So, hello."))
  /\ clock_seconds 1 2 3 250 = 3723.25%float.
Proof.
  split; [|reflexivity].
  apply (timestamped_entry_is_parsed sample_entry "7" "So," ["hello."%string]
           1 2 3 250 "." "  " " " 1 2 5 0 "," " align:start");
    try reflexivity; try lia; auto.
Defined.

(** * Further properties of [merge_fluidaudio_chunks.py], continued *)

(** ** Symmetry of the similarity *)

Lemma float_mul_comm x y : (x * y = y * x)%float.
Proof.
  rewrite <- (FloatAxioms.SF2Prim_Prim2SF (x * y)),
          <- (FloatAxioms.SF2Prim_Prim2SF (y * x)).
  rewrite !FloatAxioms.mul_spec. f_equal.
  unfold SF64mul, SpecFloat.SFmul.
  destruct (Prim2SF x) as [sx|sx| |sx mx ex], (Prim2SF y) as [sy|sy| |sy my ey];
    try reflexivity; try (now rewrite xorb_comm).
  now rewrite xorb_comm, Pos.mul_comm, Z.add_comm.
Qed.

Lemma dot_acc_comm a : forall acc b, dot_acc acc a b = dot_acc acc b a.
Proof.
  induction a as [|x a IH]; intros acc [|y b]; simpl; try reflexivity.
  now rewrite float_mul_comm, IH.
Qed.

(** X14.  The similarity is symmetric, with no rounding difference:
    swapping the two vectors gives the same binary64 number (NaN for NaN),
    or the same [ValueError]. *)
Theorem cosine_similarity_symmetric :
  forall a b, cosine_similarity a b = cosine_similarity b a.
Proof.
  intros a b. unfold cosine_similarity, np_dot.
  rewrite (Nat.eqb_sym (List.length a)), (dot_acc_comm a).
  destruct (Nat.eqb (List.length b) (List.length a)); [|reflexivity].
  destruct (dot_acc 0 b a); [|reflexivity]. simpl.
  now rewrite (float_mul_comm (np_norm a)).
Qed.

(** ** Where the output segments come from *)

(** X15.  The merge invents no segment: every segment of the merged
    document stems from a segment of one of the chunk files, with the times
    shifted by that file's offset and the quality score and the embedding
    unchanged; and the document has at most as many segments as the chunk
    files that have an offset hold together. *)
Theorem merged_segments_stem_from_chunks :
  forall sort similarity chunk_files chunk_offsets chunk_size overlap mtime m,
    merge_chunks_with sort similarity chunk_files chunk_offsets chunk_size
                      overlap mtime
      = Ok m ->
    List.length (merged_segments m)
    <= List.length (flat_map segments
                      (firstn (List.length chunk_offsets) chunk_files)) /\
    forall out, In out (merged_segments m) ->
      exists j data offset seg,
        nth_error chunk_files j = Some data /\
        nth_error chunk_offsets j = Some offset /\
        In seg (segments data) /\ stems_from offset seg out.
Proof.
  intros sort similarity files offs csz overlap mtime m H.
  unfold merge_chunks_with in H. inv_bind H. injection H as <-.
  cbn [merged_segments].
  destruct (merge_loop_stems _ _ _ _ _ _ _ _ Ha) as (added & E & L & S).
  simpl in E. subst added. split.
  - now rewrite <- (Permutation_length (sort_permutes sort (all_segments a))).
  - intros out Hout. apply (proj1 (sort_segments_In sort _ _)) in Hout. auto.
Qed.

Lemma merged_segments_stem_from_chunks_witness :
  exists m,
    merge_chunks_with insertion_sort cosine_similarity
                      [chunk_7_3; chunk_match_and_new]
                      [0%float; 10%float] 10 30 0 = Ok m /\
    List.length (merged_segments m) = 4 /\
    forall out, In out (merged_segments m) ->
      exists j data offset seg,
        nth_error [chunk_7_3; chunk_match_and_new] j = Some data /\
        nth_error [0%float; 10%float] j = Some offset /\
        In seg (segments data) /\ stems_from offset seg out.
Proof.
  eexists. split; [reflexivity|]. split; [reflexivity|].
  exact (proj2 (merged_segments_stem_from_chunks insertion_sort cosine_similarity
                  [chunk_7_3; chunk_match_and_new] [0%float; 10%float]
                  10 30 0 _ eq_refl)).
Defined.
